(** * ChatGPT History: export parser and TF-IDF search engine

    A shallow embedding of [chatgpt_history_mcp.py]: the export parser
    ([parse_chatgpt_export], [_flatten_message_tree], [_extract_text]), the
    search engine ([SearchEngine]: [_tokenize], [_build_index], [search]),
    [_parse_date] and the listing tool ([chatgpt_list_conversations]).

    Conventions of the embedding.
    - A Python [str] is a list of Unicode code points.
    - A Python [float] is a real number: rounding is not modelled.
    - A Python [dict] is an association list in insertion order, as the
      language defines it: [d[k] = v] keeps the position of a key that is
      already present and appends a new key at the end.
    - [sorted] and [list.sort] are stable; they are modelled by a stable
      insertion sort.
    - A loop that may not terminate carries fuel and returns [None] when
      the fuel runs out. *)

From Stdlib Require Import Ascii String.
From Stdlib Require Import List Arith NArith ZArith Bool Lia.
From Stdlib Require Import Reals Lra.
From Stdlib Require Import Sorted Permutation.
Import ListNotations.

(* ===================================================================== *)
(** * Strings *)

Definition codepoint := N.
Definition str := list codepoint.

(** The [str] of an ASCII literal. *)
Definition lit (s : string) : str := map N_of_ascii (list_ascii_of_string s).
Arguments lit s%_string.

Fixpoint str_eqb (a b : str) : bool :=
  match a, b with
  | [], [] => true
  | x :: a', y :: b' => N.eqb x y && str_eqb a' b'
  | _, _ => false
  end.

(** [a.startswith(b)] read the other way round: [b] is a prefix of [a]. *)
Fixpoint is_prefix (b a : str) : bool :=
  match b, a with
  | [], _ => true
  | x :: b', y :: a' => N.eqb x y && is_prefix b' a'
  | _ :: _, [] => false
  end.

(** [needle in hay] on strings: [needle] occurs in [hay] as a contiguous
    substring. *)
Fixpoint str_in (needle hay : str) : bool :=
  is_prefix needle hay ||
  match hay with
  | [] => false
  | _ :: hay' => str_in needle hay'
  end.

(** [sep.join(parts)]. *)
Fixpoint join (sep : str) (parts : list str) : str :=
  match parts with
  | [] => []
  | [p] => p
  | p :: ps => p ++ sep ++ join sep ps
  end.

(** [str.isspace] of one code point. *)
Definition is_space (c : codepoint) : bool :=
  ((9 <=? c) && (c <=? 13) || (28 <=? c) && (c <=? 32)
   || (c =? 133) || (c =? 160) || (c =? 5760)
   || (8192 <=? c) && (c <=? 8202)
   || (c =? 8232) || (c =? 8233) || (c =? 8239) || (c =? 8287)
   || (c =? 12288))%N.

Fixpoint lstrip (s : str) : str :=
  match s with
  | c :: s' => if is_space c then lstrip s' else s
  | [] => []
  end.

(** [s.strip()]. *)
Definition strip (s : str) : str := rev (lstrip (rev (lstrip s))).

(** Truth value of a string: the empty string is false. *)
Definition nonempty (s : str) : bool :=
  match s with [] => false | _ :: _ => true end.

(** [str.lower] on the code points whose lowercase form the tokenizer can
    see: ASCII capitals, U+0130 (lowercased to [i] followed by U+0307) and
    U+212A KELVIN SIGN (lowercased to [k]).  No other code point above ASCII
    has an ASCII letter or digit in its lowercase form; the Unicode table
    for them is not reproduced and they are left unchanged here.  The search
    engine below takes [lower] as a parameter, so that its theorems hold for
    the interpreter's full table; [str_lower] instantiates it in the worked
    examples. *)
Definition lower_cp (c : codepoint) : str :=
  (if (65 <=? c) && (c <=? 90) then [c + 32]
   else if c =? 304 then [105; 775]
   else if c =? 8490 then [107]
   else [c])%N.

Definition str_lower (s : str) : str := flat_map lower_cp s.

(* ===================================================================== *)
(** * Tokenizer *)

(** The character class [[a-z0-9]]. *)
Definition is_token_char (c : codepoint) : bool :=
  ((97 <=? c) && (c <=? 122) || (48 <=? c) && (c <=? 57))%N.

(** [re.findall(r"[a-z0-9]+", s)]: scan from the left; [cur] is the run
    matched so far, a match ends at the first code point outside the
    class or at the end of the string. *)
Fixpoint findall_runs (cur : str) (s : str) : list str :=
  match s with
  | [] => if nonempty cur then [cur] else []
  | c :: s' =>
      if is_token_char c then findall_runs (cur ++ [c]) s'
      else if nonempty cur then cur :: findall_runs [] s'
           else findall_runs [] s'
  end.

Section Tokenizer.
(** [str.lower] of the interpreter. *)
Variable lower : str -> str.

(** [SearchEngine._tokenize]. *)
Definition _tokenize (text : str) : list str :=
  findall_runs [] (lower text).
End Tokenizer.

(* ===================================================================== *)
(** * Python containers *)

Section Dict.
Context {K V : Type}.
Variable eqb : K -> K -> bool.

(** A [dict] in insertion order. *)
Definition dict := list (K * V).

(** [d.get(k)]. *)
Fixpoint dict_get (d : dict) (k : K) : option V :=
  match d with
  | [] => None
  | (k', v) :: d' => if eqb k k' then Some v else dict_get d' k
  end.

(** [d.get(k, dflt)]. *)
Definition dict_get_default (d : dict) (k : K) (dflt : V) : V :=
  match dict_get d k with Some v => v | None => dflt end.

(** [k in d]. *)
Definition dict_mem (d : dict) (k : K) : bool :=
  match dict_get d k with Some _ => true | None => false end.

(** [d[k] = v]: a key already present keeps its position. *)
Fixpoint dict_set (d : dict) (k : K) (v : V) : dict :=
  match d with
  | [] => [(k, v)]
  | (k', v') :: d' =>
      if eqb k k' then (k', v) :: d' else (k', v') :: dict_set d' k v
  end.
End Dict.

Arguments dict : clear implicits.

(** [enumerate(l)]. *)
Definition enumerate {A : Type} (l : list A) : list (nat * A) :=
  combine (seq 0 (length l)) l.

(** Comparison of floats, as a boolean. *)
Definition Rltb (x y : R) : bool := if Rlt_dec x y then true else false.

(** Truth value of a float: zero is false. *)
Definition Rtruthy (x : R) : bool := if Req_dec_T x 0%R then false else true.

Section Sorting.
Context {A : Type}.
Variable key : A -> R.

(** Insert [x] in front of the first element whose key is not larger:
    [x] stays ahead of the elements of equal key that came after it. *)
Fixpoint insert_desc (x : A) (l : list A) : list A :=
  match l with
  | [] => [x]
  | y :: l' =>
      if Rltb (key x) (key y) then y :: insert_desc x l' else x :: y :: l'
  end.

(** [sorted(l, key=key, reverse=True)]: descending keys, and elements of
    equal key in their original order (the sort is stable, with
    [reverse=True] too). *)
Fixpoint sorted_desc (l : list A) : list A :=
  match l with
  | [] => []
  | x :: l' => insert_desc x (sorted_desc l')
  end.
End Sorting.

(** [l[start:end]] for [0 <= start]. *)
Definition slice {A : Type} (l : list A) (start end_ : nat) : list A :=
  firstn (end_ - start) (skipn start l).

(* ===================================================================== *)
(** * Data models *)

(** [@dataclass Message]. *)
Record Message := {
  role : str;          (* "user", "assistant", "system", "tool" *)
  text : str;
  timestamp : option R
}.

(** [@dataclass Conversation]. *)
Record Conversation := {
  id : str;
  title : str;
  create_time : option R;
  update_time : option R;
  messages : list Message;
  model_slug : str
}.

(** [Conversation.full_text]. *)
Definition full_text (c : Conversation) : str :=
  join (lit " ") (title c :: map text (messages c)).

(** [x or 0] on an optional float. *)
Definition or_zero (x : option R) : R :=
  match x with Some t => t | None => 0%R end.

(** [x.get(k, dflt)] on an optional field. *)
Definition get_default {A : Type} (x : option A) (dflt : A) : A :=
  match x with Some a => a | None => dflt end.

(* ===================================================================== *)
(** * The raw export *)

(** One element of [content["parts"]]: a string, an object that may carry
    a ["text"] field, or anything else (ignored by [_extract_text]). *)
Inductive part :=
| PStr (s : str)
| PObj (text_field : option str)
| POther.

(** A [content] value: a string, or an object read through its ["parts"]
    (an object without ["parts"] is one with no parts). *)
Inductive content_value :=
| CStr (s : str)
| CObj (parts : list part).

(** The [message] object of a node. *)
Record raw_message := {
  author_role : option str;     (* message["author"]["role"] *)
  content : option content_value;
  msg_create_time : option R
}.

(** One node of [mapping]. *)
Record node := {
  parent : option str;
  children : list str;
  message : option raw_message
}.

(** One element of a flat ["messages"] array. *)
Record flat_message := {
  fm_role : option str;
  fm_author_role : option str;
  fm_content : option content_value;
  fm_create_time : option R
}.

(** One entry of [conversations.json]. *)
Record entry := {
  e_id : option str;
  e_conversation_id : option str;
  e_title : option str;
  e_create_time : option R;
  e_update_time : option R;
  e_default_model_slug : option str;
  e_mapping : dict str node;
  e_messages : list (option flat_message)
}.

(** [node] of [mapping.get(current_id, {})] when the id is missing. *)
Definition empty_node : node :=
  {| parent := None; children := []; message := None |}.

(** Truth value of a present [content]: a non-empty string, or an object
    (one that has ["parts"] is not empty). *)
Definition content_truthy (c : content_value) : bool :=
  match c with
  | CStr s => nonempty s
  | CObj _ => true
  end.

(** [_extract_text]. *)
Definition _extract_text (c : content_value) : str :=
  match c with
  | CStr s => s
  | CObj parts =>
      let texts :=
        flat_map (fun p => match p with
                           | PStr s => [s]
                           | PObj (Some t) => [t]
                           | PObj None => []
                           | POther => []
                           end) parts in
      join [10%N] texts
  end.

(** [author in ("user", "assistant", "system", "tool")]. *)
Definition known_roles : list str :=
  [lit "user"; lit "assistant"; lit "system"; lit "tool"].

Definition is_known_role (author : str) : bool :=
  existsb (str_eqb author) known_roles.

(** The body of the walk for one node: the messages it appends. *)
Definition node_messages (n : node) : list Message :=
  match message n with
  | Some msg_data =>
      match content msg_data with
      | Some c =>
          if content_truthy c then
            let author := get_default (author_role msg_data) (lit "unknown") in
            let text := _extract_text c in
            if nonempty (strip text) && is_known_role author then
              [ {| role := author; text := text;
                   timestamp := msg_create_time msg_data |} ]
            else []
          else []
      | None => []
      end
  | None => []
  end.

(** The root: the first node, in the order of the mapping, whose parent
    is absent or not a key of the mapping. *)
Definition find_root (mapping : dict str node) : option str :=
  option_map fst
    (find (fun '(_, n) =>
             match parent n with
             | None => true
             | Some p => negb (dict_mem str_eqb mapping p)
             end) mapping).

(** The loop [while current_id: ...] of [_flatten_message_tree]: it stops
    on [None] and on the empty string, and goes on to the first child. *)
Fixpoint walk (fuel : nat) (mapping : dict str node)
    (current_id : option str) (messages : list Message)
  : option (list Message) :=
  match fuel with
  | O => None
  | S fuel' =>
      match current_id with
      | None => Some messages
      | Some [] => Some messages
      | Some cid =>
          let n := dict_get_default str_eqb mapping cid empty_node in
          walk fuel' mapping (hd_error (children n))
               (messages ++ node_messages n)
      end
  end.

(** [_flatten_message_tree]. *)
Definition _flatten_message_tree (fuel : nat) (mapping : dict str node)
  : option (list Message) :=
  match find_root mapping with
  | None => Some []
  | Some root_id => walk fuel mapping (Some root_id) []
  end.

(** The fallback of [parse_chatgpt_export] over a flat ["messages"]
    array. *)
Definition flat_messages (msgs : list (option flat_message)) : list Message :=
  fold_left
    (fun acc msg =>
       match msg with
       | Some m =>
           match fm_content m with
           | Some c =>
               if content_truthy c then
                 let text := _extract_text c in
                 if nonempty (strip text) then
                   acc ++ [ {| role := get_default (fm_role m)
                                         (get_default (fm_author_role m) (lit "unknown"));
                               text := text;
                               timestamp := fm_create_time m |} ]
                 else acc
               else acc
           | None => acc
           end
       | None => acc
       end) msgs [].

(** The body of the loop over the entries: the conversation of one
    entry. *)
Definition entry_conversation (fuel : nat) (e : entry) : option Conversation :=
  let conv msgs :=
    {| id := get_default (e_id e) (get_default (e_conversation_id e) []);
       title := get_default (e_title e) (lit "Untitled");
       create_time := e_create_time e;
       update_time := e_update_time e;
       messages := msgs;
       model_slug := get_default (e_default_model_slug e) [] |} in
  match e_mapping e with
  | _ :: _ => option_map conv (_flatten_message_tree fuel (e_mapping e))
  | [] => Some (conv (flat_messages (e_messages e)))
  end.

Fixpoint collect_conversations (fuel : nat) (entries : list entry)
    (conversations : list Conversation) : option (list Conversation) :=
  match entries with
  | [] => Some conversations
  | e :: rest =>
      match entry_conversation fuel e with
      | None => None
      | Some conv =>
          collect_conversations fuel rest
            (match messages conv with
             | [] => conversations
             | _ :: _ => conversations ++ [conv]
             end)
      end
  end.

(** [parse_chatgpt_export], from the decoded [conversations.json] on. *)
Definition parse_chatgpt_export (fuel : nat) (raw_json : list entry)
  : option (list Conversation) :=
  option_map (sorted_desc (fun c => or_zero (create_time c)))
             (collect_conversations fuel raw_json []).

(* ===================================================================== *)
(** * Dates *)

(** [calendar]-style helpers of [datetime]: leap years, month lengths and
    the proleptic Gregorian ordinal of a date (1 for 0001-01-01). *)
Definition is_leap (y : Z) : bool :=
  ((y mod 4 =? 0) && (negb (y mod 100 =? 0) || (y mod 400 =? 0)))%Z.

Definition days_in_month (y m : Z) : Z :=
  (if m =? 2 then (if is_leap y then 29 else 28)
   else if (m =? 4) || (m =? 6) || (m =? 9) || (m =? 11) then 30
   else 31)%Z.

Definition days_before_year (y : Z) : Z :=
  (let y1 := y - 1 in y1 * 365 + y1 / 4 - y1 / 100 + y1 / 400)%Z.

Definition days_before_month (y m : Z) : Z :=
  fold_left Z.add
    (map (days_in_month y) (map Z.of_nat (seq 1 (Z.to_nat (m - 1))))) 0%Z.

Definition ymd2ord (y m d : Z) : Z :=
  (days_before_year y + days_before_month y m + d)%Z.

(** [datetime(y, m, d)] raises [ValueError] outside these ranges. *)
Definition valid_date (y m d : Z) : bool :=
  ((1 <=? y) && (y <=? 9999) && (1 <=? m) && (m <=? 12)
   && (1 <=? d) && (d <=? days_in_month y m))%Z.

(** Seconds from 1970-01-01T00:00:00Z to midnight UTC of a date. *)
Definition utc_midnight (y m d : Z) : Z :=
  ((ymd2ord y m d - ymd2ord 1970 1 1) * 86400)%Z.

Section Strptime.
(** The value of a Unicode decimal digit ([\d] of a [str] pattern), if
    the code point is one. *)
Variable decimal : codepoint -> option N.

Definition in_range (lo hi c : codepoint) : bool := ((lo <=? c) && (c <=? hi))%N.

(** Value of an ASCII digit already known to be in range. *)
Definition ascii_digit (c : codepoint) : N := (c - 48)%N.

(** [(?P<Y>\d\d\d\d)]. *)
Definition match_year (s : str) : option (N * str) :=
  match s with
  | a :: b :: c :: d :: rest =>
      match decimal a, decimal b, decimal c, decimal d with
      | Some a', Some b', Some c', Some d' =>
          Some ((1000 * a' + 100 * b' + 10 * c' + d')%N, rest)
      | _, _, _, _ => None
      end
  | _ => None
  end.

(** [(?P<m>1[0-2]|0[1-9]|[1-9])]: the matches of the alternatives, in the
    order in which the matcher tries them. *)
Definition match_month (s : str) : list (N * str) :=
  (match s with
   | 49 :: c :: rest =>
       if in_range 48 50 c then [(10 + ascii_digit c, rest)] else []
   | _ => []
   end ++
   match s with
   | 48 :: c :: rest =>
       if in_range 49 57 c then [(ascii_digit c, rest)] else []
   | _ => []
   end ++
   match s with
   | c :: rest => if in_range 49 57 c then [(ascii_digit c, rest)] else []
   | _ => []
   end)%N.

(** [(?P<d>3[0-1]|[1-2]\d|0[1-9]|[1-9]| [1-9])], likewise. *)
Definition match_day (s : str) : list (N * str) :=
  (match s with
   | 51 :: c :: rest =>
       if in_range 48 49 c then [(30 + ascii_digit c, rest)] else []
   | _ => []
   end ++
   match s with
   | a :: c :: rest =>
       if in_range 49 50 a then
         match decimal c with
         | Some c' => [(10 * ascii_digit a + c', rest)]
         | None => []
         end
       else []
   | _ => []
   end ++
   match s with
   | 48 :: c :: rest =>
       if in_range 49 57 c then [(ascii_digit c, rest)] else []
   | _ => []
   end ++
   match s with
   | c :: rest => if in_range 49 57 c then [(ascii_digit c, rest)] else []
   | _ => []
   end ++
   match s with
   | 32 :: c :: rest =>
       if in_range 49 57 c then [(ascii_digit c, rest)] else []
   | _ => []
   end)%N.

Definition match_dash (s : str) : option str :=
  match s with
  | 45%N :: rest => Some rest
  | _ => None
  end.

(** The match of ["%Y-%m-%d"] at the start of the string: the first
    choice of alternatives, in the matcher's order, for which the whole
    pattern matches; with it, what is left of the string. *)
Definition match_ymd (s : str) : option (N * N * N * str) :=
  match match_year s with
  | Some (y, s1) =>
      match match_dash s1 with
      | Some s2 =>
          hd_error
            (flat_map (fun '(m, s3) =>
                         match match_dash s3 with
                         | Some s4 =>
                             match match_day s4 with
                             | (d, s5) :: _ => [(y, m, d, s5)]
                             | [] => []
                             end
                         | None => []
                         end) (match_month s2))
      | None => None
      end
  | None => None
  end.

(** [datetime.strptime(s, "%Y-%m-%d")]; [None] stands for [ValueError]
    (no match, unconverted data left, or a date out of range). *)
Definition strptime_ymd (s : str) : option (Z * Z * Z) :=
  match match_ymd s with
  | Some (y, m, d, []) =>
      let '(y, m, d) := (Z.of_N y, Z.of_N m, Z.of_N d) in
      if valid_date y m d then Some (y, m, d) else None
  | _ => None
  end.

(** [_parse_date]. *)
Definition _parse_date (date_str : str) : option R :=
  match strptime_ymd (strip date_str) with
  | Some (y, m, d) => Some (IZR (utc_midnight y m d))
  | None => None
  end.
End Strptime.

(** The decimal digits of ASCII. *)
Definition ascii_decimal (c : codepoint) : option N :=
  if in_range 48%N 57%N c then Some (c - 48)%N else None.

(* ===================================================================== *)
(** * Search engine (TF-IDF + keyword) *)

(** [Counter(tokens)]: keys in the order of their first occurrence. *)
Definition counter (tokens : list str) : dict str nat :=
  fold_left
    (fun c t => dict_set str_eqb c t (dict_get_default str_eqb c t 0 + 1))
    tokens [].

(** The elements of [set(tokens)].  A set iterates in an order the
    language leaves open; that of first occurrence stands for it here.
    The loop that iterates over the set only adds one to a counter per
    element, so the order has no effect on the counts; it shows only in
    the order of the keys of [doc_freq] and [_idf], which are looked up
    and never iterated by [search]. *)
Fixpoint distinct (l : list str) : list str :=
  match l with
  | [] => []
  | x :: l' => x :: filter (fun y => negb (str_eqb x y)) (distinct l')
  end.

(** [class SearchEngine]. *)
Record SearchEngine := {
  conversations : list Conversation;
  _index : dict str (list (nat * R));    (* term -> [(conv_idx, tf)] *)
  _idf : dict str R
}.

Section Engine.
Variable lower : str -> str.
Variable decimal : codepoint -> option N.

(** First loop of [_build_index]: term frequencies per document and
    document frequencies. *)
Definition count_terms (convs : list Conversation)
  : dict str nat * list (dict str nat) :=
  fold_left
    (fun '(doc_freq, tf_per_doc) conv =>
       let tokens := _tokenize lower (full_text conv) in
       let tf := counter tokens in
       (fold_left
          (fun df term =>
             dict_set str_eqb df term (dict_get_default str_eqb df term 0 + 1))
          (distinct tokens) doc_freq,
        tf_per_doc ++ [tf]))
    convs ([], []).

(** Second loop: [_idf[term] = math.log((n_docs + 1) / (df + 1)) + 1]. *)
Definition compute_idf (n_docs : nat) (doc_freq : dict str nat) : dict str R :=
  fold_left
    (fun idf '(term, df) =>
       dict_set str_eqb idf term
         (ln (INR (n_docs + 1) / INR (df + 1)) + 1)%R)
    doc_freq [].

(** Third loop: the postings. *)
Definition compute_index (tf_per_doc : list (dict str nat))
  : dict str (list (nat * R)) :=
  fold_left
    (fun index '(idx, tf) =>
       let total_tokens :=
         let s := fold_left Nat.add (map snd tf) 0 in
         if s =? 0 then 1 else s in
       fold_left
         (fun index '(term, count) =>
            let normalized_tf := (INR count / INR total_tokens)%R in
            dict_set str_eqb index term
              (dict_get_default str_eqb index term [] ++ [(idx, normalized_tf)]))
         tf index)
    (enumerate tf_per_doc) [].

(** [SearchEngine(conversations)]: [__init__] with [_build_index]. *)
Definition _build_index (convs : list Conversation) : SearchEngine :=
  let '(doc_freq, tf_per_doc) := count_terms convs in
  {| conversations := convs;
     _index := compute_index tf_per_doc;
     _idf := compute_idf (length convs) doc_freq |}.

(** Scoring loop of [search]. *)
Definition accumulate (e : SearchEngine) (query_tokens : list str)
  : dict nat R :=
  fold_left
    (fun scores token =>
       let idf := dict_get_default str_eqb (_idf e) token 0%R in
       fold_left
         (fun scores '(idx, tf) =>
            dict_set Nat.eqb scores idx
              (dict_get_default Nat.eqb scores idx 0 + tf * idf)%R)
         (dict_get_default str_eqb (_index e) token []) scores)
    query_tokens [].

(** Boost of exact title matches. *)
Definition boost (e : SearchEngine) (query : str) (scores : dict nat R)
  : dict nat R :=
  let query_lower := lower query in
  fold_left
    (fun scores '(idx, conv) =>
       if str_in query_lower (lower (title conv)) then
         dict_set Nat.eqb scores idx
           (dict_get_default Nat.eqb scores idx 0 * 2)%R
       else scores)
    (enumerate (conversations e)) scores.

(** [_parse_date(d) if d else None]. *)
Definition date_bound (d : option str) : option R :=
  match d with
  | Some s => if nonempty s then _parse_date decimal s else None
  | None => None
  end.

(** [ts_from and ts < ts_from]: a bound that is [None] or zero is
    false. *)
Definition before_from (ts_from : option R) (ts : R) : bool :=
  match ts_from with
  | Some b => Rtruthy b && Rltb ts b
  | None => false
  end.

(** [ts_to and ts > ts_to]. *)
Definition after_to (ts_to : option R) (ts : R) : bool :=
  match ts_to with
  | Some b => Rtruthy b && Rltb b ts
  | None => false
  end.

(** The loop over the ranked scores: date filters, then the limit.
    [None] stands for the [IndexError] of [self.conversations[idx]]. *)
Fixpoint collect_results (convs : list Conversation)
    (ts_from ts_to : option R) (limit : Z)
    (items : list (nat * R)) (results : list (Conversation * R))
  : option (list (Conversation * R)) :=
  match items with
  | [] => Some results
  | (idx, score) :: rest =>
      match nth_error convs idx with
      | None => None
      | Some conv =>
          let ts := or_zero (create_time conv) in
          if before_from ts_from ts then
            collect_results convs ts_from ts_to limit rest results
          else if after_to ts_to ts then
            collect_results convs ts_from ts_to limit rest results
          else
            let results' := results ++ [(conv, score)] in
            if (limit <=? Z.of_nat (length results'))%Z then Some results'
            else collect_results convs ts_from ts_to limit rest results'
      end
  end.

(** [SearchEngine.search]. *)
Definition search (e : SearchEngine) (query : str) (limit : Z)
    (date_from date_to : option str) : option (list (Conversation * R)) :=
  let query_tokens := _tokenize lower query in
  match query_tokens with
  | [] => Some []
  | _ :: _ =>
      let scores := boost e query (accumulate e query_tokens) in
      collect_results (conversations e)
        (date_bound date_from) (date_bound date_to) limit
        (sorted_desc snd scores) []
  end.
End Engine.

(* ===================================================================== *)
(** * Listing *)

(** What [chatgpt_list_conversations] puts into its text: either the
    notice that nothing is loaded, or the bounds, the total and the page. *)
Inductive listing :=
| NoConversationsLoaded
| Listing (start end_ total : nat) (page : list Conversation) (has_more : bool).

(** [chatgpt_list_conversations]; [offset] and [limit] are validated by
    [ListInput] ([offset >= 0], [limit >= 1]). *)
Definition chatgpt_list_conversations (_conversations : list Conversation)
    (offset limit : nat) : listing :=
  match _conversations with
  | [] => NoConversationsLoaded
  | _ :: _ =>
      let total := length _conversations in
      let start := Nat.min offset total in
      let end_ := Nat.min (start + limit) total in
      let page := slice _conversations start end_ in
      Listing start end_ total page (end_ <? total)
  end.

(** The conversations a listing shows. *)
Definition listed (l : listing) : list Conversation :=
  match l with
  | NoConversationsLoaded => []
  | Listing _ _ _ page _ => page
  end.

(** The total a listing reports, if it reports one. *)
Definition reported_total (l : listing) : option nat :=
  match l with
  | NoConversationsLoaded => None
  | Listing _ _ total _ _ => Some total
  end.

(* ===================================================================== *)
(** * Specification of the tokenizer *)

(** [runs s ts]: [ts] are the maximal runs of token characters of [s], in
    order.  Each run is not empty, holds token characters only, and ends
    at a character that is not one or at the end of [s]; every other
    character separates. *)
Inductive runs : str -> list str -> Prop :=
| runs_end : runs [] []
| runs_sep c s ts :
    is_token_char c = false -> runs s ts -> runs (c :: s) ts
| runs_last r :
    r <> [] -> forallb is_token_char r = true -> runs r [r]
| runs_run r c s ts :
    r <> [] -> forallb is_token_char r = true ->
    is_token_char c = false -> runs s ts -> runs (r ++ c :: s) (r :: ts).

(* ===================================================================== *)
(** * Specification of the flattener *)

(** [mapping.get(cid, {})]. *)
Definition lookup_node (m : dict str node) (cid : str) : node :=
  dict_get_default str_eqb m cid empty_node.

(** The first listed child of a node, if it has children. *)
Definition first_child (m : dict str node) (cid : str) : option str :=
  hd_error (children (lookup_node m cid)).

(** [descends m cid p]: [p] is the path that starts at [cid] and descends
    into the first listed child at each step, stopping when a node has no
    children. *)
Inductive descends (m : dict str node) : str -> list str -> Prop :=
| descends_leaf cid :
    first_child m cid = None -> descends m cid [cid]
| descends_child cid c p :
    first_child m cid = Some c -> descends m c p ->
    descends m cid (cid :: p).

(** [walked m cur p]: the same path, which ends also in front of a node
    whose id is the empty string. *)
Inductive walked (m : dict str node) : option str -> list str -> Prop :=
| walked_none : walked m None []
| walked_empty_id : walked m (Some []) []
| walked_node cid p :
    cid <> [] -> walked m (first_child m cid) p ->
    walked m (Some cid) (cid :: p).

(** Empty or whitespace only. *)
Definition blank (s : str) : bool := forallb is_space s.

(** The text extracted from the content of a message; none without
    content. *)
Definition extracted_text (md : raw_message) : str :=
  match content md with
  | Some c => _extract_text c
  | None => []
  end.

(** What a node on the path emits: one [Message] if its author role is
    one of user, assistant, system, tool and its extracted text is not
    blank. *)
Definition emitted (n : node) : list Message :=
  match message n with
  | Some md =>
      let author := get_default (author_role md) (lit "unknown") in
      if is_known_role author && negb (blank (extracted_text md)) then
        [ {| role := author; text := extracted_text md;
             timestamp := msg_create_time md |} ]
      else []
  | None => []
  end.

Definition messages_along (m : dict str node) (p : list str) : list Message :=
  flat_map (fun cid => emitted (lookup_node m cid)) p.

(** A graph in which the id of a node on the path from the root is the
    empty string. *)
Definition empty_id_mapping : dict str node :=
  [ (lit "r", {| parent := None; children := [ [] ]; message := None |});
    ([], {| parent := Some (lit "r"); children := [];
            message := Some {| author_role := Some (lit "user");
                               content := Some (CStr (lit "hi"));
                               msg_create_time := None |} |}) ].

(** A graph with a regenerated answer: [a] has the children [b; c]. *)
Definition branching_mapping : dict str node :=
  let msg r t := Some {| author_role := Some r; content := Some (CObj [PStr t]);
                         msg_create_time := None |} in
  [ (lit "a", {| parent := None; children := [lit "b"; lit "c"];
                 message := msg (lit "user") (lit "question") |});
    (lit "b", {| parent := Some (lit "a"); children := [];
                 message := msg (lit "assistant") (lit "first answer") |});
    (lit "c", {| parent := Some (lit "a"); children := [];
                 message := msg (lit "assistant") (lit "second answer") |}) ].

(** An entry with a flat ["messages"] array whose only message has no
    role. *)
Definition roleless_entry : entry :=
  {| e_id := Some (lit "c1"); e_conversation_id := None;
     e_title := Some (lit "t"); e_create_time := None; e_update_time := None;
     e_default_model_slug := None; e_mapping := [];
     e_messages := [ Some {| fm_role := None; fm_author_role := None;
                             fm_content := Some (CStr (lit "hi"));
                             fm_create_time := None |} ] |}.

(* ===================================================================== *)
(** * Specification of the index *)

Section IndexSpec.
Variable lower : str -> str.

(** The tokens of the combined document of a conversation. *)
Definition doc_tokens (c : Conversation) : list str :=
  _tokenize lower (full_text c).

(** The conversation contains the term. *)
Definition has_term (t : str) (c : Conversation) : bool :=
  existsb (str_eqb t) (doc_tokens c).

(** [df(term)]: the number of conversations that contain the term. *)
Definition doc_frequency (t : str) (convs : list Conversation) : nat :=
  length (filter (has_term t) convs).

(** The positions, in the collection, of the conversations that satisfy
    [f], in ascending order. *)
Definition positions (f : Conversation -> bool) (convs : list Conversation)
  : list nat :=
  flat_map (fun '(i, c) => if f c then [i] else []) (enumerate convs).

(** The number of query tokens in front of the first one that the
    conversation contains; the number of tokens if it contains none. *)
Fixpoint first_match (tokens : list str) (c : Conversation) : nat :=
  match tokens with
  | [] => 0
  | t :: ts => if has_term t c then 0 else S (first_match ts c)
  end.
End IndexSpec.

(** [ln((N + 1) / (df + 1)) + 1]. *)
Definition idf_formula (n_docs df : nat) : R :=
  (ln (INR (n_docs + 1) / INR (df + 1)) + 1)%R.

(** Adding the keys [js] to the keys [ks] of a dict, one after the other:
    a key that is present stays where it is, a new one goes to the end. *)
Definition add_new (ks js : list nat) : list nat :=
  fold_left (fun ks i => if existsb (Nat.eqb i) ks then ks else ks ++ [i]) js ks.

(* ===================================================================== *)
(** * Specification of the ranking *)

Section RankingSpec.
Variable lower : str -> str.

(** The rank of a position of the collection for a query: the number of
    query tokens in front of the first one its conversation contains. *)
Definition rank (tokens : list str) (convs : list Conversation) (i : nat) : nat :=
  match nth_error convs i with
  | Some c => first_match lower tokens c
  | None => 0
  end.

(** The order of conversations of equal score: by rank, then by
    position in the collection. *)
Definition tie_order (tokens : list str) (convs : list Conversation)
    (i j : nat) : Prop :=
  rank tokens convs i < rank tokens convs j
  \/ (rank tokens convs i = rank tokens convs j /\ i < j).

(** The title of the conversation contains the query, both in lower
    case. *)
Definition title_match (query : str) (c : Conversation) : bool :=
  str_in (lower query) (lower (title c)).
End RankingSpec.

Definition no_conversation : Conversation :=
  {| id := []; title := []; create_time := None; update_time := None;
     messages := []; model_slug := [] |}.

(** [convs[i]] for a position of the collection. *)
Definition conv_at (convs : list Conversation) (i : nat) : Conversation :=
  nth i convs no_conversation.

(** Neither date filter of [search] skips the conversation. *)
Definition passes_dates (ts_from ts_to : option R) (c : Conversation) : bool :=
  negb (before_from ts_from (or_zero (create_time c)))
  && negb (after_to ts_to (or_zero (create_time c))).

(** The number of results at which the loop of [search] stops: the
    length is compared with [limit] after a result is appended. *)
Definition result_limit (limit : Z) : nat := Z.to_nat (Z.max 1 limit).

Section SearchSpec.
Variable lower : str -> str.
Variable decimal : codepoint -> option N.

(** The score table of a query over the index of a collection: the
    accumulated scores, boosted. *)
Definition score_table (convs : list Conversation) (query : str) : dict nat R :=
  boost lower (_build_index lower convs) query
    (accumulate (_build_index lower convs) (_tokenize lower query)).

(** The ranked scores that pass the date filters, before the limit. *)
Definition ranked_in_dates (convs : list Conversation) (query : str)
    (date_from date_to : option str) : list (nat * R) :=
  filter (fun p => passes_dates (date_bound decimal date_from)
                                (date_bound decimal date_to)
                                (conv_at convs (fst p)))
         (sorted_desc snd (score_table convs query)).
End SearchSpec.

(** A result of [search] from a position of the collection and its
    score. *)
Definition result_at (convs : list Conversation) (p : nat * R)
  : Conversation * R :=
  (conv_at convs (fst p), snd p).

(* ===================================================================== *)
(** * Worked collections *)

(** A conversation of one user message. *)
Definition one_message (i t : str) (created : option R) (m : str) : Conversation :=
  {| id := i; title := t; create_time := created; update_time := None;
     messages := [ {| role := lit "user"; text := m; timestamp := None |} ];
     model_slug := [] |}.

(** Two conversations, the newer one first; each holds one of the words
    [a] and [b], and both hold [z]. *)
Definition conv_b : Conversation :=
  one_message (lit "1") (lit "b") (Some 2%R) (lit "z").
Definition conv_a : Conversation :=
  one_message (lit "2") (lit "a") (Some 1%R) (lit "z").
Definition tie_collection : list Conversation := [conv_b; conv_a].

(** The export from which [tie_collection] is parsed, oldest entry
    first. *)
Definition flat_entry (i t : str) (created : option R) (m : str) : entry :=
  {| e_id := Some i; e_conversation_id := None; e_title := Some t;
     e_create_time := created; e_update_time := None;
     e_default_model_slug := None; e_mapping := [];
     e_messages := [ Some {| fm_role := Some (lit "user"); fm_author_role := None;
                             fm_content := Some (CStr m);
                             fm_create_time := None |} ] |}.

Definition tie_export : list entry :=
  [ flat_entry (lit "2") (lit "a") (Some 1%R) (lit "z");
    flat_entry (lit "1") (lit "b") (Some 2%R) (lit "z") ].

(** An export whose first entry has no [create_time] and whose second
    was created one second before the epoch, and the conversations of
    its entries. *)
Definition conv_undated : Conversation :=
  one_message (lit "7") (lit "u") None (lit "z").
Definition conv_early : Conversation :=
  one_message (lit "8") (lit "e") (Some (-1)%R) (lit "z").
Definition undated_export : list entry :=
  [ flat_entry (lit "7") (lit "u") None (lit "z");
    flat_entry (lit "8") (lit "e") (Some (-1)%R) (lit "z") ].

(** A conversation whose title holds the query [a] inside the word [ab],
    ahead of one that holds the word [a]. *)
Definition conv_ab : Conversation :=
  one_message (lit "3") (lit "ab") (Some 3%R) (lit "z").
Definition prefix_collection : list Conversation := [conv_ab; conv_a].

(** A conversation created on 2023-11-14. *)
Definition conv_2023 : Conversation :=
  one_message (lit "4") (lit "a") (Some 1700000000%R) (lit "z").

(** Five conversations. *)
Definition five_conversations : list Conversation :=
  map (fun n => one_message [n] [n] None [n]) [48; 49; 50; 51; 52]%N.

(** The walk from the root of the mapping ends. *)
Definition finite_walk (m : dict str node) : Prop :=
  forall root, find_root m = Some root -> exists p, walked m (Some root) p.

(* ===================================================================== *)
(** * Specification of the scores *)

(** The number of occurrences of a term among tokens. *)
Definition occurrences (t : str) (tokens : list str) : nat :=
  length (filter (str_eqb t) tokens).

Section ScoreSpec.
Variable lower : str -> str.

(** [tf(term, doc)]: the occurrences of the term in the combined document
    of the conversation over the number of its tokens. *)
Definition tf_value (t : str) (c : Conversation) : R :=
  (INR (occurrences t (doc_tokens lower c)) / INR (length (doc_tokens lower c)))%R.

(** The TF-IDF sum of a conversation for the tokens of a query, each
    token counted as often as the query holds it. *)
Fixpoint tf_idf (convs : list Conversation) (tokens : list str)
    (c : Conversation) : R :=
  match tokens with
  | [] => 0%R
  | t :: ts =>
      (tf_idf convs ts c
       + tf_value t c
         * idf_formula (length convs) (doc_frequency lower t convs))%R
  end.

(** The postings of a term as the third loop of [_build_index] leaves
    them: one pair per conversation that contains the term, in the order
    of the collection. *)
Definition postings_of (t : str) (convs : list Conversation) : list (nat * R) :=
  flat_map (fun '(i, c) => if has_term lower t c then [(i, tf_value t c)] else [])
           (enumerate convs).
End ScoreSpec.

(** What the postings [ps] of a term of inverse document frequency [idf]
    add to the score of the position [idx]. *)
Definition posting_sum (idx : nat) (idf : R) (ps : list (nat * R)) : R :=
  fold_right (fun '(i, tf) acc => ((if i =? idx then tf * idf else 0) + acc)%R)
             0%R ps.

Section MatchSpec.
Variable lower : str -> str.

(** The conversation contains a token of the query. *)
Definition contains_token (tokens : list str) (c : Conversation) : bool :=
  existsb (fun t => has_term lower t c) tokens.
End MatchSpec.

(* ===================================================================== *)
(** * Specification of the collection *)

(** The conversation has a message: [if conv.messages]. *)
Definition has_messages (c : Conversation) : bool :=
  match messages c with [] => false | _ :: _ => true end.

(** Equality of floats, as a boolean. *)
Definition Reqb (x y : R) : bool := if Req_dec_T x y then true else false.

(** Every node of the mapping has a parent that is a key of the
    mapping. *)
Definition rootless (m : dict str node) : Prop :=
  Forall (fun kv => exists p, parent (snd kv) = Some p
                              /\ dict_mem str_eqb m p = true) m.

(** A conversation created at the same time as [conv_a], its entry
    behind that of [conv_a] in the export [same_time_export]. *)
Definition conv_c : Conversation :=
  one_message (lit "6") (lit "c") (Some 1%R) (lit "z").
Definition same_time_export : list entry :=
  [ flat_entry (lit "2") (lit "a") (Some 1%R) (lit "z");
    flat_entry (lit "6") (lit "c") (Some 1%R) (lit "z") ].

(** Two nodes, each the parent of the other, both with a message. *)
Definition two_cycle_mapping : dict str node :=
  let msg t := Some {| author_role := Some (lit "user");
                       content := Some (CStr t); msg_create_time := None |} in
  [ (lit "a", {| parent := Some (lit "b"); children := [lit "b"];
                 message := msg (lit "one") |});
    (lit "b", {| parent := Some (lit "a"); children := [lit "a"];
                 message := msg (lit "two") |}) ].

(** An entry with that mapping and a flat message besides. *)
Definition two_cycle_entry : entry :=
  {| e_id := Some (lit "c2"); e_conversation_id := None;
     e_title := Some (lit "t"); e_create_time := None; e_update_time := None;
     e_default_model_slug := None; e_mapping := two_cycle_mapping;
     e_messages := [ Some {| fm_role := Some (lit "user"); fm_author_role := None;
                             fm_content := Some (CStr (lit "hi"));
                             fm_create_time := None |} ] |}.

(* ===================================================================== *)
(** * Previews, lookups and views *)

(** [Conversation.preview(max_chars)]; the ellipsis is U+2026. *)
Definition preview (c : Conversation) (max_chars : nat) : str :=
  let user_msgs :=
    map text (filter (fun m => str_eqb (role m) (lit "user")) (messages c)) in
  let preview_text := join (lit " | ") user_msgs in
  if max_chars <? length preview_text then
    firstn max_chars preview_text ++ [8230%N]
  else preview_text.

(** [_find_conversation]. *)
Definition _find_conversation (_conversations : list Conversation)
    (conv_id : str) : option Conversation :=
  find (fun conv => str_eqb (id conv) conv_id) _conversations.

(** What [chatgpt_get_conversation] puts into its text: the notice that
    the id is unknown, or the conversation, the messages it shows and the
    number of those it leaves out. *)
Inductive conversation_view :=
| ConversationNotFound
| ConversationView (conv : Conversation) (shown : list Message) (truncated : Z).

(** [chatgpt_get_conversation]; [max_messages] is validated by
    [GetConversationInput] ([max_messages >= 1] when given). *)
Definition chatgpt_get_conversation (_conversations : list Conversation)
    (conversation_id : str) (max_messages : option nat) : conversation_view :=
  match _find_conversation _conversations conversation_id with
  | None => ConversationNotFound
  | Some conv =>
      let msgs :=
        match max_messages with
        | Some (S n) => firstn (S n) (messages conv)
        | Some O => messages conv
        | None => messages conv
        end in
      ConversationView conv msgs
        (Z.of_nat (length (messages conv)) - Z.of_nat (length msgs))
  end.

(* ===================================================================== *)
(** * Walks that come back *)

(** [follows m k cid cid']: [k] steps of the walk, each from a node whose
    id is not empty to its first listed child, lead from [cid] to
    [cid']. *)
Inductive follows (m : dict str node) : nat -> str -> str -> Prop :=
| follows_here cid : follows m 0 cid cid
| follows_step k cid c cid' :
    cid <> [] -> first_child m cid = Some c -> follows m k c cid' ->
    follows m (S k) cid cid'.

(** A root whose only child lists itself as its first child. *)
Definition self_loop_mapping : dict str node :=
  [ (lit "r", {| parent := None; children := [lit "a"]; message := None |});
    (lit "a", {| parent := Some (lit "r"); children := [lit "a"; lit "b"];
                 message := Some {| author_role := Some (lit "user");
                                    content := Some (CStr (lit "hi"));
                                    msg_create_time := None |} |});
    (lit "b", {| parent := Some (lit "a"); children := [];
                 message := None |}) ].

(* ===================================================================== *)
(** * Written dates *)

(** The ASCII digit of a value below ten. *)
Definition digit_char (n : N) : codepoint := (48 + n)%N.

(** A year in four digits. *)
Definition four_digits (y : N) : str :=
  [digit_char (y / 1000); digit_char (y / 100 mod 10);
   digit_char (y / 10 mod 10); digit_char (y mod 10)]%N.

(** A month or a day: in two digits, or in one when it is below ten and
    not padded. *)
Definition two_digits (padded : bool) (n : N) : str :=
  (if (n <? 10) && negb padded then [digit_char n]
   else [digit_char (n / 10); digit_char (n mod 10)])%N.

(** A date written as year, month and day with [-] between them. *)
Definition written_date (pad_m pad_d : bool) (y m d : N) : str :=
  four_digits y ++ [45%N] ++ two_digits pad_m m ++ [45%N] ++ two_digits pad_d d.

(* ===================================================================== *)
(** * Usage statistics *)

(** [Conversation.message_count]. *)
Definition message_count (c : Conversation) : nat := length (messages c).

(** [c.model_slug or "unknown"]. *)
Definition slug_or_unknown (c : Conversation) : str :=
  if nonempty (model_slug c) then model_slug c else lit "unknown".

(** The loop [model_counts[c.model_slug or "unknown"] += 1] over the
    collection. *)
Definition model_counts (convs : list Conversation) : dict str nat :=
  fold_left
    (fun counts c =>
       dict_set str_eqb counts (slug_or_unknown c)
         (dict_get_default str_eqb counts (slug_or_unknown c) 0 + 1))
    convs [].

(** [Counter.most_common(n)]: the [n] largest counts, equal counts in the
    order in which their keys were first met. *)
Definition most_common (n : nat) (counts : dict str nat) : list (str * nat) :=
  firstn n (sorted_desc (fun kv => INR (snd kv)) counts).

(** [min(l)] and [max(l)] of a list of floats that is not empty. *)
Definition list_min (l : list R) : option R :=
  match l with
  | [] => None
  | x :: l' => Some (fold_left (fun cur item => if Rltb item cur then item else cur) l' x)
  end.

Definition list_max (l : list R) : option R :=
  match l with
  | [] => None
  | x :: l' => Some (fold_left (fun cur item => if Rltb cur item then item else cur) l' x)
  end.

(** [[c.create_time for c in _conversations if c.create_time]]. *)
Definition truthy_create_times (convs : list Conversation) : list R :=
  flat_map (fun c => match create_time c with
                     | Some t => if Rtruthy t then [t] else []
                     | None => []
                     end) convs.

(** What [chatgpt_stats] prints, before it is formatted: the notice for
    an empty collection, or the totals, the timestamps of the date range
    (absent where it prints ["unknown"]) and the lines of the model
    usage.  The monthly activity, which needs the calendar month of a
    timestamp, is left out. *)
Inductive statistics :=
| NoStatistics
| Statistics (total_convs total_msgs : nat) (earliest latest : option R)
             (model_usage : list (str * nat)).

(** [chatgpt_stats]. *)
Definition chatgpt_stats (_conversations : list Conversation) : statistics :=
  match _conversations with
  | [] => NoStatistics
  | _ :: _ =>
      let total_convs := length _conversations in
      let total_msgs := list_sum (map message_count _conversations) in
      let dates := truthy_create_times _conversations in
      Statistics total_convs total_msgs (list_min dates) (list_max dates)
                 (most_common 10 (model_counts _conversations))
  end.

(** The number of conversations counted under a model. *)
Definition conversations_with_model (k : str) (convs : list Conversation) : nat :=
  length (filter (fun c => str_eqb k (slug_or_unknown c)) convs).

(* ===================================================================== *)
(** * Installer: the configuration of Claude Desktop *)

(** A decoded JSON value; an object keeps its members in their order. *)
#[warnings="-register-all"]
Inductive json :=
| JNull
| JBool (b : bool)
| JNumber (x : R)
| JString (s : str)
| JArray (items : list json)
| JObject (members : list (str * json)).

Definition REPO : str := lit "git+https://github.com/Lioneltristan/chatgpfree".
Definition PACKAGE : str := lit "chatgpt-history-mcp".
Definition SERVER_NAME : str := lit "ChatGPT history".

(** The entry of the server in ["mcpServers"]. *)
Definition server_entry (stored_path uvx_path : str) : json :=
  JObject
    [ (lit "command", JString uvx_path);
      (lit "args",
       JArray [ JString (lit "--from"); JString REPO; JString PACKAGE;
                JString (lit "--export-path"); JString stored_path ]) ].

(** [write_config], from the decoded content of the config file to the
    value it writes back.  [existing] is absent when there is no file
    or when the file does not decode; [None] as a result stands for the
    exception raised on a config, or on an ["mcpServers"] member, that
    is not an object. *)
Definition write_config (existing : option json)
    (stored_path uvx_path : str) : option json :=
  let config := match existing with Some c => c | None => JObject [] end in
  match config with
  | JObject members =>
      (* config.setdefault("mcpServers", {}) *)
      let members :=
        if dict_mem str_eqb members (lit "mcpServers") then members
        else dict_set str_eqb members (lit "mcpServers") (JObject []) in
      match dict_get str_eqb members (lit "mcpServers") with
      | Some (JObject servers) =>
          Some (JObject
                  (dict_set str_eqb members (lit "mcpServers")
                     (JObject (dict_set str_eqb servers SERVER_NAME
                                 (server_entry stored_path uvx_path)))))
      | _ => None
      end
  | _ => None
  end.

(** The members of a config that is an object. *)
Definition config_members (c : option json) : option (list (str * json)) :=
  match c with
  | None => Some []
  | Some (JObject members) => Some members
  | Some _ => None
  end.

(** The servers of a config: none when it has no ["mcpServers"]. *)
Definition config_servers (members : list (str * json))
  : option (list (str * json)) :=
  match dict_get str_eqb members (lit "mcpServers") with
  | None => Some []
  | Some (JObject servers) => Some servers
  | Some _ => None
  end.

(* ===================================================================== *)
(** * Proofs *)

(** * Strings *)

Lemma str_eqb_eq a b : str_eqb a b = true <-> a = b.
Proof.
  revert b; induction a as [|x a IH]; intros [|y b]; simpl; split;
    try congruence; auto.
  - rewrite andb_true_iff, N.eqb_eq, IH. intros [-> ->]; reflexivity.
  - intros [= -> ->]. rewrite N.eqb_refl. simpl. apply IH; reflexivity.
Qed.

Lemma str_eqb_refl a : str_eqb a a = true.
Proof. apply str_eqb_eq; reflexivity. Qed.

Lemma str_eqb_neq a b : str_eqb a b = false <-> a <> b.
Proof.
  rewrite <- str_eqb_eq. destruct (str_eqb a b); split; congruence.
Qed.

Lemma is_prefix_spec b a : is_prefix b a = true <-> exists post, a = b ++ post.
Proof.
  revert a; induction b as [|x b IH]; intros a; simpl.
  - split; [intros _; now exists a|reflexivity].
  - destruct a as [|y a]; [split; [discriminate|intros [post H]; discriminate]|].
    rewrite andb_true_iff, N.eqb_eq, IH. split.
    + intros [-> [post ->]]. now exists post.
    + intros [post [= -> ->]]. split; [reflexivity|now exists post].
Qed.

(** [needle in hay] holds exactly when [hay] is [needle] between two
    strings. *)
Lemma str_in_spec needle hay :
  str_in needle hay = true <-> exists pre post, hay = pre ++ needle ++ post.
Proof.
  induction hay as [|c hay IH]; simpl.
  - rewrite orb_false_r, is_prefix_spec. split.
    + intros [post H]. now exists [], post.
    + intros [pre [post H]]. destruct pre; [now exists post|discriminate].
  - rewrite orb_true_iff, is_prefix_spec, IH. split.
    + intros [[post H]|[pre [post H]]].
      * now exists [], post.
      * exists (c :: pre), post. now rewrite H.
    + intros [pre [post H]]. destruct pre as [|x pre].
      * left. now exists post.
      * right. injection H as _ H. now exists pre, post.
Qed.

Lemma lstrip_nil_iff s : lstrip s = [] <-> forallb is_space s = true.
Proof.
  induction s as [|c s IH]; simpl; [tauto|].
  destruct (is_space c); simpl; [exact IH|]. split; discriminate.
Qed.

Lemma lstrip_spaces s : forallb is_space (lstrip s) = forallb is_space s.
Proof.
  induction s as [|c s IH]; simpl; [reflexivity|].
  destruct (is_space c) eqn:E; simpl; [exact IH|]. rewrite E; reflexivity.
Qed.

Lemma forallb_rev {A} (f : A -> bool) l : forallb f (rev l) = forallb f l.
Proof.
  induction l as [|x l IH]; simpl; [reflexivity|].
  rewrite forallb_app, IH. simpl. rewrite andb_true_r. apply andb_comm.
Qed.

(** [s.strip()] is empty exactly when [s] is empty or whitespace only. *)
Lemma strip_nonempty s : nonempty (strip s) = negb (forallb is_space s).
Proof.
  unfold strip. destruct (forallb is_space s) eqn:E.
  - apply lstrip_nil_iff in E. rewrite E. reflexivity.
  - destruct (rev (lstrip (rev (lstrip s)))) eqn:R; simpl; [|reflexivity].
    exfalso. apply (f_equal (@rev _)) in R. rewrite rev_involutive in R.
    simpl in R. apply lstrip_nil_iff in R.
    rewrite forallb_rev, lstrip_spaces in R. congruence.
Qed.

(** * Tokenizer *)

Lemma findall_runs_spec s :
  forall cur, forallb is_token_char cur = true ->
    runs (cur ++ s) (findall_runs cur s).
Proof.
  induction s as [|c s IH]; intros cur Hcur; simpl.
  - rewrite app_nil_r. destruct cur; simpl; constructor; [discriminate|assumption].
  - destruct (is_token_char c) eqn:Hc.
    + replace (cur ++ c :: s) with ((cur ++ [c]) ++ s)
        by (rewrite <- app_assoc; reflexivity).
      apply IH. rewrite forallb_app, Hcur; simpl. now rewrite Hc.
    + destruct cur as [|x cur]; simpl.
      * apply runs_sep; [assumption|]. apply (IH []); reflexivity.
      * apply (runs_run (x :: cur)); auto; [discriminate|].
        apply (IH []); reflexivity.
Qed.

Lemma findall_runs_token r :
  forall cur, forallb is_token_char r = true ->
    findall_runs cur r = if nonempty (cur ++ r) then [cur ++ r] else [].
Proof.
  induction r as [|c r IH]; intros cur H; simpl.
  - rewrite app_nil_r. reflexivity.
  - simpl in H. apply andb_true_iff in H as [Hc Hr]. rewrite Hc.
    rewrite IH by assumption. rewrite <- app_assoc. reflexivity.
Qed.

Lemma findall_runs_step r c s :
  forall cur, forallb is_token_char r = true -> is_token_char c = false ->
    findall_runs cur (r ++ c :: s) =
    if nonempty (cur ++ r) then (cur ++ r) :: findall_runs [] s
    else findall_runs [] s.
Proof.
  induction r as [|x r IH]; intros cur H Hc; simpl.
  - rewrite Hc, app_nil_r. reflexivity.
  - simpl in H. apply andb_true_iff in H as [Hx Hr]. rewrite Hx.
    rewrite IH by assumption. rewrite <- app_assoc. reflexivity.
Qed.

Lemma runs_findall s ts : runs s ts -> ts = findall_runs [] s.
Proof.
  induction 1 as [|c s ts Hc _ IH|r Hr Hall|r c s ts Hr Hall Hc _ IH].
  - reflexivity.
  - simpl. rewrite Hc. exact IH.
  - rewrite findall_runs_token by assumption. destruct r; [contradiction|reflexivity].
  - rewrite findall_runs_step by assumption. destruct r; [contradiction|].
    simpl. now rewrite IH.
Qed.

(** C4 (as amended): the tokens of a text are exactly the maximal runs of
    the characters [a-z0-9] of the text in lower case, in order; every
    other character of the lowered text only separates.  The tokens of
    ["Hello, World! 42"] are [hello], [world] and [42]; the empty string
    has none. *)
Theorem tokenize_maximal_runs (lower : str -> str) (text : str) :
  (forall ts, runs (lower text) ts <-> ts = _tokenize lower text)
  /\ _tokenize str_lower (lit "Hello, World! 42")
     = [lit "hello"; lit "world"; lit "42"]
  /\ _tokenize str_lower (lit "") = [].
Proof.
  split; [|split; reflexivity].
  intros ts; split.
  - apply runs_findall.
  - intros ->. apply (findall_runs_spec (lower text) []); reflexivity.
Qed.

(** C4 (as stated) fails on characters above ASCII whose lower-case form
    has an ASCII letter: U+212A KELVIN SIGN alone gives the token [k]. *)
Lemma tokenize_kelvin_sign :
  (128 <= 8490)%N /\ _tokenize str_lower [8490%N] = [lit "k"].
Proof. split; [discriminate | reflexivity]. Qed.

(* ===================================================================== *)
(** * Dictionaries *)

Section DictFacts.
Context {K V : Type}.
Variable eqb : K -> K -> bool.
Hypothesis eqb_eq : forall a b, eqb a b = true <-> a = b.

Lemma eqb_refl_K k : eqb k k = true.
Proof. apply eqb_eq; reflexivity. Qed.

Lemma eqb_neq_K a b : a <> b -> eqb a b = false.
Proof.
  intros H. destruct (eqb a b) eqn:E; [|reflexivity].
  apply eqb_eq in E. contradiction.
Qed.

Lemma dict_get_set_eq (d : dict K V) k v :
  dict_get eqb (dict_set eqb d k v) k = Some v.
Proof.
  induction d as [|[k' v'] d IH]; simpl.
  - now rewrite eqb_refl_K.
  - destruct (eqb k k') eqn:E; simpl; rewrite E; [reflexivity|exact IH].
Qed.

Lemma dict_get_set_neq (d : dict K V) k k' v :
  k <> k' -> dict_get eqb (dict_set eqb d k v) k' = dict_get eqb d k'.
Proof.
  intros Hne. induction d as [|[k0 v0] d IH]; simpl.
  - rewrite eqb_neq_K; [reflexivity|congruence].
  - destruct (eqb k k0) eqn:E; simpl.
    + apply eqb_eq in E; subst k0. rewrite eqb_neq_K; [reflexivity|congruence].
    + now rewrite IH.
Qed.

Lemma dict_get_None (d : dict K V) k :
  dict_get eqb d k = None <-> ~ In k (map fst d).
Proof.
  induction d as [|[k' v'] d IH]; simpl; [tauto|].
  destruct (eqb k k') eqn:E.
  - apply eqb_eq in E; subst. split; [discriminate|tauto].
  - rewrite IH. split; [|tauto].
    intros H [<-|H']; [|tauto]. now rewrite eqb_refl_K in E.
Qed.

Lemma dict_get_Some_In (d : dict K V) k v :
  dict_get eqb d k = Some v -> In (k, v) d.
Proof.
  induction d as [|[k' v'] d IH]; simpl; [discriminate|].
  destruct (eqb k k') eqn:E.
  - apply eqb_eq in E; subst. intros [= ->]. now left.
  - intros H; right; auto.
Qed.

Lemma dict_In_get (d : dict K V) k v :
  NoDup (map fst d) -> In (k, v) d -> dict_get eqb d k = Some v.
Proof.
  induction d as [|[k' v'] d IH]; simpl; [tauto|].
  intros Hnd [[= -> ->]|Hin].
  - now rewrite eqb_refl_K.
  - inversion Hnd as [|? ? Hnot Hnd']; subst.
    rewrite eqb_neq_K; [auto|].
    intros ->. apply Hnot. now apply (in_map fst) in Hin.
Qed.

Lemma dict_mem_In (d : dict K V) k :
  dict_mem eqb d k = true <-> In k (map fst d).
Proof.
  unfold dict_mem. destruct (dict_get eqb d k) eqn:E.
  - split; [intros _|reflexivity].
    apply dict_get_Some_In in E. now apply (in_map fst) in E.
  - apply dict_get_None in E. split; [discriminate|contradiction].
Qed.

(** Setting a key that is absent appends it. *)
Lemma dict_set_new (d : dict K V) k v :
  dict_get eqb d k = None -> dict_set eqb d k v = d ++ [(k, v)].
Proof.
  induction d as [|[k' v'] d IH]; simpl; [reflexivity|].
  destruct (eqb k k'); [discriminate|]. intros H. now rewrite IH.
Qed.

(** Setting a key that is present keeps the keys as they are. *)
Lemma dict_set_keys_old (d : dict K V) k v :
  dict_get eqb d k <> None -> map fst (dict_set eqb d k v) = map fst d.
Proof.
  induction d as [|[k' v'] d IH]; simpl; [congruence|].
  destruct (eqb k k') eqn:E; simpl; [reflexivity|].
  intros H. now rewrite IH.
Qed.

Lemma dict_set_keys (d : dict K V) k v :
  map fst (dict_set eqb d k v) =
  if dict_mem eqb d k then map fst d else map fst d ++ [k].
Proof.
  unfold dict_mem. destruct (dict_get eqb d k) eqn:E.
  - apply dict_set_keys_old. congruence.
  - rewrite dict_set_new by assumption. now rewrite map_app.
Qed.

Lemma dict_set_NoDup (d : dict K V) k v :
  NoDup (map fst d) -> NoDup (map fst (dict_set eqb d k v)).
Proof.
  intros H. rewrite dict_set_keys.
  destruct (dict_mem eqb d k) eqn:E; [assumption|].
  apply NoDup_app; [assumption|repeat constructor; simpl; tauto|].
  intros x Hx [<-|[]]. apply dict_mem_In in Hx. congruence.
Qed.

Lemma dict_get_default_set_eq (d : dict K V) k v dflt :
  dict_get_default eqb (dict_set eqb d k v) k dflt = v.
Proof. unfold dict_get_default. now rewrite dict_get_set_eq. Qed.

Lemma dict_get_default_set_neq (d : dict K V) k k' v dflt :
  k <> k' ->
  dict_get_default eqb (dict_set eqb d k v) k' dflt
  = dict_get_default eqb d k' dflt.
Proof. intros H. unfold dict_get_default. now rewrite dict_get_set_neq. Qed.
End DictFacts.

(* ===================================================================== *)
(** * Floats *)

Lemma Rltb_true x y : Rltb x y = true <-> (x < y)%R.
Proof. unfold Rltb. destruct (Rlt_dec x y); split; auto; discriminate. Qed.

Lemma Rltb_false x y : Rltb x y = false <-> (y <= x)%R.
Proof.
  unfold Rltb. destruct (Rlt_dec x y); split; auto; try discriminate; lra.
Qed.

Lemma Rltb_irrefl x : Rltb x x = false.
Proof. apply Rltb_false. lra. Qed.

Lemma Rtruthy_true x : Rtruthy x = true <-> x <> 0%R.
Proof. unfold Rtruthy. destruct (Req_dec_T x 0); split; auto; discriminate. Qed.

Lemma Rtruthy_zero : Rtruthy 0 = false.
Proof. unfold Rtruthy. destruct (Req_dec_T 0 0); [reflexivity|contradiction]. Qed.

(* ===================================================================== *)
(** * Sorting *)

Lemma StronglySorted_impl {A} (P Q : A -> A -> Prop) l :
  (forall a b, In a l -> In b l -> P a b -> Q a b) ->
  StronglySorted P l -> StronglySorted Q l.
Proof.
  induction l as [|x l IH]; intros HPQ H; [constructor|].
  inversion H as [|? ? Hs Hf]; subst. constructor.
  - apply IH; [|assumption]. intros; apply HPQ; simpl; auto.
  - rewrite Forall_forall in *. intros y Hy.
    apply HPQ; simpl; auto.
Qed.

Lemma StronglySorted_filter {A} (P : A -> A -> Prop) (f : A -> bool) l :
  StronglySorted P l -> StronglySorted P (filter f l).
Proof.
  induction 1 as [|x l Hs IH Hf]; simpl; [constructor|].
  destruct (f x); [|assumption]. constructor; [assumption|].
  rewrite Forall_forall in *. intros y Hy. apply filter_In in Hy. apply Hf, Hy.
Qed.

Lemma In_firstn {A} n (l : list A) x : In x (firstn n l) -> In x l.
Proof.
  intros H. rewrite <- (firstn_skipn n l). apply in_or_app. now left.
Qed.

Lemma StronglySorted_firstn {A} (P : A -> A -> Prop) n l :
  StronglySorted P l -> StronglySorted P (firstn n l).
Proof.
  intros H; revert n. induction H as [|x l Hs IH Hf]; intros [|n]; simpl;
    try constructor; auto.
  rewrite Forall_forall in *. intros y Hy. apply Hf. eapply In_firstn, Hy.
Qed.

Lemma StronglySorted_map {A B} (P : B -> B -> Prop) (f : A -> B) l :
  StronglySorted (fun a b => P (f a) (f b)) l <-> StronglySorted P (map f l).
Proof.
  induction l as [|x l IH]; simpl; split; intros H; try constructor;
    inversion H as [|? ? Hs Hf]; subst.
  - now apply IH.
  - rewrite Forall_forall in *. intros y Hy. apply in_map_iff in Hy as [a [<- Ha]]. auto.
  - now apply IH.
  - rewrite Forall_forall in *. intros y Hy. apply Hf. now apply in_map.
Qed.

Lemma StronglySorted_app {A} (P : A -> A -> Prop) l1 l2 :
  StronglySorted P l1 -> StronglySorted P l2 ->
  (forall a b, In a l1 -> In b l2 -> P a b) ->
  StronglySorted P (l1 ++ l2).
Proof.
  induction l1 as [|x l1 IH]; simpl; intros H1 H2 H; [assumption|].
  inversion H1 as [|? ? Hs Hf]; subst. constructor.
  - apply IH; auto.
  - rewrite Forall_forall in *. intros y Hy. apply in_app_or in Hy as [Hy|Hy]; auto.
Qed.

Lemma StronglySorted_app_inv {A} (P : A -> A -> Prop) l1 l2 :
  StronglySorted P (l1 ++ l2) ->
  StronglySorted P l1 /\ StronglySorted P l2 /\
  (forall a b, In a l1 -> In b l2 -> P a b).
Proof.
  induction l1 as [|x l1 IH]; simpl; intros H.
  - repeat split; [constructor|assumption|tauto].
  - inversion H as [|? ? Hs Hf]; subst. destruct (IH Hs) as (H1 & H2 & H3).
    rewrite Forall_forall in Hf. repeat split; auto.
    + constructor; [assumption|]. rewrite Forall_forall. intros; apply Hf, in_or_app; auto.
    + intros a b [<-|Ha] Hb; [apply Hf, in_or_app|]; auto.
Qed.

Section SortFacts.
Context {A : Type}.
Variable key : A -> R.

Lemma insert_desc_perm x l : Permutation (insert_desc key x l) (x :: l).
Proof.
  induction l as [|y l IH]; simpl; [reflexivity|].
  destruct (Rltb (key x) (key y)); [|reflexivity].
  rewrite IH. apply perm_swap.
Qed.

(** The result of the sort holds the elements of the input. *)
Lemma sorted_desc_perm l : Permutation (sorted_desc key l) l.
Proof.
  induction l as [|x l IH]; simpl; [reflexivity|].
  rewrite insert_desc_perm. now constructor.
Qed.

Lemma sorted_desc_In l x : In x (sorted_desc key l) <-> In x l.
Proof.
  split; apply Permutation_in; [|symmetry]; apply sorted_desc_perm.
Qed.

Lemma insert_desc_sorted x l :
  StronglySorted (fun a b => (key b <= key a)%R) l ->
  StronglySorted (fun a b => (key b <= key a)%R) (insert_desc key x l).
Proof.
  induction 1 as [|y l Hs IH Hf]; simpl; [repeat constructor|].
  destruct (Rltb (key x) (key y)) eqn:E.
  - constructor; [assumption|].
    apply Rltb_true in E. rewrite Forall_forall in *.
    intros z Hz. apply (Permutation_in _ (insert_desc_perm x l)) in Hz.
    destruct Hz as [<-|Hz]; [lra|auto].
  - apply Rltb_false in E. constructor; [constructor; assumption|].
    constructor; [assumption|]. rewrite Forall_forall in *.
    intros z Hz. specialize (Hf z Hz). lra.
Qed.

(** The result of the sort is in descending order of the keys. *)
Lemma sorted_desc_sorted l :
  StronglySorted (fun a b => (key b <= key a)%R) (sorted_desc key l).
Proof.
  induction l as [|x l IH]; simpl; [constructor|].
  now apply insert_desc_sorted.
Qed.

Variable T : A -> A -> Prop.

Lemma insert_desc_stable x l :
  StronglySorted (fun a b => key a = key b -> T a b) l ->
  Forall (T x) l ->
  StronglySorted (fun a b => key a = key b -> T a b) (insert_desc key x l).
Proof.
  induction 1 as [|y l Hs IH Hf]; simpl; intros Hx; [repeat constructor|].
  inversion Hx as [|? ? Hxy Hxl]; subst.
  destruct (Rltb (key x) (key y)) eqn:E.
  - constructor; [auto|].
    apply Rltb_true in E. rewrite Forall_forall in *.
    intros z Hz. apply (Permutation_in _ (insert_desc_perm x l)) in Hz.
    destruct Hz as [<-|Hz]; [intros; lra|auto].
  - constructor; [constructor; assumption|].
    rewrite Forall_forall in *. intros z Hz _. apply Hx, Hz.
Qed.

(** The sort is stable: a relation that holds between the elements of
    the input, each with those after it, holds between the elements of
    equal key of the result. *)
Lemma sorted_desc_stable l :
  StronglySorted T l ->
  StronglySorted (fun a b => key a = key b -> T a b) (sorted_desc key l).
Proof.
  induction 1 as [|x l Hs IH Hf]; simpl; [constructor|].
  apply insert_desc_stable; [assumption|].
  rewrite Forall_forall in *. intros z Hz. apply Hf.
  exact (proj1 (sorted_desc_In _ _) Hz).
Qed.
End SortFacts.

(* ===================================================================== *)
(** * Flattener *)

Lemma node_messages_emitted n : node_messages n = emitted n.
Proof.
  unfold node_messages, emitted, extracted_text.
  destruct (message n) as [md|]; [|reflexivity].
  destruct (content md) as [c|]; simpl.
  - destruct c as [s|parts]; simpl.
    + destruct s as [|x s]; simpl.
      * now rewrite andb_false_r.
      * rewrite strip_nonempty. unfold blank. now rewrite andb_comm.
    + rewrite strip_nonempty. unfold blank. now rewrite andb_comm.
  - now rewrite andb_false_r.
Qed.

Lemma walk_walked m cur p :
  walked m cur p ->
  forall fuel acc, length p < fuel ->
    walk fuel m cur acc = Some (acc ++ messages_along m p).
Proof.
  induction 1 as [| |cid p Hne _ IH]; intros fuel acc Hf.
  - destruct fuel; [lia|]. simpl. now rewrite app_nil_r.
  - destruct fuel; [lia|]. simpl. now rewrite app_nil_r.
  - destruct fuel; [simpl in Hf; lia|].
    destruct cid as [|x cid]; [contradiction|].
    cbn [walk]. fold (lookup_node m (x :: cid)). fold (first_child m (x :: cid)).
    rewrite IH by (simpl in Hf; lia).
    rewrite node_messages_emitted. simpl. now rewrite <- app_assoc.
Qed.

Lemma descends_walked m cid p :
  descends m cid p -> Forall (fun i => i <> []) p -> walked m (Some cid) p.
Proof.
  induction 1 as [cid Hc|cid c p Hc _ IH]; intros Hp;
    inversion Hp as [|? ? Hne Hp']; subst; constructor; auto; rewrite Hc.
  - constructor.
  - auto.
Qed.

Lemma emitted_known_role n :
  Forall (fun x => is_known_role (role x) = true) (emitted n).
Proof.
  unfold emitted. destruct (message n) as [md|]; [|constructor].
  destruct (is_known_role _) eqn:E; simpl; [|constructor].
  destruct (negb _); repeat constructor. exact E.
Qed.

Lemma walk_known_roles fuel m :
  forall cur acc msgs,
    Forall (fun x => is_known_role (role x) = true) acc ->
    walk fuel m cur acc = Some msgs ->
    Forall (fun x => is_known_role (role x) = true) msgs.
Proof.
  induction fuel as [|fuel IH]; intros cur acc msgs Hacc; simpl; [discriminate|].
  destruct cur as [[|x cid]|]; try (intros [= <-]; assumption).
  apply IH. apply Forall_app; split; [assumption|].
  rewrite node_messages_emitted. apply emitted_known_role.
Qed.

(** The flattener only emits messages whose role is one of the four. *)
Lemma flatten_known_roles fuel m msgs :
  _flatten_message_tree fuel m = Some msgs ->
  Forall (fun x => is_known_role (role x) = true) msgs.
Proof.
  unfold _flatten_message_tree. destruct (find_root m).
  - apply walk_known_roles. constructor.
  - intros [= <-]. constructor.
Qed.

(** The flattener returns the messages along the path of its walk. *)
Lemma flatten_walked m root p fuel :
  find_root m = Some root -> walked m (Some root) p -> length p < fuel ->
  _flatten_message_tree fuel m = Some (messages_along m p).
Proof.
  intros Hroot Hp Hf. unfold _flatten_message_tree. rewrite Hroot.
  now rewrite (walk_walked _ _ _ Hp).
Qed.

Lemma emitted_checked n msg :
  In msg (emitted n) ->
  is_known_role (role msg) = true /\ blank (text msg) = false.
Proof.
  unfold emitted. destruct (message n) as [md|]; [|intros []].
  destruct (is_known_role _) eqn:E1; simpl; [|intros []].
  destruct (blank _) eqn:E2; simpl; [intros []|].
  intros [<-|[]]. simpl. auto.
Qed.

(** Where no node id on the path is the empty string, the flattened
    messages of a mapping with a root are exactly those emitted along
    the path that starts at the root and descends into the first listed
    child at each step, stopping when a node has no children; in every
    case they are those of the walk of the loop.  Every message comes
    from a node on the path, has a role among user, assistant, system
    and tool and a text that is not blank.  With fuel for each node of
    the path the walk returns. *)
Theorem flatten_first_child_path (m : dict str node) (root : str)
    (p : list str) (fuel : nat) :
  find_root m = Some root ->
  length p < fuel ->
  (descends m root p -> Forall (fun cid => cid <> []) p ->
   _flatten_message_tree fuel m = Some (messages_along m p))
  /\ (walked m (Some root) p ->
      _flatten_message_tree fuel m = Some (messages_along m p))
  /\ (forall msg, In msg (messages_along m p) ->
        exists cid, In cid p /\ In msg (emitted (lookup_node m cid))
                    /\ is_known_role (role msg) = true
                    /\ blank (text msg) = false).
Proof.
  intros Hroot Hf. split; [|split].
  - intros Hd Hne. apply flatten_walked with (root := root); auto using descends_walked.
  - intros Hp. now apply flatten_walked with (root := root).
  - intros msg Hin. unfold messages_along in Hin.
    apply in_flat_map in Hin as [cid [H1 H2]].
    exists cid. split; [assumption|]. split; [assumption|].
    eapply emitted_checked, H2.
Qed.

(** With the children [b; c] of [a] the transcript is the question and
    the first answer: nothing of [c]. *)
Lemma flatten_first_child_path_witness :
  _flatten_message_tree 3 branching_mapping
  = Some (messages_along branching_mapping [lit "a"; lit "b"])
  /\ map text (messages_along branching_mapping [lit "a"; lit "b"])
     = [lit "question"; lit "first answer"].
Proof.
  split; [|reflexivity].
  refine (proj1 (flatten_first_child_path branching_mapping (lit "a")
                   [lit "a"; lit "b"] 3 _ _) _ _).
  - reflexivity.
  - simpl; lia.
  - apply descends_child with (c := lit "b"); [reflexivity|].
    apply descends_leaf. reflexivity.
  - repeat constructor; discriminate.
Defined.

(** C6: the loop [while current_id:] takes the empty string for the
    end of the path.  In [empty_id_mapping] the root [r] lists the node
    [""] as its first child: the path from the root into the first
    child at each step is [r], [""], and the node [""] emits the
    message [hi]; the flattener, whatever the fuel it needs, returns no
    message at all. *)
Theorem flatten_stops_at_empty_id :
  find_root empty_id_mapping = Some (lit "r")
  /\ first_child empty_id_mapping (lit "r") = Some []
  /\ descends empty_id_mapping (lit "r") [lit "r"; []]
  /\ (forall p, descends empty_id_mapping (lit "r") p -> p = [lit "r"; []])
  /\ map text (messages_along empty_id_mapping [lit "r"; []]) = [lit "hi"]
  /\ map role (messages_along empty_id_mapping [lit "r"; []]) = [lit "user"]
  /\ (forall fuel, _flatten_message_tree (2 + fuel) empty_id_mapping = Some [])
  /\ (forall fuel, _flatten_message_tree fuel empty_id_mapping
                   <> Some (messages_along empty_id_mapping [lit "r"; []])).
Proof.
  split; [reflexivity|]. split; [reflexivity|]. split.
  { apply descends_child with (c := []); [reflexivity|].
    apply descends_leaf. reflexivity. }
  split.
  { intros p Hp. inversion Hp as [cid H1|cid c p' H1 H2]; subst.
    - discriminate H1.
    - injection H1 as <-.
      inversion H2 as [cid H3|cid c p'' H3 H4]; subst; [reflexivity|].
      discriminate H3. }
  split; [reflexivity|]. split; [reflexivity|]. split.
  - intros fuel. reflexivity.
  - intros [|[|fuel]]; discriminate.
Qed.

(* ===================================================================== *)
(** * Parser *)

(** C7: the fallback over a flat ["messages"] array does not check the
    role: a message without a role enters the collection with the role
    ["unknown"]. *)
Theorem fallback_role_unchecked :
  forall fuel,
  exists conv msg,
    parse_chatgpt_export fuel [roleless_entry] = Some [conv]
    /\ messages conv = [msg]
    /\ role msg = lit "unknown"
    /\ is_known_role (role msg) = false.
Proof.
  intros fuel. do 2 eexists. split; [reflexivity|].
  split; [reflexivity|]. split; reflexivity.
Qed.

(* ===================================================================== *)
(** * Keys of a dict under updates *)

Lemma existsb_eqb_In (ks : list nat) i : existsb (Nat.eqb i) ks = true <-> In i ks.
Proof.
  rewrite existsb_exists. split.
  - intros [x [Hx E]]. apply Nat.eqb_eq in E. now subst.
  - intros H. exists i. split; [assumption|apply Nat.eqb_refl].
Qed.

Lemma existsb_str_In (ks : list str) t : existsb (str_eqb t) ks = true <-> In t ks.
Proof.
  rewrite existsb_exists. split.
  - intros [x [Hx E]]. apply str_eqb_eq in E. now subst.
  - intros H. exists t. split; [assumption|apply str_eqb_refl].
Qed.

Lemma dict_mem_existsb {V} (d : dict nat V) i :
  dict_mem Nat.eqb d i = existsb (Nat.eqb i) (map fst d).
Proof.
  apply eq_true_iff_eq. rewrite (dict_mem_In Nat.eqb Nat.eqb_eq), existsb_eqb_In.
  reflexivity.
Qed.

(** New keys that are distinct go to the end in their order. *)
Lemma add_new_filter js :
  NoDup js ->
  forall ks, add_new ks js = ks ++ filter (fun i => negb (existsb (Nat.eqb i) ks)) js.
Proof.
  unfold add_new. induction 1 as [|i js Hni Hnd IH]; intros ks; simpl.
  - now rewrite app_nil_r.
  - destruct (existsb (Nat.eqb i) ks) eqn:E; simpl; [apply IH|].
    rewrite IH, <- app_assoc. simpl. do 2 f_equal.
    apply filter_ext_in. intros j Hj. rewrite existsb_app. simpl.
    rewrite orb_false_r. destruct (Nat.eqb_spec j i); [subst; contradiction|].
    now rewrite orb_false_r.
Qed.

Lemma add_new_In ks js i : In i (add_new ks js) <-> In i ks \/ In i js.
Proof.
  unfold add_new. revert ks. induction js as [|j js IH]; intros ks; simpl.
  - tauto.
  - rewrite IH. destruct (existsb (Nat.eqb j) ks) eqn:E.
    + apply existsb_eqb_In in E. split; [tauto|]. intros [H|[<-|H]]; auto.
    + rewrite in_app_iff. simpl. tauto.
Qed.

(* ===================================================================== *)
(** * Positions in the collection *)

Lemma enumerate_from_In {A} (l : list A) s i x :
  In (i, x) (combine (seq s (length l)) l) <-> s <= i /\ nth_error l (i - s) = Some x.
Proof.
  revert s. induction l as [|y l IH]; intros s; simpl.
  - split; [tauto|]. intros [_ H]. destruct (i - s); discriminate.
  - rewrite IH. split.
    + intros [[= <- <-]|[Hs Hn]].
      * split; [lia|]. now rewrite Nat.sub_diag.
      * split; [lia|]. replace (i - s) with (S (i - S s)) by lia. exact Hn.
    + intros [Hs Hn]. destruct (Nat.eq_dec s i) as [<-|Hne].
      * left. rewrite Nat.sub_diag in Hn. simpl in Hn. congruence.
      * right. split; [lia|]. replace (i - s) with (S (i - S s)) in Hn by lia.
        exact Hn.
Qed.

Lemma enumerate_In {A} (l : list A) i x :
  In (i, x) (enumerate l) <-> nth_error l i = Some x.
Proof.
  unfold enumerate. rewrite enumerate_from_In, Nat.sub_0_r.
  split; [tauto|]. split; [lia|assumption].
Qed.

Lemma positions_from_sorted (f : Conversation -> bool) l s :
  StronglySorted lt
    (flat_map (fun '(i, c) => if f c then [i] else []) (combine (seq s (length l)) l))
  /\ Forall (fun i => s <= i)
    (flat_map (fun '(i, c) => if f c then [i] else []) (combine (seq s (length l)) l)).
Proof.
  revert s. induction l as [|c l IH]; intros s; simpl; [split; constructor|].
  destruct (IH (S s)) as [H1 H2]. destruct (f c); simpl.
  - split.
    + constructor; [assumption|]. eapply Forall_impl; [|exact H2]. simpl; lia.
    + constructor; [lia|]. eapply Forall_impl; [|exact H2]. simpl; lia.
  - split; [assumption|]. eapply Forall_impl; [|exact H2]. simpl; lia.
Qed.

Lemma positions_sorted f convs : StronglySorted lt (positions f convs).
Proof. apply positions_from_sorted. Qed.

Lemma StronglySorted_lt_NoDup l : StronglySorted lt l -> NoDup l.
Proof.
  induction 1 as [|x l Hs IH Hf]; constructor; [|assumption].
  intros Hin. rewrite Forall_forall in Hf. specialize (Hf x Hin). lia.
Qed.

Lemma positions_NoDup f convs : NoDup (positions f convs).
Proof. apply StronglySorted_lt_NoDup, positions_sorted. Qed.

Lemma positions_In f convs i :
  In i (positions f convs) <-> exists c, nth_error convs i = Some c /\ f c = true.
Proof.
  unfold positions. rewrite in_flat_map. split.
  - intros [[j c] [Hin Hi]]. apply enumerate_In in Hin.
    destruct (f c) eqn:E; [|contradiction]. destruct Hi as [<-|[]]. eauto.
  - intros [c [Hn Hf]]. exists (i, c). split; [now apply enumerate_In|].
    rewrite Hf. now left.
Qed.

(* ===================================================================== *)
(** * Counters *)

Lemma dict_get_app {V} (a b : dict str V) t :
  dict_get str_eqb (a ++ b) t =
  match dict_get str_eqb a t with
  | Some v => Some v
  | None => dict_get str_eqb b t
  end.
Proof.
  induction a as [|[k v] a IH]; simpl; [reflexivity|].
  destruct (str_eqb t k); [reflexivity|exact IH].
Qed.

Lemma distinct_In l t : In t (distinct l) <-> In t l.
Proof.
  induction l as [|x l IH]; simpl; [tauto|].
  rewrite filter_In, IH. destruct (str_eqb x t) eqn:E.
  - apply str_eqb_eq in E. subst. simpl. split; [intros [H|[_ H]]|]; auto; discriminate.
  - apply str_eqb_neq in E. simpl. split; [tauto|]. intros [H|H]; [contradiction|auto].
Qed.

Lemma distinct_NoDup l : NoDup (distinct l).
Proof.
  induction l as [|x l IH]; simpl; constructor.
  - rewrite filter_In. intros [_ H]. now rewrite str_eqb_refl in H.
  - now apply NoDup_filter.
Qed.

(** [d[t] += 1] on a counter. *)
Lemma bump_get (d : dict str nat) t t' :
  dict_get_default str_eqb
    (dict_set str_eqb d t (dict_get_default str_eqb d t 0 + 1)) t' 0
  = dict_get_default str_eqb d t' 0 + (if str_eqb t t' then 1 else 0).
Proof.
  destruct (str_eqb t t') eqn:E.
  - apply str_eqb_eq in E. subst.
    now rewrite (dict_get_default_set_eq str_eqb str_eqb_eq).
  - apply str_eqb_neq in E.
    rewrite (dict_get_default_set_neq str_eqb str_eqb_eq) by assumption. lia.
Qed.

Lemma dict_set_values {K V} (eqb : K -> K -> bool) (Q : V -> Prop)
    (d : dict K V) k v :
  Forall (fun p => Q (snd p)) d -> Q v ->
  Forall (fun p => Q (snd p)) (dict_set eqb d k v).
Proof.
  intros Hd Hv. induction Hd as [|[k' c] d Hc Hd IH]; simpl.
  - repeat constructor. exact Hv.
  - destruct (eqb k k'); constructor; auto.
Qed.

Lemma bump_positive (d : dict str nat) t :
  Forall (fun p => 0 < snd p) d ->
  Forall (fun p => 0 < snd p)
    (dict_set str_eqb d t (dict_get_default str_eqb d t 0 + 1)).
Proof.
  intros H. apply (dict_set_values str_eqb (fun v => 0 < v)); [assumption|lia].
Qed.

Lemma positive_get_None (d : dict str nat) t :
  Forall (fun p => 0 < snd p) d ->
  dict_get str_eqb d t
  = if dict_get_default str_eqb d t 0 =? 0 then None
    else Some (dict_get_default str_eqb d t 0).
Proof.
  intros H. unfold dict_get_default.
  destruct (dict_get str_eqb d t) as [v|] eqn:E; [|reflexivity].
  apply (dict_get_Some_In str_eqb str_eqb_eq) in E.
  rewrite Forall_forall in H. specialize (H _ E). simpl in H.
  destruct (Nat.eqb_spec v 0); [lia|reflexivity].
Qed.

Section Bumps.
Let bump (d : dict str nat) (t : str) : dict str nat :=
  dict_set str_eqb d t (dict_get_default str_eqb d t 0 + 1).

Lemma fold_bump_get ts :
  NoDup ts ->
  forall d t',
    dict_get_default str_eqb (fold_left bump ts d) t' 0
    = dict_get_default str_eqb d t' 0
      + (if existsb (str_eqb t') ts then 1 else 0).
Proof.
  induction 1 as [|t ts Hni Hnd IH]; intros d t'; simpl; [lia|].
  rewrite IH. unfold bump. rewrite bump_get.
  destruct (str_eqb t t') eqn:E.
  - apply str_eqb_eq in E. subst. rewrite str_eqb_refl. simpl.
    destruct (existsb (str_eqb t') ts) eqn:E'; [|lia].
    apply existsb_str_In in E'. contradiction.
  - replace (str_eqb t' t) with false; [simpl; lia|].
    symmetry. apply str_eqb_neq. apply str_eqb_neq in E. congruence.
Qed.

Lemma fold_bump_positive ts :
  forall d, Forall (fun p => 0 < snd p) d ->
            Forall (fun p => 0 < snd p) (fold_left bump ts d).
Proof.
  induction ts as [|t ts IH]; intros d H; simpl; [assumption|].
  apply IH. now apply bump_positive.
Qed.

Lemma fold_bump_NoDup ts :
  forall d, NoDup (map fst d) -> NoDup (map fst (fold_left bump ts d)).
Proof.
  induction ts as [|t ts IH]; intros d H; simpl; [assumption|].
  apply IH. now apply (dict_set_NoDup str_eqb str_eqb_eq).
Qed.

Lemma fold_bump_keys ts :
  forall d t, In t (map fst (fold_left bump ts d)) <-> In t (map fst d) \/ In t ts.
Proof.
  induction ts as [|x ts IH]; intros d t; simpl; [tauto|].
  rewrite IH. unfold bump. rewrite dict_set_keys.
  destruct (dict_mem str_eqb d x) eqn:E.
  - apply (dict_mem_In str_eqb str_eqb_eq) in E.
    split; [tauto|]. intros [H|[<-|H]]; auto.
  - rewrite in_app_iff. simpl. tauto.
Qed.
End Bumps.

Lemma counter_NoDup tokens : NoDup (map fst (counter tokens)).
Proof. apply fold_bump_NoDup. constructor. Qed.

Lemma counter_keys tokens t : In t (map fst (counter tokens)) <-> In t tokens.
Proof. unfold counter. rewrite fold_bump_keys. simpl. tauto. Qed.

Lemma counter_get tokens t :
  dict_get str_eqb (counter tokens) t <> None <-> In t tokens.
Proof.
  rewrite <- counter_keys. rewrite (dict_get_None str_eqb str_eqb_eq). 
  split; [|tauto]. intros H.
  destruct (in_dec (list_eq_dec N.eq_dec) t (map fst (counter tokens))); tauto.
Qed.

(* ===================================================================== *)
(** * The index *)

Section IndexFacts.
Variable lower : str -> str.

Lemma has_term_In t c : has_term lower t c = true <-> In t (doc_tokens lower c).
Proof. apply existsb_str_In. Qed.

Let bump (d : dict str nat) (t : str) : dict str nat :=
  dict_set str_eqb d t (dict_get_default str_eqb d t 0 + 1).

Let count_step (st : dict str nat * list (dict str nat)) (conv : Conversation) :=
  (fold_left bump (distinct (doc_tokens lower conv)) (fst st),
   snd st ++ [counter (doc_tokens lower conv)]).

Lemma count_terms_fold convs st :
  fold_left
    (fun '(doc_freq, tf_per_doc) conv =>
       let tokens := _tokenize lower (full_text conv) in
       let tf := counter tokens in
       (fold_left
          (fun df term =>
             dict_set str_eqb df term (dict_get_default str_eqb df term 0 + 1))
          (distinct tokens) doc_freq,
        tf_per_doc ++ [tf]))
    convs st
  = fold_left count_step convs st.
Proof.
  revert st. induction convs as [|c convs IH]; intros [df tfs]; [reflexivity|].
  cbn [fold_left]. rewrite IH. reflexivity.
Qed.

Lemma count_terms_from convs :
  forall df tfs,
    Forall (fun p => 0 < snd p) df ->
    NoDup (map fst df) ->
    exists df',
      fold_left count_step convs (df, tfs)
      = (df', tfs ++ map (fun c => counter (doc_tokens lower c)) convs)
      /\ Forall (fun p => 0 < snd p) df'
      /\ NoDup (map fst df')
      /\ forall t, dict_get_default str_eqb df' t 0
                   = dict_get_default str_eqb df t 0 + doc_frequency lower t convs.
Proof.
  induction convs as [|c convs IH]; intros df tfs Hpos Hnd.
  - exists df. simpl. rewrite app_nil_r. repeat split; auto.
  - cbn [fold_left].
    change (count_step (df, tfs) c)
      with (fold_left bump (distinct (doc_tokens lower c)) df,
            tfs ++ [counter (doc_tokens lower c)]).
    destruct (IH (fold_left bump (distinct (doc_tokens lower c)) df)
                 (tfs ++ [counter (doc_tokens lower c)]))
      as (df' & Heq & Hpos' & Hnd' & Hget).
    { now apply fold_bump_positive. }
    { now apply fold_bump_NoDup. }
    exists df'. split; [|split; [assumption|split; [assumption|]]].
    + etransitivity; [exact Heq|]. rewrite <- app_assoc. reflexivity.
    + intros t. rewrite Hget. unfold bump.
      rewrite fold_bump_get by apply distinct_NoDup.
      unfold doc_frequency. simpl.
      replace (existsb (str_eqb t) (distinct (doc_tokens lower c)))
        with (has_term lower t c).
      * destruct (has_term lower t c); simpl; lia.
      * apply eq_true_iff_eq. rewrite has_term_In, existsb_str_In, distinct_In.
        reflexivity.
Qed.

Lemma count_terms_spec convs :
  exists df,
    count_terms lower convs
    = (df, map (fun c => counter (doc_tokens lower c)) convs)
    /\ NoDup (map fst df)
    /\ forall t, dict_get str_eqb df t
                 = if doc_frequency lower t convs =? 0 then None
                   else Some (doc_frequency lower t convs).
Proof.
  destruct (count_terms_from convs [] []) as (df & Heq & Hpos & Hnd & Hget);
    [constructor|constructor|].
  exists df. split; [|split; [assumption|]].
  - unfold count_terms. rewrite count_terms_fold. exact Heq.
  - intros t. rewrite (positive_get_None df t Hpos), Hget. reflexivity.
Qed.

(** The second loop maps each document frequency to its idf. *)
Lemma compute_idf_get n (doc_freq : dict str nat) t :
  NoDup (map fst doc_freq) ->
  dict_get str_eqb (compute_idf n doc_freq) t
  = option_map (idf_formula n) (dict_get str_eqb doc_freq t).
Proof.
  unfold compute_idf. induction doc_freq as [|[k v] d IH] using rev_ind;
    intros Hnd; [reflexivity|].
  rewrite fold_left_app. cbn [fold_left].
  rewrite map_app in Hnd. apply NoDup_app_remove_r in Hnd as Hnd'.
  rewrite dict_get_app. destruct (str_eqb k t) eqn:E.
  - apply str_eqb_eq in E. subst k.
    rewrite (dict_get_set_eq str_eqb str_eqb_eq).
    replace (dict_get str_eqb d t) with (@None nat).
    + simpl. now rewrite str_eqb_refl.
    + symmetry. apply (dict_get_None str_eqb str_eqb_eq).
      intros Hin. apply NoDup_remove_2 in Hnd. apply Hnd.
      rewrite app_nil_r. exact Hin.
  - apply str_eqb_neq in E.
    rewrite (dict_get_set_neq str_eqb str_eqb_eq) by assumption.
    rewrite IH by assumption. destruct (dict_get str_eqb d t); [reflexivity|].
    simpl. replace (str_eqb t k) with false; [reflexivity|].
    symmetry. apply str_eqb_neq. congruence.
Qed.

(** The stored idf of a term. *)
Lemma build_idf convs t :
  dict_get str_eqb (_idf (_build_index lower convs)) t
  = if doc_frequency lower t convs =? 0 then None
    else Some (idf_formula (length convs) (doc_frequency lower t convs)).
Proof.
  unfold _build_index.
  destruct (count_terms_spec convs) as (df & Heq & Hnd & Hget).
  rewrite Heq. simpl. rewrite compute_idf_get by assumption.
  rewrite Hget. now destruct (_ =? 0).
Qed.
End IndexFacts.

(** The idf falls as the document frequency grows. *)
Lemma idf_formula_decreasing n df1 df2 :
  df1 < df2 -> (idf_formula n df2 < idf_formula n df1)%R.
Proof.
  intros H. unfold idf_formula. apply Rplus_lt_compat_r.
  assert (H0 : (0 < INR (n + 1))%R) by (apply lt_0_INR; lia).
  assert (H1 : (0 < INR (df1 + 1))%R) by (apply lt_0_INR; lia).
  assert (H2 : (0 < INR (df2 + 1))%R) by (apply lt_0_INR; lia).
  assert (H3 : (INR (df1 + 1) < INR (df2 + 1))%R) by (apply lt_INR; lia).
  apply ln_increasing.
  - apply Rdiv_lt_0_compat; assumption.
  - unfold Rdiv. apply Rmult_lt_compat_l; [assumption|].
    apply Rinv_lt_contravar; [|assumption]. now apply Rmult_lt_0_compat.
Qed.

(** C5: the stored idf of a term that occurs in [df >= 1] of the [N]
    conversations is [ln((N + 1) / (df + 1)) + 1], no idf is stored for any
    other term, and of two stored idfs the one of the term with the
    smaller document frequency is the larger. *)
Theorem idf_stored (lower : str -> str) (convs : list Conversation) :
  let e := _build_index lower convs in
  let N := length convs in
  let df t := doc_frequency lower t convs in
  (forall t, dict_get str_eqb (_idf e) t
             = if df t =? 0 then None
               else Some (ln (INR (N + 1) / INR (df t + 1)) + 1)%R)
  /\ (forall t1 t2 idf1 idf2,
        dict_get str_eqb (_idf e) t1 = Some idf1 ->
        dict_get str_eqb (_idf e) t2 = Some idf2 ->
        df t1 < df t2 -> (idf1 > idf2)%R).
Proof.
  intros e N df. split.
  - intros t. apply build_idf.
  - intros t1 t2 idf1 idf2. unfold e. rewrite !build_idf.
    fold (df t1) (df t2) N.
    destruct (df t1 =? 0); [discriminate|]. destruct (df t2 =? 0); [discriminate|].
    intros [= <-] [= <-] Hlt. now apply idf_formula_decreasing.
Qed.

(* ===================================================================== *)
(** * Postings *)

Section PostingFacts.
Variable lower : str -> str.

Lemma index_doc_get (tf : dict str nat) (idx total : nat) :
  NoDup (map fst tf) ->
  forall (index : dict str (list (nat * R))) t,
    dict_get_default str_eqb
      (fold_left
         (fun index '(term, count) =>
            dict_set str_eqb index term
              (dict_get_default str_eqb index term []
               ++ [(idx, (INR count / INR total)%R)]))
         tf index) t []
    = dict_get_default str_eqb index t []
      ++ match dict_get str_eqb tf t with
         | Some c => [(idx, (INR c / INR total)%R)]
         | None => []
         end.
Proof.
  induction tf as [|[k c] tf IH]; intros Hnd index t; simpl.
  - now rewrite app_nil_r.
  - inversion Hnd as [|? ? Hni Hnd']; subst. rewrite IH by assumption.
    destruct (str_eqb t k) eqn:E.
    + apply str_eqb_eq in E. subst k.
      rewrite (dict_get_default_set_eq str_eqb str_eqb_eq).
      replace (dict_get str_eqb tf t) with (@None nat); [now rewrite app_nil_r|].
      symmetry. now apply (dict_get_None str_eqb str_eqb_eq).
    + apply str_eqb_neq in E.
      rewrite (dict_get_default_set_neq str_eqb str_eqb_eq) by congruence.
      reflexivity.
Qed.

(** The documents, from position [s] on, in the postings of a term. *)
Lemma compute_index_docs convs t :
  forall s (index : dict str (list (nat * R))),
    map fst
      (dict_get_default str_eqb
         (fold_left
            (fun index '(idx, tf) =>
               let total_tokens :=
                 let s := fold_left Nat.add (map snd tf) 0 in
                 if s =? 0 then 1 else s in
               fold_left
                 (fun index '(term, count) =>
                    let normalized_tf := (INR count / INR total_tokens)%R in
                    dict_set str_eqb index term
                      (dict_get_default str_eqb index term []
                       ++ [(idx, normalized_tf)]))
                 tf index)
            (combine (seq s (length convs))
                     (map (fun c => counter (doc_tokens lower c)) convs))
            index) t [])
    = map fst (dict_get_default str_eqb index t [])
      ++ flat_map (fun '(i, c) => if has_term lower t c then [i] else [])
           (combine (seq s (length convs)) convs).
Proof.
  induction convs as [|c convs IH]; intros s index; simpl.
  - now rewrite app_nil_r.
  - rewrite IH. rewrite index_doc_get by apply counter_NoDup.
    rewrite map_app, <- app_assoc. f_equal.
    destruct (has_term lower t c) eqn:E.
    + apply has_term_In in E. apply counter_get in E.
      destruct (dict_get str_eqb (counter (doc_tokens lower c)) t);
        [reflexivity|congruence].
    + destruct (dict_get str_eqb (counter (doc_tokens lower c)) t) eqn:E';
        [|reflexivity].
      assert (H : In t (doc_tokens lower c)) by (apply counter_get; congruence).
      apply has_term_In in H. congruence.
Qed.

(** The postings of a term list the conversations that contain it, in
    the order of the collection. *)
Lemma build_postings convs t :
  map fst (dict_get_default str_eqb (_index (_build_index lower convs)) t [])
  = positions (has_term lower t) convs.
Proof.
  unfold _build_index. destruct (count_terms_spec lower convs) as (df & Heq & _).
  rewrite Heq. cbn [_index]. unfold compute_index, enumerate.
  rewrite length_map. exact (compute_index_docs convs t 0 []).
Qed.

Lemma build_conversations convs : conversations (_build_index lower convs) = convs.
Proof. unfold _build_index. now destruct (count_terms lower convs). Qed.
End PostingFacts.

(* ===================================================================== *)
(** * Keys of the score table *)

Lemma scores_step_keys (idf : R) (ps : list (nat * R)) :
  forall scores : dict nat R,
    map fst
      (fold_left
         (fun scores '(idx, tf) =>
            dict_set Nat.eqb scores idx
              (dict_get_default Nat.eqb scores idx 0 + tf * idf)%R)
         ps scores)
    = add_new (map fst scores) (map fst ps).
Proof.
  unfold add_new. induction ps as [|[i tf] ps IH]; intros scores; simpl;
    [reflexivity|].
  rewrite IH, dict_set_keys by apply Nat.eqb_eq.
  now rewrite dict_mem_existsb.
Qed.

Lemma accumulate_keys_from (e : SearchEngine) tokens :
  forall scores : dict nat R,
    map fst
      (fold_left
         (fun scores token =>
            let idf := dict_get_default str_eqb (_idf e) token 0%R in
            fold_left
              (fun scores '(idx, tf) =>
                 dict_set Nat.eqb scores idx
                   (dict_get_default Nat.eqb scores idx 0 + tf * idf)%R)
              (dict_get_default str_eqb (_index e) token []) scores)
         tokens scores)
    = fold_left
        (fun ks t =>
           add_new ks (map fst (dict_get_default str_eqb (_index e) t [])))
        tokens (map fst scores).
Proof.
  induction tokens as [|t tokens IH]; intros scores; simpl; [reflexivity|].
  now rewrite IH, scores_step_keys.
Qed.

Section BoostFacts.
Variable lower : str -> str.

Lemma boost_keys_from query l :
  forall s (scores : dict nat R),
    map fst
      (fold_left
         (fun scores '(idx, conv) =>
            if str_in (lower query) (lower (title conv)) then
              dict_set Nat.eqb scores idx
                (dict_get_default Nat.eqb scores idx 0 * 2)%R
            else scores)
         (combine (seq s (length l)) l) scores)
    = add_new (map fst scores)
        (flat_map
           (fun '(i, c) =>
              if str_in (lower query) (lower (title c)) then [i] else [])
           (combine (seq s (length l)) l)).
Proof.
  unfold add_new. induction l as [|c l IH]; intros s scores; simpl;
    [reflexivity|].
  rewrite IH. destruct (str_in (lower query) (lower (title c))); simpl;
    [|reflexivity].
  rewrite dict_set_keys by apply Nat.eqb_eq. now rewrite dict_mem_existsb.
Qed.

(** The boost keeps the keys of the table and adds, at the end and in
    the order of the collection, the conversations whose title matches
    and that had no score. *)
Lemma boost_keys e query scores :
  map fst (boost lower e query scores)
  = add_new (map fst scores)
      (positions (fun c => str_in (lower query) (lower (title c)))
                 (conversations e)).
Proof. apply boost_keys_from. Qed.

Lemma boost_get_from query l idx :
  forall s (scores : dict nat R),
    dict_get Nat.eqb
      (fold_left
         (fun scores '(idx, conv) =>
            if str_in (lower query) (lower (title conv)) then
              dict_set Nat.eqb scores idx
                (dict_get_default Nat.eqb scores idx 0 * 2)%R
            else scores)
         (combine (seq s (length l)) l) scores) idx
    = match (if s <=? idx then nth_error l (idx - s) else None) with
      | Some c =>
          if str_in (lower query) (lower (title c)) then
            Some (dict_get_default Nat.eqb scores idx 0 * 2)%R
          else dict_get Nat.eqb scores idx
      | None => dict_get Nat.eqb scores idx
      end.
Proof.
  induction l as [|c l IH]; intros s scores; simpl.
  - destruct (s <=? idx); [|reflexivity]. now destruct (idx - s).
  - rewrite IH. destruct (Nat.leb_spec (S s) idx) as [Hlt|Hge].
    + replace (s <=? idx) with true by (symmetry; apply Nat.leb_le; lia).
      replace (idx - s) with (S (idx - S s)) by lia. simpl.
      destruct (str_in (lower query) (lower (title c))); [|reflexivity].
      unfold dict_get_default.
      rewrite (dict_get_set_neq Nat.eqb Nat.eqb_eq) by lia. reflexivity.
    + destruct (Nat.leb_spec s idx) as [Hle|Hgt].
      * assert (idx = s) by lia. subst idx. rewrite Nat.sub_diag. simpl.
        destruct (str_in (lower query) (lower (title c))); [|reflexivity].
        now rewrite (dict_get_set_eq Nat.eqb Nat.eqb_eq).
      * destruct (str_in (lower query) (lower (title c))); [|reflexivity].
        rewrite (dict_get_set_neq Nat.eqb Nat.eqb_eq) by lia. reflexivity.
Qed.

(** The score of a conversation after the boost. *)
Lemma boost_get e query scores idx :
  dict_get Nat.eqb (boost lower e query scores) idx
  = match nth_error (conversations e) idx with
    | Some c =>
        if str_in (lower query) (lower (title c)) then
          Some (dict_get_default Nat.eqb scores idx 0 * 2)%R
        else dict_get Nat.eqb scores idx
    | None => dict_get Nat.eqb scores idx
    end.
Proof.
  unfold boost, enumerate. rewrite boost_get_from. simpl.
  now rewrite Nat.sub_0_r.
Qed.

Lemma accumulate_keys convs tokens :
  map fst (accumulate (_build_index lower convs) tokens)
  = fold_left (fun ks t => add_new ks (positions (has_term lower t) convs))
      tokens [].
Proof.
  unfold accumulate. rewrite accumulate_keys_from. simpl.
  generalize (@nil nat). induction tokens as [|t tokens IH]; intros ks; simpl;
    [reflexivity|].
  now rewrite IH, build_postings.
Qed.
End BoostFacts.

(* ===================================================================== *)
(** * Order of the keys of the score table *)

Section KeyOrder.
Variable lower : str -> str.
Variable convs : list Conversation.

Lemma first_match_le tokens c : first_match lower tokens c <= length tokens.
Proof.
  induction tokens as [|t ts IH]; simpl; [lia|].
  destruct (has_term lower t c); lia.
Qed.

Lemma first_match_lt tokens c :
  first_match lower tokens c < length tokens
  <-> exists t, In t tokens /\ has_term lower t c = true.
Proof.
  induction tokens as [|t ts IH]; simpl.
  - split; [lia|]. intros [t [[] _]].
  - destruct (has_term lower t c) eqn:E.
    + split; [|lia]. intros _. exists t. auto.
    + rewrite <- Nat.succ_lt_mono, IH. split.
      * intros [t' [H1 H2]]. exists t'. auto.
      * intros [t' [[<-|H1] H2]]; [congruence|]. exists t'. auto.
Qed.

Lemma token_keys tokens :
  forall ks,
  exists new,
    fold_left (fun ks t => add_new ks (positions (has_term lower t) convs))
      tokens ks = ks ++ new
    /\ (forall i, In i new <->
          ~ In i ks /\ exists c, nth_error convs i = Some c
                                 /\ first_match lower tokens c < length tokens)
    /\ StronglySorted (tie_order lower tokens convs) new.
Proof.
  induction tokens as [|t ts IH]; intros ks.
  - exists []. simpl. rewrite app_nil_r. split; [reflexivity|].
    split; [|constructor]. intros i. split; [intros []|].
    intros [_ [c [_ H]]]. lia.
  - cbn [fold_left].
    rewrite add_new_filter by apply positions_NoDup.
    set (A := filter (fun i => negb (existsb (Nat.eqb i) ks))
                (positions (has_term lower t) convs)).
    destruct (IH (ks ++ A)) as (new' & Heq & Hin & Hsorted).
    assert (HA : forall i, In i A <->
              ~ In i ks /\ exists c, nth_error convs i = Some c
                                     /\ has_term lower t c = true).
    { intros i. unfold A. rewrite filter_In, positions_In, negb_true_iff.
      rewrite <- not_true_iff_false, existsb_eqb_In. tauto. }
    exists (A ++ new'). split; [now rewrite Heq, app_assoc|]. split.
    + intros i. rewrite in_app_iff, HA, Hin, in_app_iff, HA. simpl. split.
      * intros [[Hks [c [Hc Ht]]]|[Hni [c [Hc Hlt]]]].
        -- split; [assumption|]. exists c. rewrite Ht. split; [assumption|lia].
        -- split; [tauto|]. exists c. split; [assumption|].
           destruct (has_term lower t c); lia.
      * intros [Hks [c [Hc Hlt]]]. destruct (has_term lower t c) eqn:Ht.
        -- left. eauto.
        -- right. split.
           ++ intros [H|[_ [c' [Hc' Ht']]]]; [contradiction|]. congruence.
           ++ exists c. split; [assumption|lia].
    + apply StronglySorted_app.
      * apply StronglySorted_impl with (P := lt).
        -- intros a b Ha Hb Hlt. apply HA in Ha as [_ [ca [Hca Hta]]].
           apply HA in Hb as [_ [cb [Hcb Htb]]].
           right. unfold rank. rewrite Hca, Hcb. simpl. rewrite Hta, Htb. auto.
        -- apply StronglySorted_filter, positions_sorted.
      * apply StronglySorted_impl with (P := tie_order lower ts convs);
          [|assumption].
        assert (Hr : forall a, In a new' ->
                  rank lower (t :: ts) convs a = S (rank lower ts convs a)).
        { intros a Ha. apply Hin in Ha as [Hni [c [Hc _]]].
          unfold rank. rewrite Hc. simpl.
          destruct (has_term lower t c) eqn:Ht; [|reflexivity].
          exfalso. apply Hni, in_or_app.
          destruct (in_dec Nat.eq_dec a ks); [auto|].
          right. apply HA. eauto. }
        intros a b Ha Hb Hab. unfold tie_order. rewrite (Hr a Ha), (Hr b Hb).
        destruct Hab as [H|[H1 H2]]; [left; lia|right; auto].
      * intros a b Ha Hb. left.
        apply HA in Ha as [_ [ca [Hca Hta]]].
        apply Hin in Hb as [Hni [cb [Hcb _]]].
        unfold rank. rewrite Hca, Hcb. simpl. rewrite Hta.
        destruct (has_term lower t cb) eqn:Htb; [|lia].
        exfalso. apply Hni, in_or_app.
        destruct (in_dec Nat.eq_dec b ks); [auto|].
        right. apply HA. eauto.
Qed.

(** The keys of the score table of a query: the conversations that
    contain a query token, then those whose title matches alone; all of
    them positions of the collection, in the order of ties. *)
Lemma score_keys query :
  let tokens := _tokenize lower query in
  let keys :=
    map fst (boost lower (_build_index lower convs) query
                   (accumulate (_build_index lower convs) tokens)) in
  StronglySorted (tie_order lower tokens convs) keys
  /\ (forall i, In i keys <->
        exists c, nth_error convs i = Some c
                  /\ (first_match lower tokens c < length tokens
                      \/ title_match lower query c = true))
  /\ (forall i, In i (map fst (accumulate (_build_index lower convs) tokens)) <->
        exists c, nth_error convs i = Some c
                  /\ first_match lower tokens c < length tokens).
Proof.
  intros tokens keys. unfold keys.
  rewrite boost_keys, accumulate_keys, build_conversations.
  destruct (token_keys tokens []) as (K & Heq & Hin & Hsorted).
  rewrite Heq. simpl.
  assert (HK : forall i, In i K <->
            exists c, nth_error convs i = Some c
                      /\ first_match lower tokens c < length tokens).
  { intros i. rewrite Hin. simpl. tauto. }
  rewrite add_new_filter by apply positions_NoDup.
  set (B := filter (fun i => negb (existsb (Nat.eqb i) K))
              (positions (fun c => str_in (lower query) (lower (title c))) convs)).
  assert (HB : forall i, In i B <->
            ~ In i K /\ exists c, nth_error convs i = Some c
                                  /\ title_match lower query c = true).
  { intros i. unfold B. rewrite filter_In, positions_In, negb_true_iff.
    rewrite <- not_true_iff_false, existsb_eqb_In. unfold title_match. tauto. }
  assert (HBr : forall i, In i B -> rank lower tokens convs i = length tokens).
  { intros i Hi. apply HB in Hi as [Hni [c [Hc _]]]. unfold rank. rewrite Hc.
    pose proof (first_match_le tokens c) as Hle.
    destruct (Nat.eq_dec (first_match lower tokens c) (length tokens));
      [assumption|].
    exfalso. apply Hni, HK. exists c. split; [assumption|lia]. }
  split; [|split; [|exact HK]].
  - apply StronglySorted_app; [assumption| |].
    + apply StronglySorted_impl with (P := lt).
      * intros a b Ha Hb Hlt. right. rewrite (HBr a Ha), (HBr b Hb). auto.
      * apply StronglySorted_filter, positions_sorted.
    + intros a b Ha Hb. left. rewrite (HBr b Hb).
      apply HK in Ha as [c [Hc Hlt]]. unfold rank. now rewrite Hc.
  - intros i. rewrite in_app_iff, HK, HB, HK. split.
    + intros [[c [Hc H]]|[_ [c [Hc H]]]]; exists c; auto.
    + intros [c [Hc [H|H]]]; [left; eauto|].
      destruct (Nat.lt_ge_cases (first_match lower tokens c) (length tokens)).
      * left; eauto.
      * right. split; [|eauto]. intros [c' [Hc' H']].
        assert (c' = c) by congruence. subst. lia.
Qed.
End KeyOrder.

(* ===================================================================== *)
(** * The loop over the ranked scores *)

Lemma nth_error_conv_at convs i :
  i < length convs -> nth_error convs i = Some (conv_at convs i).
Proof. intros H. unfold conv_at. now apply nth_error_nth'. Qed.

Lemma nth_error_Some_conv_at convs i c :
  nth_error convs i = Some c -> conv_at convs i = c /\ i < length convs.
Proof.
  intros H. split.
  - unfold conv_at. now apply nth_error_nth.
  - apply nth_error_Some. congruence.
Qed.

Lemma result_limit_le limit n :
  1 <= n -> ((limit <=? Z.of_nat n)%Z = true <-> result_limit limit <= n).
Proof.
  intros Hn. unfold result_limit. rewrite Z.leb_le. lia.
Qed.

(** The loop returns the first [result_limit limit] ranked scores that
    pass the date filters, each with its conversation. *)
Lemma collect_results_spec convs ts_from ts_to limit items :
  Forall (fun p => fst p < length convs) items ->
  forall results,
    length results < result_limit limit ->
    collect_results convs ts_from ts_to limit items results
    = Some (results
            ++ map (fun p => (conv_at convs (fst p), snd p))
                 (firstn (result_limit limit - length results)
                    (filter (fun p => passes_dates ts_from ts_to
                                        (conv_at convs (fst p))) items))).
Proof.
  induction 1 as [|[idx score] items Hidx Hitems IH]; intros results Hlen.
  - simpl. rewrite firstn_nil. simpl. now rewrite app_nil_r.
  - simpl in Hidx. cbn [collect_results filter fst snd].
    rewrite (nth_error_conv_at convs idx Hidx). unfold passes_dates at 1.
    destruct (before_from ts_from _); simpl; [now apply IH|].
    destruct (after_to ts_to _); simpl; [now apply IH|].
    rewrite length_app. simpl.
    destruct (Z.leb_spec limit (Z.of_nat (length results + 1))) as [Hle|Hgt].
    + assert (Hk : result_limit limit <= length results + 1).
      { apply result_limit_le; [lia|]. now apply Z.leb_le. }
      replace (result_limit limit - length results) with 1 by lia.
      simpl. reflexivity.
    + assert (Hk : ~ result_limit limit <= length results + 1).
      { rewrite <- result_limit_le by lia. rewrite Z.leb_le. lia. }
      rewrite IH by (rewrite length_app; simpl; lia).
      rewrite length_app. simpl.
      replace (result_limit limit - length results)
        with (S (result_limit limit - (length results + 1))) by lia.
      simpl. now rewrite <- app_assoc.
Qed.

Lemma result_limit_pos limit : 0 < result_limit limit.
Proof. unfold result_limit. lia. Qed.

(* ===================================================================== *)
(** * Search *)

Lemma StronglySorted_NoDup {A} (P : A -> A -> Prop) l :
  (forall x, ~ P x x) -> StronglySorted P l -> NoDup l.
Proof.
  intros Hirr. induction 1 as [|x l Hs IH Hf]; constructor; [|assumption].
  intros Hin. rewrite Forall_forall in Hf. exact (Hirr x (Hf x Hin)).
Qed.

Section SearchFacts.
Variable lower : str -> str.
Variable decimal : codepoint -> option N.
Variable convs : list Conversation.

Lemma tie_order_irrefl tokens i : ~ tie_order lower tokens convs i i.
Proof. unfold tie_order. lia. Qed.

Lemma score_table_NoDup query : NoDup (map fst (score_table lower convs query)).
Proof.
  apply StronglySorted_NoDup with (P := tie_order lower (_tokenize lower query) convs).
  - apply tie_order_irrefl.
  - apply score_keys.
Qed.

Lemma score_table_valid query :
  Forall (fun p => fst p < length convs) (score_table lower convs query).
Proof.
  rewrite Forall_forall. intros p Hp. apply (in_map fst) in Hp.
  apply score_keys in Hp as [c [Hc _]]. apply nth_error_Some. congruence.
Qed.

Lemma score_table_length query :
  length (score_table lower convs query) <= length convs.
Proof.
  rewrite <- (length_map fst), <- (length_seq (length convs) 0).
  apply NoDup_incl_length; [apply score_table_NoDup|].
  intros i Hi. apply in_seq. apply in_map_iff in Hi as [p [<- Hp]].
  pose proof (score_table_valid query) as H. rewrite Forall_forall in H.
  specialize (H p Hp). lia.
Qed.

(** What [search] returns for a query with a token. *)
Lemma search_spec query limit date_from date_to :
  _tokenize lower query <> [] ->
  search lower decimal (_build_index lower convs) query limit date_from date_to
  = Some (map (result_at convs)
            (firstn (result_limit limit)
               (ranked_in_dates lower decimal convs query date_from date_to))).
Proof.
  intros Hne. unfold search.
  destruct (_tokenize lower query) as [|t ts] eqn:E; [contradiction|].
  rewrite build_conversations. rewrite <- E.
  rewrite collect_results_spec.
  - simpl. rewrite Nat.sub_0_r. reflexivity.
  - rewrite Forall_forall. intros p Hp. apply sorted_desc_In in Hp.
    pose proof (score_table_valid query) as H. rewrite Forall_forall in H. auto.
  - simpl. apply result_limit_pos.
Qed.

Lemma search_no_token query limit date_from date_to :
  _tokenize lower query = [] ->
  search lower decimal (_build_index lower convs) query limit date_from date_to
  = Some [].
Proof. intros H. unfold search. now rewrite H. Qed.

Lemma ranked_in_dates_sorted query date_from date_to :
  StronglySorted (fun p q => (snd q <= snd p)%R)
    (ranked_in_dates lower decimal convs query date_from date_to).
Proof. apply StronglySorted_filter, sorted_desc_sorted. Qed.

Lemma ranked_in_dates_ties query date_from date_to :
  StronglySorted
    (fun p q => snd p = snd q ->
                tie_order lower (_tokenize lower query) convs (fst p) (fst q))
    (ranked_in_dates lower decimal convs query date_from date_to).
Proof.
  apply StronglySorted_filter.
  apply (sorted_desc_stable snd
           (fun p q => tie_order lower (_tokenize lower query) convs (fst p) (fst q))).
  apply StronglySorted_map. apply score_keys.
Qed.

Lemma ranked_in_dates_In query date_from date_to p :
  In p (ranked_in_dates lower decimal convs query date_from date_to) <->
  dict_get Nat.eqb (score_table lower convs query) (fst p) = Some (snd p)
  /\ passes_dates (date_bound decimal date_from) (date_bound decimal date_to)
                  (conv_at convs (fst p)) = true.
Proof.
  unfold ranked_in_dates. rewrite filter_In, sorted_desc_In.
  destruct p as [i s]. simpl. split; intros [H1 H2]; split; auto.
  - apply (dict_In_get Nat.eqb Nat.eqb_eq); [apply score_table_NoDup|assumption].
  - now apply (dict_get_Some_In Nat.eqb Nat.eqb_eq).
Qed.

Lemma ranked_in_dates_length query date_from date_to :
  length (ranked_in_dates lower decimal convs query date_from date_to)
  <= length convs.
Proof.
  unfold ranked_in_dates.
  etransitivity; [apply filter_length_le|].
  rewrite (Permutation_length (sorted_desc_perm snd _)).
  apply score_table_length.
Qed.

(** A conversation that contains no token of the query has no
    accumulated score. *)
Lemma accumulate_no_token query idx conv :
  nth_error convs idx = Some conv ->
  (forall t, In t (_tokenize lower query) -> has_term lower t conv = false) ->
  dict_get Nat.eqb (accumulate (_build_index lower convs) (_tokenize lower query)) idx
  = None.
Proof.
  intros Hc Hno. apply (dict_get_None Nat.eqb Nat.eqb_eq).
  intros Hin. apply score_keys in Hin as [c [Hc' Hlt]].
  assert (c = conv) by congruence. subst c.
  apply first_match_lt in Hlt as [t [Ht1 Ht2]].
  rewrite (Hno t Ht1) in Ht2. discriminate.
Qed.
End SearchFacts.

(** C1 (as amended): the results of [search] are in descending order of
    score; they are the conversations at the positions [ranked] of the
    collection, and of two results of equal score the one comes first
    whose conversation contains an earlier token of the query (a
    conversation that contains none, matched by its title alone, comes
    last); between conversations with the same first token the order is
    that of the collection. *)
Theorem search_ranking (lower : str -> str) (decimal : codepoint -> option N)
    (convs : list Conversation) (query : str) (limit : Z)
    (date_from date_to : option str) :
  exists ranked : list (nat * R),
    search lower decimal (_build_index lower convs) query limit date_from date_to
    = Some (map (result_at convs) ranked)
    /\ StronglySorted (fun a b : Conversation * R => (snd b <= snd a)%R)
         (map (result_at convs) ranked)
    /\ Forall (fun p => nth_error convs (fst p) = Some (conv_at convs (fst p))) ranked
    /\ StronglySorted (fun p q => (snd q <= snd p)%R) ranked
    /\ StronglySorted
         (fun p q => snd p = snd q ->
                     tie_order lower (_tokenize lower query) convs (fst p) (fst q))
         ranked.
Proof.
  destruct (_tokenize lower query) as [|t ts] eqn:E.
  - exists []. rewrite search_no_token by assumption.
    repeat split; constructor.
  - exists (firstn (result_limit limit)
              (ranked_in_dates lower decimal convs query date_from date_to)).
    rewrite <- E. split; [apply search_spec; congruence|]. split; [|split; [|split]].
    + apply StronglySorted_map. unfold result_at. simpl.
      apply StronglySorted_firstn, ranked_in_dates_sorted.
    + rewrite Forall_forall. intros p Hp. apply In_firstn in Hp.
      apply ranked_in_dates_In in Hp as [Hp _].
      apply (dict_get_Some_In Nat.eqb Nat.eqb_eq) in Hp.
      apply nth_error_conv_at.
      pose proof (score_table_valid lower convs query) as H.
      rewrite Forall_forall in H. exact (H _ Hp).
    + apply StronglySorted_firstn, ranked_in_dates_sorted.
    + apply StronglySorted_firstn, ranked_in_dates_ties.
Qed.


(** C10: a conversation that contains no token of the query and whose
    title matches is in the score table with the score 0; when it passes
    the date filters it is among the ranked results, of which [search]
    returns the first [result_limit limit] (all of them when [limit] is
    at least the size of the collection); and in the results no positive
    score follows a score of zero. *)
Theorem title_only_match_scores_zero (lower : str -> str)
    (decimal : codepoint -> option N) (convs : list Conversation)
    (query : str) (limit : Z) (date_from date_to : option str)
    (idx : nat) (conv : Conversation) :
  _tokenize lower query <> [] ->
  nth_error convs idx = Some conv ->
  (forall t, In t (_tokenize lower query) -> has_term lower t conv = false) ->
  str_in (lower query) (lower (title conv)) = true ->
  let ranked := ranked_in_dates lower decimal convs query date_from date_to in
  exists results,
    search lower decimal (_build_index lower convs) query limit date_from date_to
    = Some results
    /\ results = map (result_at convs) (firstn (result_limit limit) ranked)
    /\ dict_get Nat.eqb (score_table lower convs query) idx = Some 0%R
    /\ (passes_dates (date_bound decimal date_from) (date_bound decimal date_to)
                     conv = true ->
        In (idx, 0%R) ranked
        /\ ((Z.of_nat (length convs) <= limit)%Z -> In (conv, 0%R) results))
    /\ (forall before r after,
          results = before ++ r :: after -> snd r = 0%R ->
          Forall (fun r' => ~ (0 < snd r')%R) after).
Proof.
  intros Hne Hc Hno Hm ranked.
  exists (map (result_at convs) (firstn (result_limit limit) ranked)).
  split; [now apply search_spec|]. split; [reflexivity|].
  assert (Hs : dict_get Nat.eqb (score_table lower convs query) idx = Some 0%R).
  { unfold score_table. rewrite boost_get, build_conversations, Hc, Hm.
    unfold dict_get_default. rewrite (accumulate_no_token lower convs query idx conv Hc Hno).
    f_equal. lra. }
  split; [exact Hs|]. split.
  - intros Hp.
    assert (Hin : In (idx, 0%R) ranked).
    { apply ranked_in_dates_In. simpl. split; [exact Hs|].
      now rewrite (proj1 (nth_error_Some_conv_at convs idx conv Hc)). }
    split; [exact Hin|]. intros Hlim.
    rewrite firstn_all2.
    + apply in_map_iff. exists (idx, 0%R). split; [|exact Hin].
      unfold result_at. simpl.
      now rewrite (proj1 (nth_error_Some_conv_at convs idx conv Hc)).
    + etransitivity; [apply ranked_in_dates_length|].
      unfold result_limit. lia.
  - intros before r after Heq Hr.
    assert (Hsorted : StronglySorted (fun a b : Conversation * R => (snd b <= snd a)%R)
                        (before ++ r :: after)).
    { rewrite <- Heq. apply StronglySorted_map.
      apply StronglySorted_firstn. unfold result_at. simpl.
      apply ranked_in_dates_sorted. }
    apply StronglySorted_app_inv in Hsorted as (_ & Hs2 & _).
    inversion Hs2 as [|? ? _ Hf]; subst.
    eapply Forall_impl; [|exact Hf]. simpl. intros r' Hle. lra.
Qed.

(** Evaluation of the engine on a worked collection: everything but the
    arithmetic of the floats is computed; the comparisons of floats that
    are left are then settled one by one. *)
Ltac eval_engine :=
  cbv -[Rplus Rmult Rminus Ropp Rdiv Rinv ln INR IZR Rltb Rtruthy Rlt_dec
        Req_dec_T Rlt Rle Rgt Rge].

Ltac Rltb_yes := rewrite (proj2 (Rltb_true _ _)) by lra.

(* ===================================================================== *)
(** * Date filters *)

(** A date that does not parse leaves its bound absent. *)
Lemma date_bound_unparsable decimal s :
  _parse_date decimal s = None -> date_bound decimal (Some s) = None.
Proof. intros H. unfold date_bound. rewrite H. now destruct (nonempty s). Qed.

Lemma passes_dates_no_bound c : passes_dates None None c = true.
Proof. reflexivity. Qed.

(** With bounds that are present and not zero, a conversation is skipped
    exactly when it was created before the first or after the second. *)
Lemma passes_dates_bounds (f t : R) (c : Conversation) :
  f <> 0%R -> t <> 0%R ->
  passes_dates (Some f) (Some t) c = false
  <-> (or_zero (create_time c) < f \/ t < or_zero (create_time c))%R.
Proof.
  intros Hf Ht. unfold passes_dates, before_from, after_to.
  rewrite (proj2 (Rtruthy_true f) Hf), (proj2 (Rtruthy_true t) Ht). simpl.
  rewrite andb_false_iff, !negb_false_iff, !Rltb_true. reflexivity.
Qed.

(** A bound of zero skips nothing. *)
Lemma passes_dates_zero_bound (c : Conversation) :
  passes_dates (Some 0%R) (Some 0%R) c = true.
Proof.
  unfold passes_dates, before_from, after_to. now rewrite Rtruthy_zero.
Qed.

(** C3: with [date_to = "1970-01-01"], which parses to the timestamp 0,
    [search] returns a conversation created in 2023, after that date; with
    [date_to = "1970-01-02"] it does not. *)
Theorem date_to_epoch_filters_nothing :
  _parse_date ascii_decimal (lit "1970-01-01") = Some 0%R
  /\ create_time conv_2023 = Some 1700000000%R
  /\ (exists score,
        search str_lower ascii_decimal (_build_index str_lower [conv_2023]) (lit "a")
               10 None (Some (lit "1970-01-01"))
        = Some [(conv_2023, score)])
  /\ search str_lower ascii_decimal (_build_index str_lower [conv_2023]) (lit "a")
            10 None (Some (lit "1970-01-02"))
     = Some [].
Proof.
  split; [reflexivity|]. split; [reflexivity|]. split.
  - eexists. eval_engine. rewrite Rtruthy_zero. reflexivity.
  - eval_engine. rewrite (proj2 (Rtruthy_true 86400)) by lra.
    Rltb_yes. reflexivity.
Qed.

(* ===================================================================== *)
(** * Ties *)

(** C1 (as stated) fails: for the query [a b] the two conversations of
    [tie_collection] have the same score, and the second of the
    collection is returned first. *)
Lemma ties_follow_query_tokens :
  exists score,
    search str_lower ascii_decimal (_build_index str_lower tie_collection) (lit "a b")
           10 None None
    = Some [(conv_a, score); (conv_b, score)].
Proof.
  eexists. eval_engine. rewrite !Rltb_irrefl. reflexivity.
Qed.

(** C8 (as stated) fails in two places.  The parsed collection of
    [tie_export] is [conv_b; conv_a], newest first, and the tie of the
    query [a b] is broken the other way round.  And a conversation
    without a [create_time] is not at the end when another was created
    before the epoch: [undated_export] is parsed into the conversation
    without a [create_time] followed by the one created at [-1]. *)
Lemma collection_order_as_stated_fails :
  parse_chatgpt_export 1 tie_export = Some [conv_b; conv_a]
  /\ (exists score,
        search str_lower ascii_decimal (_build_index str_lower [conv_b; conv_a])
               (lit "a b") 10 None None
        = Some [(conv_a, score); (conv_b, score)])
  /\ parse_chatgpt_export 1 undated_export = Some [conv_undated; conv_early]
  /\ create_time conv_undated = None
  /\ create_time conv_early = Some (-1)%R.
Proof.
  split; [|split; [|split; [|split; reflexivity]]].
  - eval_engine. Rltb_yes. reflexivity.
  - eexists. eval_engine. rewrite !Rltb_irrefl. reflexivity.
  - eval_engine. rewrite (proj2 (Rltb_false _ _)) by lra. reflexivity.
Qed.

(* ===================================================================== *)
(** * Listing *)

Lemma firstn_min_length {A} n (l : list A) :
  firstn (Nat.min n (length l)) l = firstn n l.
Proof.
  destruct (Nat.le_ge_cases n (length l)) as [H|H].
  - now rewrite Nat.min_l.
  - rewrite Nat.min_r by assumption. now rewrite firstn_all, firstn_all2.
Qed.

(** The page of a listing is the slice of the collection that starts at
    [offset] and holds at most [limit] conversations. *)
Lemma listed_slice (convs : list Conversation) (offset limit : nat) :
  listed (chatgpt_list_conversations convs offset limit)
  = firstn limit (skipn offset convs).
Proof.
  unfold chatgpt_list_conversations.
  destruct convs as [|c l]; [now rewrite skipn_nil, firstn_nil|].
  cbn [listed]. unfold slice. generalize (c :: l). intros convs.
  destruct (Nat.le_ge_cases (length convs) offset) as [H|H].
  - rewrite (Nat.min_r offset) by assumption.
    rewrite skipn_all, (skipn_all2 _ H). now rewrite !firstn_nil.
  - rewrite (Nat.min_l offset) by assumption.
    replace (Nat.min (offset + limit) (length convs) - offset)
      with (Nat.min limit (length (skipn offset convs))).
    + apply firstn_min_length.
    + rewrite length_skipn. lia.
Qed.

(** C9 (as amended): the page is the contiguous slice of the collection
    from [offset] with at most [limit] conversations; a collection that
    is not empty has its size reported as the total; for an empty one the
    listing is the notice that nothing is loaded; an offset beyond the
    total gives an empty page. *)
Theorem list_page_slice (convs : list Conversation) (offset limit : nat) :
  1 <= limit ->
  let l := chatgpt_list_conversations convs offset limit in
  listed l = firstn limit (skipn offset convs)
  /\ length (listed l) <= limit
  /\ (convs <> [] -> reported_total l = Some (length convs))
  /\ (convs = [] -> l = NoConversationsLoaded)
  /\ (length convs <= offset -> listed l = []).
Proof.
  intros _ l. unfold l. rewrite listed_slice. split; [reflexivity|].
  split; [apply firstn_le_length|]. split; [|split].
  - destruct convs; [congruence|reflexivity].
  - intros ->. reflexivity.
  - intros H. now rewrite skipn_all2, firstn_nil.
Qed.

(** Over five conversations, offset 2 and limit 2 give the third and the
    fourth with the total 5; offset 10 gives an empty page with the
    total 5. *)
Lemma list_page_slice_witness :
  listed (chatgpt_list_conversations five_conversations 2 2)
  = [nth 2 five_conversations no_conversation;
     nth 3 five_conversations no_conversation]
  /\ reported_total (chatgpt_list_conversations five_conversations 2 2) = Some 5
  /\ listed (chatgpt_list_conversations five_conversations 10 2) = []
  /\ reported_total (chatgpt_list_conversations five_conversations 10 2) = Some 5.
Proof.
  destruct (list_page_slice five_conversations 2 2 (le_n_S 0 1 (Nat.le_0_l 1)))
    as (H1 & _ & H2 & _).
  destruct (list_page_slice five_conversations 10 2 (le_n_S 0 1 (Nat.le_0_l 1)))
    as (_ & _ & H3 & _ & H4).
  split; [exact H1|]. split; [apply H2; discriminate|].
  split; [apply H4; simpl; lia|]. apply H3; discriminate.
Defined.

(** C9 (as stated) fails for the empty collection: no total is
    reported. *)
Lemma empty_collection_reports_no_total :
  chatgpt_list_conversations [] 0 2 = NoConversationsLoaded
  /\ reported_total (chatgpt_list_conversations [] 0 2)
     <> Some (length (@nil Conversation)).
Proof. split; [reflexivity|discriminate]. Qed.

(* ===================================================================== *)
(** * The collection *)

Lemma collect_conversations_returns raw :
  Forall (fun e => finite_walk (e_mapping e)) raw ->
  exists fuel0, forall fuel, fuel0 <= fuel ->
    forall acc, exists coll, collect_conversations fuel raw acc = Some coll.
Proof.
  induction 1 as [|e raw He _ [fuel0 IH]].
  - exists 0. intros fuel _ acc. exists acc. reflexivity.
  - assert (Hconv : exists fuel1, forall fuel, fuel1 <= fuel ->
               exists conv, entry_conversation fuel e = Some conv).
    { unfold entry_conversation. destruct (e_mapping e) as [|kv m] eqn:Em.
      - exists 0. intros; eexists; reflexivity.
      - unfold _flatten_message_tree. destruct (find_root (kv :: m)) as [root|] eqn:Er.
        + destruct (He root Er) as [p Hp].
          exists (S (length p)). intros fuel Hf.
          rewrite (walk_walked _ _ _ Hp) by lia. eexists; reflexivity.
        + exists 0. intros; eexists; reflexivity. }
    destruct Hconv as [fuel1 Hconv].
    exists (Nat.max fuel0 fuel1). intros fuel Hf acc. simpl.
    destruct (Hconv fuel) as [conv ->]; [lia|].
    apply IH. lia.
Qed.

(** With enough fuel the parser returns, on every export whose mappings
    have a walk that ends. *)
Lemma parse_returns raw :
  Forall (fun e => finite_walk (e_mapping e)) raw ->
  exists fuel0, forall fuel, fuel0 <= fuel ->
    exists coll, parse_chatgpt_export fuel raw = Some coll.
Proof.
  intros H. destruct (collect_conversations_returns raw H) as [fuel0 Hc].
  exists fuel0. intros fuel Hf. unfold parse_chatgpt_export.
  destruct (Hc fuel Hf []) as [coll ->]. eexists; reflexivity.
Qed.

(** C8 (as amended): the parsed collection is in descending order of
    [create_time], a conversation without one counting as zero: no
    conversation created after the epoch follows it, so that it is at
    the end, followed only by conversations without a [create_time],
    when every [create_time] of the collection is positive; the listing
    pages are slices of this order; and of two results of [search] with
    the same score the one comes first whose conversation contains an
    earlier token of the query, the order of the collection deciding
    between results whose first matching token is the same. *)
Theorem collection_order (fuel : nat) (raw : list entry) (coll : list Conversation) :
  parse_chatgpt_export fuel raw = Some coll ->
  StronglySorted
    (fun a b => (or_zero (create_time b) <= or_zero (create_time a))%R) coll
  /\ (forall before c after,
        coll = before ++ c :: after -> create_time c = None ->
        Forall (fun c' => ~ (0 < or_zero (create_time c'))%R) after
        /\ (Forall (fun c' => forall t, create_time c' = Some t -> (0 < t)%R)
                   coll ->
            Forall (fun c' => create_time c' = None) after))
  /\ (forall offset limit,
        listed (chatgpt_list_conversations coll offset limit)
        = firstn limit (skipn offset coll))
  /\ (forall lower decimal query limit date_from date_to,
      exists ranked,
        search lower decimal (_build_index lower coll) query limit date_from date_to
        = Some (map (result_at coll) ranked)
        /\ StronglySorted
             (fun p q =>
                snd p = snd q ->
                tie_order lower (_tokenize lower query) coll (fst p) (fst q))
             ranked
        /\ StronglySorted
             (fun p q =>
                snd p = snd q ->
                rank lower (_tokenize lower query) coll (fst p)
                = rank lower (_tokenize lower query) coll (fst q) ->
                fst p < fst q)
             ranked).
Proof.
  unfold parse_chatgpt_export.
  destruct (collect_conversations fuel raw []) as [l|]; [|discriminate].
  intros [= <-].
  set (coll := sorted_desc (fun c => or_zero (create_time c)) l).
  assert (Hs : StronglySorted
                 (fun a b => (or_zero (create_time b) <= or_zero (create_time a))%R)
                 coll) by apply sorted_desc_sorted.
  split; [exact Hs|]. split; [|split].
  - intros before c after Heq Hc.
    assert (Hafter : Forall (fun c' => ~ (0 < or_zero (create_time c'))%R) after).
    { rewrite Heq in Hs.
      apply StronglySorted_app_inv in Hs as (_ & Hs2 & _).
      inversion Hs2 as [|? ? _ Hf]; subst.
      eapply Forall_impl; [|exact Hf]. simpl. rewrite Hc. simpl.
      intros c' Hle. lra. }
    split; [exact Hafter|]. intros Hpos.
    rewrite Forall_forall in *. intros c' Hc'.
    destruct (create_time c') as [t|] eqn:Et; [|reflexivity].
    exfalso. apply (Hafter c' Hc'). rewrite Et. simpl.
    apply (Hpos c'); [|exact Et].
    rewrite Heq. apply in_or_app. right. now right.
  - intros offset limit. apply listed_slice.
  - intros lower decimal query limit date_from date_to.
    assert (E : _tokenize lower query = [] \/ _tokenize lower query <> [])
      by (destruct (_tokenize lower query); [left; reflexivity|right; discriminate]).
    destruct E as [E|E].
    + exists []. rewrite search_no_token by assumption.
      split; [reflexivity|]. split; constructor.
    + exists (firstn (result_limit limit)
                (ranked_in_dates lower decimal coll query date_from date_to)).
      split; [now apply search_spec|]. split.
      * apply StronglySorted_firstn, ranked_in_dates_ties.
      * apply StronglySorted_firstn.
        eapply StronglySorted_impl; [|apply ranked_in_dates_ties].
        intros p q _ _ Ht Hsc Hr.
        destruct (Ht Hsc) as [Hlt|[_ Hlt]]; [lia|exact Hlt].
Qed.

(** The export [tie_export] is parsed into [conv_b; conv_a]: the newer
    conversation first. *)
Lemma collection_order_witness :
  parse_chatgpt_export 1 tie_export = Some tie_collection
  /\ StronglySorted
       (fun a b => (or_zero (create_time b) <= or_zero (create_time a))%R)
       tie_collection.
Proof.
  assert (H : parse_chatgpt_export 1 tie_export = Some tie_collection).
  { eval_engine. Rltb_yes. reflexivity. }
  split; [exact H|].
  exact (proj1 (collection_order 1 tie_export tie_collection H)).
Defined.

(* ===================================================================== *)
(** * Worked searches *)


(** In [prefix_collection] the conversation [conv_ab] does not contain
    the token [a], and its title [ab] contains the query [a]: its score
    is 0. *)
Lemma title_only_match_scores_zero_witness :
  dict_get Nat.eqb (score_table str_lower prefix_collection (lit "a")) 0
  = Some 0%R.
Proof.
  destruct (title_only_match_scores_zero str_lower ascii_decimal prefix_collection
              (lit "a") 10 None None 0 conv_ab)
    as (results & _ & _ & H & _).
  - discriminate.
  - reflexivity.
  - intros t [<-|[]]. reflexivity.
  - reflexivity.
  - exact H.
Defined.

(** In [tie_collection] the term [a] is in one conversation and the term
    [z] in both: the idf of [a] is the larger. *)
Lemma idf_stored_witness :
  exists idf_a idf_z,
    dict_get str_eqb (_idf (_build_index str_lower tie_collection)) (lit "a") = Some idf_a
    /\ dict_get str_eqb (_idf (_build_index str_lower tie_collection)) (lit "z") = Some idf_z
    /\ (idf_a > idf_z)%R.
Proof.
  destruct (idf_stored str_lower tie_collection) as [Hget Hmono].
  exists (ln (INR (2 + 1) / INR (1 + 1)) + 1)%R, (ln (INR (2 + 1) / INR (2 + 1)) + 1)%R.
  assert (Ha : dict_get str_eqb (_idf (_build_index str_lower tie_collection)) (lit "a")
               = Some (ln (INR (2 + 1) / INR (1 + 1)) + 1)%R) by apply Hget.
  assert (Hz : dict_get str_eqb (_idf (_build_index str_lower tie_collection)) (lit "z")
               = Some (ln (INR (2 + 1) / INR (2 + 1)) + 1)%R) by apply Hget.
  split; [exact Ha|]. split; [exact Hz|].
  apply (Hmono (lit "a") (lit "z") _ _ Ha Hz). vm_compute. lia.
Defined.

(* ===================================================================== *)
(** * Counts of a counter *)

Lemma fold_left_add_sum l : forall a, fold_left Nat.add l a = a + list_sum l.
Proof.
  induction l as [|x l IH]; intros a; simpl; [lia|]. rewrite IH. lia.
Qed.

Lemma dict_set_sum (d : dict str nat) t v :
  list_sum (map snd (dict_set str_eqb d t v)) + dict_get_default str_eqb d t 0
  = list_sum (map snd d) + v.
Proof.
  unfold dict_get_default. induction d as [|[k c] d IH]; simpl.
  - lia.
  - destruct (str_eqb t k); simpl; lia.
Qed.

Lemma counter_fold_count ts :
  forall (d : dict str nat) t',
    dict_get_default str_eqb
      (fold_left
         (fun c t => dict_set str_eqb c t (dict_get_default str_eqb c t 0 + 1))
         ts d) t' 0
    = dict_get_default str_eqb d t' 0 + occurrences t' ts.
Proof.
  unfold occurrences.
  induction ts as [|t ts IH]; intros d t'; simpl; [lia|].
  rewrite IH, bump_get.
  destruct (str_eqb t t') eqn:E.
  - apply str_eqb_eq in E. subst. rewrite str_eqb_refl. simpl. lia.
  - replace (str_eqb t' t) with false; [lia|].
    symmetry. apply str_eqb_neq. apply str_eqb_neq in E. congruence.
Qed.

Lemma counter_fold_sum ts :
  forall d : dict str nat,
    list_sum (map snd
      (fold_left
         (fun c t => dict_set str_eqb c t (dict_get_default str_eqb c t 0 + 1))
         ts d))
    = list_sum (map snd d) + length ts.
Proof.
  induction ts as [|t ts IH]; intros d; simpl; [lia|].
  rewrite IH. pose proof (dict_set_sum d t (dict_get_default str_eqb d t 0 + 1)). lia.
Qed.

(** A counter holds each token with the number of its occurrences. *)
Lemma counter_count tokens t :
  dict_get str_eqb (counter tokens) t
  = if occurrences t tokens =? 0 then None else Some (occurrences t tokens).
Proof.
  rewrite positive_get_None.
  - unfold counter. rewrite counter_fold_count. reflexivity.
  - apply fold_bump_positive. constructor.
Qed.

(** The counts of a counter add up to the number of tokens. *)
Lemma counter_total tokens :
  fold_left Nat.add (map snd (counter tokens)) 0 = length tokens.
Proof.
  rewrite fold_left_add_sum. unfold counter. now rewrite counter_fold_sum.
Qed.

Lemma occurrences_pos t tokens : 0 < occurrences t tokens <-> In t tokens.
Proof.
  unfold occurrences. induction tokens as [|x tokens IH]; simpl; [lia|].
  destruct (str_eqb t x) eqn:E; simpl.
  - apply str_eqb_eq in E. split; [auto|lia].
  - apply str_eqb_neq in E. rewrite IH. split; [auto|].
    intros [H|H]; [congruence|assumption].
Qed.

Lemma occurrences_le t tokens : occurrences t tokens <= length tokens.
Proof. apply filter_length_le. Qed.

(* ===================================================================== *)
(** * Values of the postings *)

Section PostingValues.
Variable lower : str -> str.

Lemma compute_index_values convs t :
  forall s (index : dict str (list (nat * R))),
    dict_get_default str_eqb
      (fold_left
         (fun index '(idx, tf) =>
            let total_tokens :=
              let s := fold_left Nat.add (map snd tf) 0 in
              if s =? 0 then 1 else s in
            fold_left
              (fun index '(term, count) =>
                 let normalized_tf := (INR count / INR total_tokens)%R in
                 dict_set str_eqb index term
                   (dict_get_default str_eqb index term []
                    ++ [(idx, normalized_tf)]))
              tf index)
         (combine (seq s (length convs))
                  (map (fun c => counter (doc_tokens lower c)) convs))
         index) t []
    = dict_get_default str_eqb index t []
      ++ flat_map (fun '(i, c) =>
                     if has_term lower t c then [(i, tf_value lower t c)] else [])
           (combine (seq s (length convs)) convs).
Proof.
  induction convs as [|c convs IH]; intros s index; simpl.
  - now rewrite app_nil_r.
  - rewrite IH. rewrite index_doc_get by apply counter_NoDup.
    rewrite <- app_assoc. f_equal. f_equal.
    rewrite counter_count, counter_total.
    destruct (has_term lower t c) eqn:E.
    + apply has_term_In in E. pose proof (proj2 (occurrences_pos t _) E) as Hpos.
      pose proof (occurrences_le t (doc_tokens lower c)) as Hle.
      destruct (Nat.eqb_spec (occurrences t (doc_tokens lower c)) 0); [lia|].
      destruct (Nat.eqb_spec (length (doc_tokens lower c)) 0); [lia|].
      reflexivity.
    + destruct (Nat.eqb_spec (occurrences t (doc_tokens lower c)) 0);
        [reflexivity|].
      assert (H : In t (doc_tokens lower c)) by (apply occurrences_pos; lia).
      apply has_term_In in H. congruence.
Qed.

(** The postings of a term in the index of a collection. *)
Lemma build_postings_values convs t :
  dict_get_default str_eqb (_index (_build_index lower convs)) t []
  = postings_of lower t convs.
Proof.
  unfold _build_index.
  destruct (count_terms_spec lower convs) as (df & Heq & _).
  rewrite Heq. cbn [_index]. unfold compute_index, enumerate.
  rewrite length_map. exact (compute_index_values convs t 0 []).
Qed.

Lemma doc_frequency_le t convs : doc_frequency lower t convs <= length convs.
Proof. apply filter_length_le. Qed.

Lemma doc_frequency_pos t convs c :
  In c convs -> has_term lower t c = true -> 0 < doc_frequency lower t convs.
Proof.
  intros Hin Ht. unfold doc_frequency.
  assert (H : In c (filter (has_term lower t) convs)) by (apply filter_In; auto).
  destruct (filter (has_term lower t) convs); [contradiction|simpl; lia].
Qed.

Lemma tf_value_zero t c : has_term lower t c = false -> tf_value lower t c = 0%R.
Proof.
  intros H. unfold tf_value.
  replace (occurrences t (doc_tokens lower c)) with 0.
  - simpl. unfold Rdiv. apply Rmult_0_l.
  - destruct (Nat.eq_dec (occurrences t (doc_tokens lower c)) 0) as [E|E];
      [congruence|].
    assert (Hin : In t (doc_tokens lower c)) by (apply occurrences_pos; lia).
    apply has_term_In in Hin. congruence.
Qed.

Lemma tf_value_range t c :
  has_term lower t c = true -> (0 < tf_value lower t c <= 1)%R.
Proof.
  intros H. apply has_term_In in H. unfold tf_value.
  pose proof (proj2 (occurrences_pos t _) H) as Hpos.
  pose proof (occurrences_le t (doc_tokens lower c)) as Hle.
  assert (H1 : (0 < INR (occurrences t (doc_tokens lower c)))%R)
    by (apply lt_0_INR; lia).
  assert (H2 : (0 < INR (length (doc_tokens lower c)))%R)
    by (apply lt_0_INR; lia).
  assert (H3 : (INR (occurrences t (doc_tokens lower c))
                <= INR (length (doc_tokens lower c)))%R) by (apply le_INR; lia).
  split.
  - now apply Rdiv_lt_0_compat.
  - apply Rmult_le_reg_r with (r := INR (length (doc_tokens lower c)));
      [assumption|].
    unfold Rdiv. rewrite Rmult_assoc, Rinv_l by lra. lra.
Qed.
End PostingValues.

(** The idf of a term that occurs is at least one. *)
Lemma idf_formula_ge_1 n df : df <= n -> (1 <= idf_formula n df)%R.
Proof.
  intros H. unfold idf_formula.
  assert (H1 : (0 < INR (df + 1))%R) by (apply lt_0_INR; lia).
  assert (H2 : (INR (df + 1) <= INR (n + 1))%R) by (apply le_INR; lia).
  assert (H3 : (1 <= INR (n + 1) / INR (df + 1))%R).
  { apply Rmult_le_reg_r with (r := INR (df + 1)); [assumption|].
    unfold Rdiv. rewrite Rmult_assoc, Rinv_l by lra. lra. }
  assert (H4 : (0 <= ln (INR (n + 1) / INR (df + 1)))%R).
  { rewrite <- ln_1. destruct H3 as [H3|H3].
    - left. apply ln_increasing; lra.
    - rewrite <- H3. lra. }
  lra.
Qed.

(* ===================================================================== *)
(** * Values of the score table *)

Lemma scores_step_get (idf : R) (ps : list (nat * R)) (idx : nat) :
  forall scores : dict nat R,
    dict_get_default Nat.eqb
      (fold_left
         (fun scores '(idx, tf) =>
            dict_set Nat.eqb scores idx
              (dict_get_default Nat.eqb scores idx 0 + tf * idf)%R)
         ps scores) idx 0%R
    = (dict_get_default Nat.eqb scores idx 0 + posting_sum idx idf ps)%R.
Proof.
  induction ps as [|[i tf] ps IH]; intros scores; simpl; [lra|].
  rewrite IH. destruct (Nat.eqb_spec i idx) as [->|Hne].
  - rewrite (dict_get_default_set_eq Nat.eqb Nat.eqb_eq). lra.
  - rewrite (dict_get_default_set_neq Nat.eqb Nat.eqb_eq) by assumption. lra.
Qed.

Section ScoreValues.
Variable lower : str -> str.
Variable convs : list Conversation.

Lemma posting_sum_postings_from t idf idx l :
  forall s,
    posting_sum idx idf
      (flat_map (fun '(i, c) =>
                   if has_term lower t c then [(i, tf_value lower t c)] else [])
                (combine (seq s (length l)) l))
    = match (if s <=? idx then nth_error l (idx - s) else None) with
      | Some c => (tf_value lower t c * idf)%R
      | None => 0%R
      end.
Proof.
  induction l as [|c l IH]; intros s; simpl.
  - destruct (s <=? idx); [|reflexivity]. now destruct (idx - s).
  - assert (Hhead : forall rest,
              posting_sum idx idf
                ((if has_term lower t c then [(s, tf_value lower t c)] else []) ++ rest)
              = ((if s =? idx then tf_value lower t c * idf else 0)
                 + posting_sum idx idf rest)%R).
    { intros rest. destruct (has_term lower t c) eqn:E; simpl; [reflexivity|].
      rewrite (tf_value_zero lower t c E). destruct (s =? idx); lra. }
    rewrite Hhead, IH.
    destruct (Nat.leb_spec (S s) idx) as [Hlt|Hge].
    + replace (s <=? idx) with true by (symmetry; apply Nat.leb_le; lia).
      replace (s =? idx) with false by (symmetry; apply Nat.eqb_neq; lia).
      replace (idx - s) with (S (idx - S s)) by lia. simpl. lra.
    + destruct (Nat.leb_spec s idx) as [Hle|Hgt].
      * assert (idx = s) by lia. subst idx.
        rewrite Nat.eqb_refl, Nat.sub_diag. simpl. lra.
      * replace (s =? idx) with false by (symmetry; apply Nat.eqb_neq; lia). lra.
Qed.

Lemma posting_sum_postings t idf idx c :
  nth_error convs idx = Some c ->
  posting_sum idx idf (postings_of lower t convs) = (tf_value lower t c * idf)%R.
Proof.
  intros Hc. unfold postings_of, enumerate. rewrite posting_sum_postings_from.
  simpl. now rewrite Nat.sub_0_r, Hc.
Qed.

(** The idf that [search] reads for a token, against the term frequency
    of a conversation of the collection. *)
Lemma stored_idf_times_tf t c :
  In c convs ->
  (tf_value lower t c
   * dict_get_default str_eqb (_idf (_build_index lower convs)) t 0)%R
  = (tf_value lower t c
     * idf_formula (length convs) (doc_frequency lower t convs))%R.
Proof.
  intros Hin. unfold dict_get_default. rewrite build_idf.
  destruct (Nat.eqb_spec (doc_frequency lower t convs) 0) as [E|E]; [|reflexivity].
  destruct (has_term lower t c) eqn:Ht.
  - pose proof (doc_frequency_pos lower t convs c Hin Ht). lia.
  - rewrite (tf_value_zero lower t c Ht). lra.
Qed.

Lemma accumulate_get_from tokens idx c :
  nth_error convs idx = Some c ->
  forall scores : dict nat R,
    dict_get_default Nat.eqb
      (fold_left
         (fun scores token =>
            let idf := dict_get_default str_eqb
                         (_idf (_build_index lower convs)) token 0%R in
            fold_left
              (fun scores '(idx, tf) =>
                 dict_set Nat.eqb scores idx
                   (dict_get_default Nat.eqb scores idx 0 + tf * idf)%R)
              (dict_get_default str_eqb (_index (_build_index lower convs)) token [])
              scores)
         tokens scores) idx 0%R
    = (dict_get_default Nat.eqb scores idx 0 + tf_idf lower convs tokens c)%R.
Proof.
  intros Hc. induction tokens as [|t ts IH]; intros scores; simpl; [lra|].
  rewrite IH, scores_step_get, build_postings_values.
  rewrite (posting_sum_postings t _ idx c Hc).
  rewrite stored_idf_times_tf by (eapply nth_error_In; eassumption). lra.
Qed.

(** The accumulated score of a conversation is its TF-IDF sum. *)
Lemma accumulate_get tokens idx c :
  nth_error convs idx = Some c ->
  dict_get_default Nat.eqb (accumulate (_build_index lower convs) tokens) idx 0%R
  = tf_idf lower convs tokens c.
Proof.
  intros Hc. unfold accumulate. rewrite (accumulate_get_from tokens idx c Hc).
  simpl. unfold dict_get_default. simpl. lra.
Qed.

(** A score of the table is the TF-IDF sum of its conversation, doubled
    when the title matches. *)
Lemma score_table_get query idx c s :
  nth_error convs idx = Some c ->
  dict_get Nat.eqb (score_table lower convs query) idx = Some s ->
  s = (tf_idf lower convs (_tokenize lower query) c
       * (if title_match lower query c then 2 else 1))%R.
Proof.
  intros Hc. unfold score_table. rewrite boost_get, build_conversations, Hc.
  unfold title_match. destruct (str_in (lower query) (lower (title c))).
  - intros [= <-]. now rewrite (accumulate_get _ idx c Hc).
  - intros H. rewrite <- (accumulate_get _ idx c Hc).
    unfold dict_get_default. rewrite H. lra.
Qed.

Lemma tf_idf_nonneg tokens c : In c convs -> (0 <= tf_idf lower convs tokens c)%R.
Proof.
  intros Hin. induction tokens as [|t ts IH]; simpl; [lra|].
  pose proof (idf_formula_ge_1 (length convs) (doc_frequency lower t convs)
                (doc_frequency_le lower t convs)) as Hidf.
  destruct (has_term lower t c) eqn:Ht.
  - pose proof (tf_value_range lower t c Ht) as [Htf _]. nra.
  - rewrite (tf_value_zero lower t c Ht). lra.
Qed.

Lemma tf_idf_pos tokens c :
  In c convs ->
  (0 < tf_idf lower convs tokens c)%R
  <-> exists t, In t tokens /\ has_term lower t c = true.
Proof.
  intros Hin. induction tokens as [|t ts IH]; simpl.
  - split; [lra|]. intros [t [[] _]].
  - pose proof (idf_formula_ge_1 (length convs) (doc_frequency lower t convs)
                  (doc_frequency_le lower t convs)) as Hidf.
    pose proof (tf_idf_nonneg ts c Hin) as Hnn.
    destruct (has_term lower t c) eqn:Ht.
    + pose proof (tf_value_range lower t c Ht) as [Htf _].
      split; [intros _; exists t; auto|]. intros _. nra.
    + rewrite (tf_value_zero lower t c Ht).
      replace (tf_idf lower convs ts c
               + 0 * idf_formula (length convs) (doc_frequency lower t convs))%R
        with (tf_idf lower convs ts c) by lra.
      rewrite IH. split.
      * intros [t' [H1 H2]]. exists t'. auto.
      * intros [t' [[<-|H1] H2]]; [congruence|]. exists t'. auto.
Qed.
End ScoreValues.

(* ===================================================================== *)
(** * What search returns *)

Lemma filter_map_comm {A B} (f : B -> bool) (g : A -> B) l :
  filter f (map g l) = map g (filter (fun a => f (g a)) l).
Proof.
  induction l as [|a l IH]; simpl; [reflexivity|].
  destruct (f (g a)); simpl; now rewrite IH.
Qed.

Lemma NoDup_map_filter {A B} (g : A -> B) (f : A -> bool) l :
  NoDup (map g l) -> NoDup (map g (filter f l)).
Proof.
  induction l as [|a l IH]; simpl; intros H; [constructor|].
  inversion H as [|? ? Hni Hnd]; subst. destruct (f a); simpl; [|auto].
  constructor; [|auto]. intros Hin. apply Hni.
  apply in_map_iff in Hin as [x [Hx Hin]]. apply filter_In in Hin as [Hin _].
  apply in_map_iff. eauto.
Qed.

Lemma NoDup_map_firstn {A B} (g : A -> B) n l :
  NoDup (map g l) -> NoDup (map g (firstn n l)).
Proof.
  revert n. induction l as [|a l IH]; intros [|n] H; simpl; try constructor.
  - inversion H as [|? ? Hni Hnd]; subst. intros Hin. apply Hni.
    apply in_map_iff in Hin as [x [Hx Hin]]. apply In_firstn in Hin.
    apply in_map_iff. eauto.
  - inversion H; subst. auto.
Qed.

Section SearchResults.
Variable lower : str -> str.
Variable decimal : codepoint -> option N.
Variable convs : list Conversation.

Lemma contains_token_first_match tokens c :
  contains_token lower tokens c = true
  <-> first_match lower tokens c < length tokens.
Proof.
  unfold contains_token. rewrite existsb_exists, first_match_lt. reflexivity.
Qed.

Lemma ranked_in_dates_NoDup query date_from date_to :
  NoDup (map fst (ranked_in_dates lower decimal convs query date_from date_to)).
Proof.
  unfold ranked_in_dates. apply NoDup_map_filter.
  eapply Permutation_NoDup; [|apply (score_table_NoDup lower convs query)].
  apply Permutation_map. symmetry. apply sorted_desc_perm.
Qed.

(** The ranked scores in dates, position by position. *)
Lemma ranked_in_dates_match query date_from date_to idx :
  In idx (map fst (ranked_in_dates lower decimal convs query date_from date_to))
  <-> exists c,
        nth_error convs idx = Some c
        /\ (contains_token lower (_tokenize lower query) c = true
            \/ title_match lower query c = true)
        /\ passes_dates (date_bound decimal date_from)
                        (date_bound decimal date_to) c = true.
Proof.
  split.
  - intros Hin. apply in_map_iff in Hin as [[i s] [Hi Hin]]. simpl in Hi. subst i.
    apply ranked_in_dates_In in Hin as [Hs Hp]. simpl in Hs, Hp.
    apply (dict_get_Some_In Nat.eqb Nat.eqb_eq), (in_map fst) in Hs.
    apply (score_keys lower convs query) in Hs as [c [Hc Hm]].
    exists c. split; [assumption|].
    rewrite (proj1 (nth_error_Some_conv_at convs idx c Hc)) in Hp.
    split; [|assumption]. rewrite contains_token_first_match. exact Hm.
  - intros [c [Hc [Hm Hp]]].
    assert (Hk : In idx (map fst (score_table lower convs query))).
    { apply (score_keys lower convs query). exists c. split; [assumption|].
      now rewrite <- contains_token_first_match. }
    apply in_map_iff in Hk as [[i s] [Hi Hk]]. simpl in Hi. subst i.
    apply in_map_iff. exists (idx, s). split; [reflexivity|].
    apply ranked_in_dates_In. simpl. split.
    + apply (dict_In_get Nat.eqb Nat.eqb_eq); [apply score_table_NoDup|assumption].
    + now rewrite (proj1 (nth_error_Some_conv_at convs idx c Hc)).
Qed.

(** What [search] returns, for every query. *)
Lemma search_returns query limit date_from date_to :
  exists ranked,
    search lower decimal (_build_index lower convs) query limit date_from date_to
    = Some (map (result_at convs) ranked)
    /\ ((_tokenize lower query = [] /\ ranked = [])
        \/ (_tokenize lower query <> []
            /\ ranked = firstn (result_limit limit)
                          (ranked_in_dates lower decimal convs query
                                           date_from date_to))).
Proof.
  assert (E : _tokenize lower query = [] \/ _tokenize lower query <> [])
    by (destruct (_tokenize lower query); [left; reflexivity|right; discriminate]).
  destruct E as [E|E].
  - exists []. rewrite search_no_token by assumption. auto.
  - eexists. split; [now apply search_spec|]. right. auto.
Qed.
End SearchResults.

(** X1: [search] never fails with an index out of range; it returns at
    most [max(1, limit)] results, at most one per conversation of the
    collection (the results are the conversations at positions of the
    collection of which none occurs twice), and none for a query without
    a token. *)
Theorem search_total_and_bounded (lower : str -> str)
    (decimal : codepoint -> option N) (convs : list Conversation)
    (query : str) (limit : Z) (date_from date_to : option str) :
  exists results,
    search lower decimal (_build_index lower convs) query limit date_from date_to
    = Some results
    /\ (Z.of_nat (length results) <= Z.max 1 limit)%Z
    /\ length results <= length convs
    /\ (_tokenize lower query = [] -> results = [])
    /\ exists ranked,
         results = map (result_at convs) ranked
         /\ NoDup (map fst ranked)
         /\ Forall (fun p => nth_error convs (fst p) = Some (conv_at convs (fst p)))
              ranked.
Proof.
  destruct (search_returns lower decimal convs query limit date_from date_to)
    as (ranked & Hs & [[E ->]|[E ->]]).
  - exists []. simpl in Hs. split; [exact Hs|]. split; [simpl; lia|].
    split; [simpl; lia|]. split; [reflexivity|].
    exists []. split; [reflexivity|]. split; constructor.
  - eexists. split; [exact Hs|]. rewrite length_map. split; [|split; [|split]].
    + pose proof (firstn_le_length (result_limit limit)
                    (ranked_in_dates lower decimal convs query date_from date_to)).
      unfold result_limit in *. lia.
    + rewrite length_firstn.
      pose proof (ranked_in_dates_length lower decimal convs query date_from date_to).
      lia.
    + intros E'. contradiction.
    + eexists. split; [reflexivity|]. split.
      * apply NoDup_map_firstn, ranked_in_dates_NoDup.
      * rewrite Forall_forall. intros p Hp. apply In_firstn in Hp.
        apply ranked_in_dates_In in Hp as [Hp _].
        apply (dict_get_Some_In Nat.eqb Nat.eqb_eq) in Hp.
        apply nth_error_conv_at.
        pose proof (score_table_valid lower convs query) as H.
        rewrite Forall_forall in H. exact (H _ Hp).
Qed.

(** X2: the score of every result is the TF-IDF sum of its conversation
    over the tokens of the query, doubled when the title matches. *)
Theorem search_scores_tf_idf (lower : str -> str)
    (decimal : codepoint -> option N) (convs : list Conversation)
    (query : str) (limit : Z) (date_from date_to : option str) :
  exists ranked,
    search lower decimal (_build_index lower convs) query limit date_from date_to
    = Some (map (result_at convs) ranked)
    /\ Forall
         (fun p =>
            exists c,
              nth_error convs (fst p) = Some c
              /\ snd p
                 = (tf_idf lower convs (_tokenize lower query) c
                    * (if title_match lower query c then 2 else 1))%R)
         ranked.
Proof.
  destruct (search_returns lower decimal convs query limit date_from date_to)
    as (ranked & Hs & [[E ->]|[E ->]]).
  - exists []. split; [exact Hs|constructor].
  - eexists. split; [exact Hs|]. rewrite Forall_forall. intros [idx s] Hin.
    apply In_firstn in Hin. apply ranked_in_dates_In in Hin as [Hget _].
    simpl in Hget |- *.
    assert (Hk : In idx (map fst (score_table lower convs query)))
      by (apply (dict_get_Some_In Nat.eqb Nat.eqb_eq), (in_map fst) in Hget;
          exact Hget).
    apply (score_keys lower convs query) in Hk as [c [Hc _]].
    exists c. split; [assumption|].
    now apply (score_table_get lower convs query idx c s).
Qed.

(** X3: no score is negative; a result has a positive score exactly when
    its conversation contains a token of the query, and the score zero
    exactly when it is matched by its title alone. *)
Theorem search_score_sign (lower : str -> str)
    (decimal : codepoint -> option N) (convs : list Conversation)
    (query : str) (limit : Z) (date_from date_to : option str) :
  exists ranked,
    search lower decimal (_build_index lower convs) query limit date_from date_to
    = Some (map (result_at convs) ranked)
    /\ Forall
         (fun p =>
            exists c,
              nth_error convs (fst p) = Some c
              /\ (0 <= snd p)%R
              /\ ((0 < snd p)%R
                  <-> contains_token lower (_tokenize lower query) c = true)
              /\ (snd p = 0%R
                  <-> (contains_token lower (_tokenize lower query) c = false
                       /\ title_match lower query c = true)))
         ranked.
Proof.
  destruct (search_returns lower decimal convs query limit date_from date_to)
    as (ranked & Hs & [[E ->]|[E ->]]).
  - exists []. split; [exact Hs|constructor].
  - eexists. split; [exact Hs|]. rewrite Forall_forall. intros [idx s] Hin.
    apply In_firstn in Hin.
    assert (Hm : In idx (map fst (ranked_in_dates lower decimal convs query
                                    date_from date_to)))
      by (apply in_map_iff; exists (idx, s); auto).
    apply ranked_in_dates_match in Hm as [c [Hc [Hm _]]].
    apply ranked_in_dates_In in Hin as [Hget _]. simpl in Hget |- *.
    pose proof (score_table_get lower convs query idx c s Hc Hget) as Hsc.
    assert (Hinc : In c convs) by (eapply nth_error_In; eassumption).
    pose proof (tf_idf_nonneg lower convs (_tokenize lower query) c Hinc) as Hnn.
    pose proof (tf_idf_pos lower convs (_tokenize lower query) c Hinc) as Hpos.
    assert (Hct : contains_token lower (_tokenize lower query) c = true
                  <-> (0 < tf_idf lower convs (_tokenize lower query) c)%R).
    { rewrite Hpos. unfold contains_token. rewrite existsb_exists. reflexivity. }
    exists c. split; [assumption|]. subst s.
    set (T := tf_idf lower convs (_tokenize lower query) c) in *.
    destruct (contains_token lower (_tokenize lower query) c) eqn:Hc'.
    + assert (HT : (0 < T)%R) by (now apply Hct).
      assert (H2 : (0 < T * (if title_match lower query c then 2 else 1))%R)
        by (destruct (title_match lower query c); lra).
      split; [lra|]. split; (split; intros Hx); try reflexivity; lra.
    + assert (HT : T = 0%R).
      { destruct Hnn as [Hnn|Hnn]; [|now symmetry].
        apply Hct in Hnn. discriminate. }
      destruct Hm as [Hm|Hm]; [discriminate|]. rewrite Hm, HT.
      split; [lra|]. split; (split; intros Hx); try lra; discriminate.
Qed.

(** X4: the results are distinct positions of the collection; each one
    contains a token of the query or matches it by its title, and passes
    the date filters; and when [limit] is at least the size of the
    collection, every such conversation is returned. *)
Theorem search_returns_the_matches (lower : str -> str)
    (decimal : codepoint -> option N) (convs : list Conversation)
    (query : str) (limit : Z) (date_from date_to : option str) :
  exists ranked,
    search lower decimal (_build_index lower convs) query limit date_from date_to
    = Some (map (result_at convs) ranked)
    /\ NoDup (map fst ranked)
    /\ (forall idx, In idx (map fst ranked) ->
          exists c,
            nth_error convs idx = Some c
            /\ (contains_token lower (_tokenize lower query) c = true
                \/ title_match lower query c = true)
            /\ passes_dates (date_bound decimal date_from)
                            (date_bound decimal date_to) c = true)
    /\ (_tokenize lower query <> [] ->
        (Z.of_nat (length convs) <= limit)%Z ->
        forall idx c,
          nth_error convs idx = Some c ->
          contains_token lower (_tokenize lower query) c = true
          \/ title_match lower query c = true ->
          passes_dates (date_bound decimal date_from)
                       (date_bound decimal date_to) c = true ->
          In idx (map fst ranked)).
Proof.
  destruct (search_returns lower decimal convs query limit date_from date_to)
    as (ranked & Hs & [[E ->]|[E ->]]).
  - exists []. split; [exact Hs|]. split; [constructor|]. split.
    + intros idx [].
    + intros Hne. contradiction.
  - eexists. split; [exact Hs|]. split; [|split].
    + apply NoDup_map_firstn, ranked_in_dates_NoDup.
    + intros idx Hin. apply ranked_in_dates_match.
      apply in_map_iff in Hin as [p [Hp Hin]]. apply In_firstn in Hin.
      apply in_map_iff. eauto.
    + intros _ Hlim idx c Hc Hm Hp. rewrite firstn_all2.
      * apply ranked_in_dates_match. eauto.
      * etransitivity; [apply ranked_in_dates_length|].
        unfold result_limit. lia.
Qed.

(** X5: a larger limit only appends: the results for [limit] are the first
    [max(1, limit)] of the results for any larger limit. *)
Theorem search_limit_prefix (lower : str -> str)
    (decimal : codepoint -> option N) (convs : list Conversation)
    (query : str) (limit limit' : Z) (date_from date_to : option str) :
  (limit <= limit')%Z ->
  exists results results',
    search lower decimal (_build_index lower convs) query limit date_from date_to
    = Some results
    /\ search lower decimal (_build_index lower convs) query limit' date_from date_to
       = Some results'
    /\ results = firstn (Z.to_nat (Z.max 1 limit)) results'.
Proof.
  intros Hle.
  destruct (search_returns lower decimal convs query limit date_from date_to)
    as (ranked & Hs & [[E ->]|[E ->]]);
  destruct (search_returns lower decimal convs query limit' date_from date_to)
    as (ranked' & Hs' & [[E' ->]|[E' ->]]); try contradiction.
  - exists [], []. repeat split; auto. now rewrite firstn_nil.
  - do 2 eexists. split; [exact Hs|]. split; [exact Hs'|].
    rewrite <- firstn_map. fold (result_limit limit). rewrite <- !firstn_map.
    rewrite firstn_firstn. f_equal. unfold result_limit. lia.
Qed.

(** X6: the date filters act before the limit: the results are the first
    [max(1, limit)] of those results of the unfiltered, unlimited search
    whose conversation passes the filters. *)
Theorem search_filters_before_limit (lower : str -> str)
    (decimal : codepoint -> option N) (convs : list Conversation)
    (query : str) (limit unlimited : Z) (date_from date_to : option str) :
  (Z.of_nat (length convs) <= unlimited)%Z ->
  exists every results,
    search lower decimal (_build_index lower convs) query unlimited None None
    = Some every
    /\ search lower decimal (_build_index lower convs) query limit date_from date_to
       = Some results
    /\ results
       = firstn (Z.to_nat (Z.max 1 limit))
           (filter (fun r => passes_dates (date_bound decimal date_from)
                                          (date_bound decimal date_to) (fst r))
                   every).
Proof.
  intros Hbig.
  destruct (search_returns lower decimal convs query unlimited None None)
    as (ranked & Hs & [[E ->]|[E ->]]);
  destruct (search_returns lower decimal convs query limit date_from date_to)
    as (ranked' & Hs' & [[E' ->]|[E' ->]]); try contradiction.
  - exists [], []. repeat split; auto. now rewrite firstn_nil.
  - do 2 eexists. split; [exact Hs|]. split; [exact Hs'|].
    fold (result_limit limit).
    assert (Hall : firstn (result_limit unlimited)
                     (ranked_in_dates lower decimal convs query None None)
                   = sorted_desc snd (score_table lower convs query)).
    { rewrite firstn_all2.
      - unfold ranked_in_dates. cbn [date_bound].
        rewrite (filter_ext (fun p => passes_dates None None (conv_at convs (fst p)))
                            (fun _ => true)) by reflexivity.
        generalize (sorted_desc snd (score_table lower convs query)).
        induction l as [|x l IH]; simpl; congruence.
      - etransitivity; [apply ranked_in_dates_length|].
        unfold result_limit. lia. }
    rewrite Hall, filter_map_comm, firstn_map. reflexivity.
Qed.

(* ===================================================================== *)
(** * The limit and the date filters on an example *)

Lemma search_limit_prefix_witness :
  exists results results',
    search str_lower ascii_decimal (_build_index str_lower tie_collection)
           (lit "a b") 1 None None
    = Some results
    /\ search str_lower ascii_decimal (_build_index str_lower tie_collection)
              (lit "a b") 10 None None
       = Some results'
    /\ results = firstn (Z.to_nat (Z.max 1 1)) results'.
Proof.
  apply (search_limit_prefix str_lower ascii_decimal tie_collection
           (lit "a b") 1 10 None None).
  lia.
Defined.

(** Of the two conversations with the word [a], the one of 2023 passes
    the filter [date_from = 1970-01-02] and the other does not. *)
Lemma search_filters_before_limit_witness :
  exists every results,
    search str_lower ascii_decimal (_build_index str_lower [conv_2023; conv_a])
           (lit "a") 2 None None
    = Some every
    /\ search str_lower ascii_decimal (_build_index str_lower [conv_2023; conv_a])
              (lit "a") 1 (Some (lit "1970-01-02")) None
       = Some results
    /\ results
       = firstn (Z.to_nat (Z.max 1 1))
           (filter (fun r => passes_dates
                               (date_bound ascii_decimal (Some (lit "1970-01-02")))
                               (date_bound ascii_decimal None) (fst r))
                   every).
Proof.
  apply (search_filters_before_limit str_lower ascii_decimal [conv_2023; conv_a]
           (lit "a") 1 2 (Some (lit "1970-01-02")) None).
  simpl. lia.
Defined.

(* ===================================================================== *)
(** * Shape of the tokens and of the index *)

Lemma runs_tokens s ts :
  runs s ts ->
  Forall (fun t => t <> [] /\ forallb is_token_char t = true
                   /\ exists pre post, s = pre ++ t ++ post) ts.
Proof.
  induction 1 as [|c s ts Hc _ IH|r Hr Hall|r c s ts Hr Hall Hc _ IH].
  - constructor.
  - eapply Forall_impl; [|exact IH]. simpl.
    intros t (H1 & H2 & pre & post & ->). repeat split; auto.
    now exists (c :: pre), post.
  - constructor; [|constructor]. repeat split; auto.
    exists [], []. now rewrite app_nil_r.
  - constructor.
    + repeat split; auto. now exists [], (c :: s).
    + eapply Forall_impl; [|exact IH]. simpl.
      intros t (H1 & H2 & pre & post & ->). repeat split; auto.
      exists (r ++ c :: pre), post. now rewrite <- app_assoc.
Qed.

(** X7: every token is a non-empty string of the characters [a-z0-9] that
    occurs in the lowered text. *)
Theorem tokens_well_formed (lower : str -> str) (text : str) :
  Forall (fun t => t <> [] /\ forallb is_token_char t = true
                   /\ str_in t (lower text) = true)
         (_tokenize lower text).
Proof.
  eapply Forall_impl; [|apply (runs_tokens (lower text)),
                         (findall_runs_spec (lower text) []); reflexivity].
  simpl. intros t (H1 & H2 & H3). repeat split; auto. now apply str_in_spec.
Qed.

Section IndexShape.
Variable lower : str -> str.

Lemma postings_of_length_from t l :
  forall s,
    length (flat_map (fun '(i, c) =>
                        if has_term lower t c then [(i, tf_value lower t c)] else [])
                     (combine (seq s (length l)) l))
    = length (filter (has_term lower t) l).
Proof.
  induction l as [|c l IH]; intros s; simpl; [reflexivity|].
  rewrite length_app, IH. now destruct (has_term lower t c).
Qed.

Lemma postings_of_fst_from t l :
  forall s,
    map fst (flat_map (fun '(i, c) =>
                         if has_term lower t c then [(i, tf_value lower t c)] else [])
                      (combine (seq s (length l)) l))
    = flat_map (fun '(i, c) => if has_term lower t c then [i] else [])
               (combine (seq s (length l)) l).
Proof.
  induction l as [|c l IH]; intros s; simpl; [reflexivity|].
  rewrite map_app, IH. now destruct (has_term lower t c).
Qed.

Lemma postings_of_In t convs p :
  In p (postings_of lower t convs)
  <-> exists c, nth_error convs (fst p) = Some c
                /\ has_term lower t c = true
                /\ snd p = tf_value lower t c.
Proof.
  unfold postings_of. rewrite in_flat_map. split.
  - intros [[i c] [Hin Hp]]. apply enumerate_In in Hin.
    destruct (has_term lower t c) eqn:E; [|contradiction].
    destruct Hp as [<-|[]]. simpl. eauto.
  - intros [c (Hc & Ht & Hs)]. exists (fst p, c).
    split; [now apply enumerate_In|]. rewrite Ht. left.
    destruct p; simpl in *. now subst.
Qed.
End IndexShape.

(** X8: the postings of a term hold one pair for each conversation that
    contains it, in ascending order of position; the frequency stored
    with a position is the number of occurrences of the term among the
    tokens of that conversation over the number of those tokens, above 0
    and at most 1; the number of postings is the document frequency
    behind the stored idf, and a term has an idf exactly when it has
    postings. *)
Theorem index_postings (lower : str -> str) (convs : list Conversation)
    (t : str) :
  let e := _build_index lower convs in
  let ps := dict_get_default str_eqb (_index e) t [] in
  map fst ps = positions (has_term lower t) convs
  /\ StronglySorted lt (map fst ps)
  /\ length ps = doc_frequency lower t convs
  /\ Forall (fun p =>
               exists c,
                 nth_error convs (fst p) = Some c
                 /\ has_term lower t c = true
                 /\ snd p = (INR (occurrences t (doc_tokens lower c))
                             / INR (length (doc_tokens lower c)))%R
                 /\ (0 < snd p <= 1)%R) ps
  /\ (dict_get str_eqb (_idf e) t = None <-> ps = []).
Proof.
  intros e ps. unfold ps, e. rewrite build_postings_values.
  assert (Hfst : map fst (postings_of lower t convs)
                 = positions (has_term lower t) convs)
    by apply postings_of_fst_from.
  assert (Hlen : length (postings_of lower t convs) = doc_frequency lower t convs)
    by apply postings_of_length_from.
  split; [exact Hfst|]. split; [rewrite Hfst; apply positions_sorted|].
  split; [exact Hlen|]. split.
  - rewrite Forall_forall. intros p Hp.
    apply postings_of_In in Hp as [c (Hc & Ht & Hs)].
    exists c. repeat split; auto; rewrite Hs; now apply tf_value_range.
  - rewrite build_idf, <- Hlen.
    destruct (postings_of lower t convs); simpl; split; congruence.
Qed.

(* ===================================================================== *)
(** * Entries kept and dropped *)

Lemma collect_conversations_spec fuel raw :
  forall acc coll,
    collect_conversations fuel raw acc = Some coll ->
    exists convs,
      Forall2 (fun e c => entry_conversation fuel e = Some c) raw convs
      /\ coll = acc ++ filter has_messages convs.
Proof.
  induction raw as [|e raw IH]; intros acc coll; simpl.
  - intros [= <-]. exists []. split; [constructor|]. now rewrite app_nil_r.
  - destruct (entry_conversation fuel e) as [conv|] eqn:E; [|discriminate].
    intros H. apply IH in H as (convs & HF & ->).
    exists (conv :: convs). split; [now constructor|].
    simpl. unfold has_messages at 2. destruct (messages conv); [reflexivity|].
    now rewrite <- app_assoc.
Qed.

Lemma collection_keeps_entries_with_messages_aux fuel raw coll :
  parse_chatgpt_export fuel raw = Some coll ->
  exists convs,
    Forall2 (fun e c => entry_conversation fuel e = Some c) raw convs
    /\ Permutation coll (filter has_messages convs)
    /\ Forall (fun c => messages c <> []) coll.
Proof.
  unfold parse_chatgpt_export.
  destruct (collect_conversations fuel raw []) as [l|] eqn:E; [|discriminate].
  intros [= <-]. apply collect_conversations_spec in E as (convs & HF & ->).
  simpl. exists convs. split; [exact HF|].
  assert (HP : Permutation
                 (sorted_desc (fun c => or_zero (create_time c))
                    (filter has_messages convs))
                 (filter has_messages convs)) by apply sorted_desc_perm.
  split; [exact HP|].
  rewrite Forall_forall. intros c Hc.
  apply (Permutation_in _ HP), filter_In in Hc as [_ Hc].
  unfold has_messages in Hc. destruct (messages c); [discriminate|discriminate].
Qed.

(** X9: the collection holds exactly the conversations of the entries that
    have a message, each once: it is a rearrangement of them, so that its
    length is the number of those entries, and no conversation in it is
    without messages. *)
Theorem collection_keeps_entries_with_messages (fuel : nat) (raw : list entry)
    (coll : list Conversation) :
  parse_chatgpt_export fuel raw = Some coll ->
  exists convs,
    Forall2 (fun e c => entry_conversation fuel e = Some c) raw convs
    /\ Permutation coll (filter has_messages convs)
    /\ length coll = length (filter has_messages convs)
    /\ Forall (fun c => messages c <> []) coll.
Proof.
  intros H.
  destruct (collection_keeps_entries_with_messages_aux fuel raw coll H)
    as (convs & HF & HP & Hm).
  exists convs. repeat split; auto. now apply Permutation_length.
Qed.

Lemma tie_export_parsed : parse_chatgpt_export 1 tie_export = Some tie_collection.
Proof. eval_engine. Rltb_yes. reflexivity. Qed.

(** The entry with the mapping without a root has no message and is
    left out; the other entry is kept. *)
Lemma dropping_export_parsed :
  parse_chatgpt_export 1
    [two_cycle_entry; flat_entry (lit "2") (lit "a") (Some 1%R) (lit "z")]
  = Some [conv_a].
Proof. reflexivity. Qed.

Lemma collection_keeps_entries_with_messages_witness :
  exists convs,
    Forall2 (fun e c => entry_conversation 1 e = Some c)
      [two_cycle_entry; flat_entry (lit "2") (lit "a") (Some 1%R) (lit "z")]
      convs
    /\ Permutation [conv_a] (filter has_messages convs)
    /\ length [conv_a] = length (filter has_messages convs)
    /\ Forall (fun c => messages c <> []) [conv_a].
Proof.
  apply (collection_keeps_entries_with_messages 1
           [two_cycle_entry; flat_entry (lit "2") (lit "a") (Some 1%R) (lit "z")]
           [conv_a]).
  exact dropping_export_parsed.
Defined.

(* ===================================================================== *)
(** * Conversations created at the same time *)

Lemma Reqb_true x y : Reqb x y = true <-> x = y.
Proof. unfold Reqb. destruct (Req_dec_T x y); split; auto; discriminate. Qed.

Section StableFilter.
Context {A : Type}.
Variable key : A -> R.

Lemma insert_desc_filter_key v x l :
  filter (fun a => Reqb (key a) v) (insert_desc key x l)
  = filter (fun a => Reqb (key a) v) (x :: l).
Proof.
  induction l as [|y l IH]; [reflexivity|].
  cbn [insert_desc]. destruct (Rltb (key x) (key y)) eqn:E; [|reflexivity].
  apply Rltb_true in E. cbn [filter] in *. rewrite IH.
  destruct (Reqb (key x) v) eqn:Ex; [|reflexivity].
  apply Reqb_true in Ex.
  destruct (Reqb (key y) v) eqn:Ey; [|reflexivity].
  apply Reqb_true in Ey. lra.
Qed.

(** The elements of one key are in the result of the sort as they are in
    its input. *)
Lemma sorted_desc_filter_key v l :
  filter (fun a => Reqb (key a) v) (sorted_desc key l)
  = filter (fun a => Reqb (key a) v) l.
Proof.
  induction l as [|x l IH]; [reflexivity|].
  cbn [sorted_desc]. rewrite insert_desc_filter_key. cbn [filter].
  now rewrite IH.
Qed.
End StableFilter.

(** X10: conversations with the same [create_time] (none counting as zero)
    stand in the collection in the order of their entries in the
    export. *)
Theorem collection_keeps_export_order_of_ties (fuel : nat) (raw : list entry)
    (coll : list Conversation) (created : R) :
  parse_chatgpt_export fuel raw = Some coll ->
  exists convs,
    Forall2 (fun e c => entry_conversation fuel e = Some c) raw convs
    /\ filter (fun c => Reqb (or_zero (create_time c)) created) coll
       = filter (fun c => Reqb (or_zero (create_time c)) created)
           (filter has_messages convs).
Proof.
  unfold parse_chatgpt_export.
  destruct (collect_conversations fuel raw []) as [l|] eqn:E; [|discriminate].
  intros [= <-]. apply collect_conversations_spec in E as (convs & HF & ->).
  simpl. exists convs. split; [exact HF|].
  apply (sorted_desc_filter_key (fun c => or_zero (create_time c))).
Qed.

(** Two entries created at the same time stay in the order of the
    export. *)
Lemma same_time_export_parsed :
  parse_chatgpt_export 1 same_time_export = Some [conv_a; conv_c].
Proof. eval_engine. rewrite Rltb_irrefl. reflexivity. Qed.

Lemma collection_keeps_export_order_of_ties_witness :
  exists convs,
    Forall2 (fun e c => entry_conversation 1 e = Some c) same_time_export convs
    /\ filter (fun c => Reqb (or_zero (create_time c)) 1) [conv_a; conv_c]
       = filter (fun c => Reqb (or_zero (create_time c)) 1)
           (filter has_messages convs).
Proof.
  apply (collection_keeps_export_order_of_ties 1 same_time_export
           [conv_a; conv_c] 1).
  exact same_time_export_parsed.
Defined.

(* ===================================================================== *)
(** * Mappings without a root *)

Lemma find_root_None_in (m0 m : dict str node) :
  option_map fst
    (find (fun '(_, n) =>
             match parent n with
             | None => true
             | Some p => negb (dict_mem str_eqb m0 p)
             end) m) = None
  <-> Forall (fun kv => exists p, parent (snd kv) = Some p
                                  /\ dict_mem str_eqb m0 p = true) m.
Proof.
  induction m as [|[k n] m IH]; simpl.
  - split; [constructor|reflexivity].
  - destruct (parent n) as [p|] eqn:Ep.
    + destruct (dict_mem str_eqb m0 p) eqn:Em; simpl.
      * rewrite IH. split.
        -- intros H. constructor; [|assumption]. exists p. simpl. auto.
        -- intros H. now inversion H.
      * split; [discriminate|]. intros H. inversion H as [|? ? [q [Hq Hm]] _]; subst.
        simpl in Hq. rewrite Ep in Hq. injection Hq as <-. congruence.
    + split; [discriminate|]. intros H. inversion H as [|? ? [q [Hq _]] _]; subst.
      simpl in Hq. congruence.
Qed.

Lemma find_root_None m : find_root m = None <-> rootless m.
Proof. apply find_root_None_in. Qed.

Lemma collect_conversations_skip fuel e conv raw2 :
  entry_conversation fuel e = Some conv -> messages conv = [] ->
  forall raw1 acc,
    collect_conversations fuel (raw1 ++ e :: raw2) acc
    = collect_conversations fuel (raw1 ++ raw2) acc.
Proof.
  intros He Hm. induction raw1 as [|x raw1 IH]; intros acc; simpl.
  - now rewrite He, Hm.
  - destruct (entry_conversation fuel x); [apply IH|reflexivity].
Qed.

(** X11: a mapping in which every node has its parent among the keys has
    no root: whatever the fuel, it flattens to no message, and an entry
    with such a mapping is left out of the collection, its flat
    ["messages"] array, if it has one, unread. *)
Theorem rootless_entry_is_dropped (fuel : nat) (e : entry)
    (before after : list entry) :
  e_mapping e <> [] ->
  rootless (e_mapping e) ->
  _flatten_message_tree fuel (e_mapping e) = Some []
  /\ parse_chatgpt_export fuel (before ++ e :: after)
     = parse_chatgpt_export fuel (before ++ after).
Proof.
  intros Hne Hr. apply find_root_None in Hr.
  assert (Hf : _flatten_message_tree fuel (e_mapping e) = Some [])
    by (unfold _flatten_message_tree; now rewrite Hr).
  split; [exact Hf|]. unfold parse_chatgpt_export.
  erewrite collect_conversations_skip; [reflexivity| |].
  - unfold entry_conversation. destruct (e_mapping e); [contradiction|].
    rewrite Hf. reflexivity.
  - reflexivity.
Qed.

Lemma rootless_entry_is_dropped_witness :
  _flatten_message_tree 0 two_cycle_mapping = Some []
  /\ parse_chatgpt_export 0 ([] ++ two_cycle_entry :: [])
     = parse_chatgpt_export 0 ([] ++ []).
Proof.
  apply (rootless_entry_is_dropped 0 two_cycle_entry [] []).
  - discriminate.
  - repeat constructor; simpl; eexists; split; reflexivity.
Defined.

(* ===================================================================== *)
(** * Previews *)

Lemma no_user_messages (msgs : list Message) :
  Forall (fun m => role m <> lit "user") msgs ->
  filter (fun m => str_eqb (role m) (lit "user")) msgs = [].
Proof.
  induction 1 as [|m l Hm _ IH]; cbn [filter]; [reflexivity|].
  destruct (str_eqb (role m) (lit "user")) eqn:E; [|exact IH].
  apply str_eqb_eq in E. contradiction.
Qed.

(** X12: a preview has at most [max_chars] characters and the ellipsis; it
    is the user messages joined by [" | "] when they fit, and else their
    first [max_chars] characters with the ellipsis; messages of other
    roles do not enter it. *)
Theorem preview_bounded (c : Conversation) (max_chars : nat) :
  let whole :=
    join (lit " | ")
         (map text (filter (fun m => str_eqb (role m) (lit "user")) (messages c))) in
  length (preview c max_chars) <= max_chars + 1
  /\ (length whole <= max_chars -> preview c max_chars = whole)
  /\ (max_chars < length whole ->
      preview c max_chars = firstn max_chars whole ++ [8230%N]
      /\ length (preview c max_chars) = max_chars + 1)
  /\ (Forall (fun m => role m <> lit "user") (messages c) ->
      preview c max_chars = []).
Proof.
  intros whole. unfold preview. fold whole.
  destruct (Nat.ltb_spec max_chars (length whole)) as [H|H].
  - repeat split; try lia.
    + rewrite length_app, length_firstn. simpl. lia.
    + rewrite length_app, length_firstn. simpl. lia.
    + intros Hno. exfalso. unfold whole in H.
      rewrite (no_user_messages _ Hno) in H. simpl in H. lia.
  - split; [lia|]. split; [reflexivity|]. split; [lia|].
    intros Hno. unfold whole.
    now rewrite (no_user_messages _ Hno).
Qed.

(* ===================================================================== *)
(** * Lookups *)

Lemma find_conversation_spec convs cid :
  match _find_conversation convs cid with
  | Some c =>
      exists before after,
        convs = before ++ c :: after /\ id c = cid
        /\ Forall (fun c' => id c' <> cid) before
  | None => Forall (fun c' => id c' <> cid) convs
  end.
Proof.
  unfold _find_conversation. induction convs as [|x convs IH]; simpl.
  - constructor.
  - destruct (str_eqb (id x) cid) eqn:E.
    + apply str_eqb_eq in E. exists [], convs. repeat split; auto.
    + apply str_eqb_neq in E.
      destruct (find (fun conv => str_eqb (id conv) cid) convs) as [c|].
      * destruct IH as (before & after & -> & Hid & Hb).
        exists (x :: before), after. repeat split; auto.
      * constructor; assumption.
Qed.

(** X13: a lookup by id gives the first conversation of the collection
    that has the id — one that follows it with the same id is never
    reached — and the notice exactly when no conversation has it; the
    view shows the first [max_messages] messages in their order, all of
    them without a bound, and counts exactly the messages it leaves
    out. *)
Theorem get_conversation_view (convs : list Conversation) (cid : str)
    (max_messages : option nat) :
  match chatgpt_get_conversation convs cid max_messages with
  | ConversationNotFound => Forall (fun c => id c <> cid) convs
  | ConversationView conv shown truncated =>
      (exists before after,
         convs = before ++ conv :: after /\ id conv = cid
         /\ Forall (fun c => id c <> cid) before)
      /\ (exists hidden,
            messages conv = shown ++ hidden
            /\ truncated = Z.of_nat (length hidden))
      /\ (max_messages = None -> shown = messages conv)
      /\ (forall n, max_messages = Some n -> 1 <= n ->
            shown = firstn n (messages conv)
            /\ ((0 < truncated)%Z <-> n < length (messages conv)))
  end.
Proof.
  unfold chatgpt_get_conversation.
  pose proof (find_conversation_spec convs cid) as H.
  destruct (_find_conversation convs cid) as [conv|]; [|exact H].
  split; [exact H|].
  assert (Hcut : forall n,
            exists hidden,
              messages conv = firstn n (messages conv) ++ hidden
              /\ (Z.of_nat (length (messages conv))
                  - Z.of_nat (length (firstn n (messages conv))))%Z
                 = Z.of_nat (length hidden)).
  { intros n. exists (skipn n (messages conv)).
    split; [now rewrite firstn_skipn|].
    rewrite length_firstn, length_skipn. lia. }
  assert (Hall : exists hidden,
            messages conv = messages conv ++ hidden
            /\ (Z.of_nat (length (messages conv))
                - Z.of_nat (length (messages conv)))%Z
               = Z.of_nat (length hidden)).
  { exists []. split; [now rewrite app_nil_r|simpl; lia]. }
  destruct max_messages as [[|n]|].
  - split; [exact Hall|]. split; [discriminate|].
    intros n [= <-] Hn. lia.
  - split; [apply Hcut|]. split; [discriminate|].
    intros m [= <-] _. split; [reflexivity|].
    rewrite length_firstn. lia.
  - split; [exact Hall|]. split; [reflexivity|]. discriminate.
Qed.

(* ===================================================================== *)
(** * Pages that follow one another *)

(** X14: for a collection that is not empty, the conversations in front of
    [start], the page and the conversations from [end] on make up the
    collection; the next page, asked for with [offset = end], starts
    where this one stops; and the listing announces more exactly when
    that next page is not empty. *)
Theorem listing_pages_continue (convs : list Conversation) (offset limit : nat) :
  1 <= limit ->
  convs <> [] ->
  exists start end_ page has_more,
    chatgpt_list_conversations convs offset limit
    = Listing start end_ (length convs) page has_more
    /\ firstn start convs ++ page ++ skipn end_ convs = convs
    /\ length page = end_ - start
    /\ (has_more = true
        <-> listed (chatgpt_list_conversations convs end_ limit) <> [])
    /\ (has_more = false <-> end_ = length convs).
Proof.
  intros Hlim Hne. destruct convs as [|c l]; [contradiction|].
  unfold chatgpt_list_conversations at 1.
  set (convs := c :: l) in *.
  set (total := length convs).
  set (start := Nat.min offset total).
  set (end_ := Nat.min (start + limit) total).
  exists start, end_, (slice convs start end_), (end_ <? total).
  split; [reflexivity|].
  assert (Hse : start <= end_ <= total) by (unfold end_, start; lia).
  assert (Hslice : slice convs start end_ = firstn (end_ - start) (skipn start convs))
    by reflexivity.
  split; [|split; [|split]].
  - rewrite Hslice.
    rewrite <- (firstn_skipn start convs) at 4.
    f_equal.
    rewrite <- (firstn_skipn (end_ - start) (skipn start convs)) at 2.
    f_equal. rewrite skipn_skipn. f_equal. lia.
  - rewrite Hslice, length_firstn, length_skipn. fold total. lia.
  - rewrite listed_slice. rewrite Nat.ltb_lt. split.
    + intros Hlt Hnil.
      assert (Hl : length (firstn limit (skipn end_ convs)) = 0)
        by now rewrite Hnil.
      rewrite length_firstn, length_skipn in Hl. fold total in Hl. lia.
    + intros Hnn. destruct (Nat.lt_ge_cases end_ total) as [H|H]; [assumption|].
      exfalso. apply Hnn. rewrite skipn_all2 by (fold total; lia).
      apply firstn_nil.
  - rewrite Nat.ltb_ge. lia.
Qed.

Lemma listing_pages_continue_witness :
  exists start end_ page has_more,
    chatgpt_list_conversations five_conversations 2 2
    = Listing start end_ (length five_conversations) page has_more
    /\ firstn start five_conversations ++ page ++ skipn end_ five_conversations
       = five_conversations
    /\ length page = end_ - start
    /\ (has_more = true
        <-> listed (chatgpt_list_conversations five_conversations end_ 2) <> [])
    /\ (has_more = false <-> end_ = length five_conversations).
Proof.
  apply (listing_pages_continue five_conversations 2 2).
  - lia.
  - discriminate.
Defined.

(* ===================================================================== *)
(** * Walks that come back *)

Lemma walk_step fuel m x cid acc :
  walk (S fuel) m (Some (x :: cid)) acc
  = walk fuel m (first_child m (x :: cid))
         (acc ++ node_messages (lookup_node m (x :: cid))).
Proof. reflexivity. Qed.

Lemma walk_follows_short m k cid cid' :
  follows m k cid cid' ->
  forall fuel acc, fuel <= k -> walk fuel m (Some cid) acc = None.
Proof.
  induction 1 as [cid|k cid c cid' Hne Hc _ IH]; intros fuel acc Hf.
  - replace fuel with 0 by lia. reflexivity.
  - destruct fuel as [|fuel]; [reflexivity|].
    destruct cid as [|x cid]; [contradiction|].
    rewrite walk_step, Hc. apply IH. lia.
Qed.

Lemma walk_follows_long m k cid cid' :
  follows m k cid cid' ->
  forall fuel acc, exists acc',
    walk (k + fuel) m (Some cid) acc = walk fuel m (Some cid') acc'.
Proof.
  induction 1 as [cid|k cid c cid' Hne Hc _ IH]; intros fuel acc.
  - exists acc. reflexivity.
  - destruct cid as [|x cid]; [contradiction|].
    cbn [Nat.add]. rewrite walk_step, Hc. apply IH.
Qed.

Lemma walk_cycle m k cid :
  follows m (S k) cid cid ->
  forall fuel acc, walk fuel m (Some cid) acc = None.
Proof.
  intros Hc fuel. induction fuel as [fuel IH] using lt_wf_ind. intros acc.
  destruct (Nat.le_gt_cases fuel (S k)) as [H|H].
  - now apply (walk_follows_short _ _ _ _ Hc).
  - replace fuel with (S k + (fuel - S k)) by lia.
    destruct (walk_follows_long _ _ _ _ Hc (fuel - S k) acc) as [acc' ->].
    apply IH. lia.
Qed.

Lemma collect_conversations_None fuel e after :
  entry_conversation fuel e = None ->
  forall before acc,
    collect_conversations fuel (before ++ e :: after) acc = None.
Proof.
  intros He. induction before as [|x before IH]; intros acc; simpl.
  - now rewrite He.
  - destruct (entry_conversation fuel x); [apply IH|reflexivity].
Qed.

(** X15: when the walk from the root comes to a node from which the first
    children lead back to that node, the flattener does not return,
    whatever the fuel; and neither does the parser on an export that
    holds an entry with such a mapping. *)
Theorem cyclic_first_children_never_return (m : dict str node)
    (root cid : str) (j k fuel : nat) :
  find_root m = Some root ->
  follows m j root cid ->
  follows m (S k) cid cid ->
  _flatten_message_tree fuel m = None
  /\ forall e before after,
       e_mapping e = m ->
       parse_chatgpt_export fuel (before ++ e :: after) = None.
Proof.
  intros Hr Hj Hk.
  assert (Hf : _flatten_message_tree fuel m = None).
  { unfold _flatten_message_tree. rewrite Hr.
    destruct (Nat.le_gt_cases fuel j) as [H|H].
    - now apply (walk_follows_short _ _ _ _ Hj).
    - replace fuel with (j + (fuel - j)) by lia.
      destruct (walk_follows_long _ _ _ _ Hj (fuel - j) []) as [acc' ->].
      now apply (walk_cycle _ _ _ Hk). }
  split; [exact Hf|]. intros e before after He.
  unfold parse_chatgpt_export.
  rewrite collect_conversations_None; [reflexivity|].
  unfold entry_conversation. rewrite He.
  destruct m as [|kv m]; [discriminate|]. now rewrite Hf.
Qed.

Lemma cyclic_first_children_never_return_witness :
  _flatten_message_tree 1000 self_loop_mapping = None
  /\ forall e before after,
       e_mapping e = self_loop_mapping ->
       parse_chatgpt_export 1000 (before ++ e :: after) = None.
Proof.
  apply (cyclic_first_children_never_return
           self_loop_mapping (lit "r") (lit "a") 1 0 1000).
  - reflexivity.
  - apply (follows_step _ 0 (lit "r") (lit "a") (lit "a"));
      [discriminate|reflexivity|apply follows_here].
  - apply (follows_step _ 0 (lit "a") (lit "a") (lit "a"));
      [discriminate|reflexivity|apply follows_here].
Defined.

(* ===================================================================== *)
(** * Messages of the collection *)

Lemma emitted_not_blank n :
  Forall (fun x => blank (text x) = false) (emitted n).
Proof.
  unfold emitted. destruct (message n) as [md|]; [|constructor].
  destruct (is_known_role _); simpl; [|constructor].
  destruct (blank (extracted_text md)) eqn:E; simpl; repeat constructor.
  exact E.
Qed.

Lemma walk_not_blank fuel m :
  forall cur acc msgs,
    Forall (fun x => blank (text x) = false) acc ->
    walk fuel m cur acc = Some msgs ->
    Forall (fun x => blank (text x) = false) msgs.
Proof.
  induction fuel as [|fuel IH]; intros cur acc msgs Hacc; simpl; [discriminate|].
  destruct cur as [[|x cid]|]; try (intros [= <-]; assumption).
  apply IH. apply Forall_app; split; [assumption|].
  rewrite node_messages_emitted. apply emitted_not_blank.
Qed.

Lemma flat_messages_from msgs :
  forall acc,
    Forall (fun x => blank (text x) = false) acc ->
    Forall (fun x => blank (text x) = false)
      (fold_left
         (fun acc msg =>
            match msg with
            | Some m =>
                match fm_content m with
                | Some c =>
                    if content_truthy c then
                      let text := _extract_text c in
                      if nonempty (strip text) then
                        acc ++ [ {| role := get_default (fm_role m)
                                              (get_default (fm_author_role m)
                                                 (lit "unknown"));
                                    text := text;
                                    timestamp := fm_create_time m |} ]
                      else acc
                    else acc
                | None => acc
                end
            | None => acc
            end) msgs acc).
Proof.
  induction msgs as [|msg msgs IH]; intros acc Hacc; cbn [fold_left];
    [assumption|].
  apply IH. destruct msg as [m|]; [|assumption].
  destruct (fm_content m) as [c|]; [|assumption].
  destruct (content_truthy c); [|assumption].
  cbv zeta. destruct (nonempty (strip (_extract_text c))) eqn:E; [|assumption].
  apply Forall_app; split; [assumption|]. repeat constructor. simpl.
  rewrite strip_nonempty in E. unfold blank.
  now destruct (forallb is_space (_extract_text c)).
Qed.

Lemma entry_conversation_not_blank fuel e c :
  entry_conversation fuel e = Some c ->
  Forall (fun x => blank (text x) = false) (messages c).
Proof.
  unfold entry_conversation. destruct (e_mapping e) as [|kv m].
  - intros [= <-]. simpl. apply flat_messages_from. constructor.
  - destruct (_flatten_message_tree fuel (kv :: m)) as [msgs|] eqn:E;
      [|discriminate].
    intros [= <-]. simpl. revert E. unfold _flatten_message_tree.
    destruct (find_root (kv :: m)).
    + apply walk_not_blank. constructor.
    + intros [= <-]. constructor.
Qed.

(** X16: every message of every conversation of the collection has a text
    with a character that is not whitespace, on the path through the
    mapping and on the path through the flat array; the text is kept as
    extracted, with the whitespace around it, and no conversation of the
    collection is without messages. *)
Theorem collection_messages_not_blank (fuel : nat) (raw : list entry)
    (coll : list Conversation) :
  parse_chatgpt_export fuel raw = Some coll ->
  Forall (fun c =>
            messages c <> []
            /\ Forall (fun x => blank (text x) = false
                                /\ nonempty (strip (text x)) = true)
                 (messages c)) coll.
Proof.
  intros H.
  destruct (collection_keeps_entries_with_messages_aux fuel raw coll H)
    as (convs & HF & HP & Hm).
  rewrite Forall_forall in *. intros c Hc. split; [now apply Hm|].
  apply (Permutation_in _ HP), filter_In in Hc as [Hc _].
  assert (He : exists e, entry_conversation fuel e = Some c).
  { clear -HF Hc. induction HF as [|e c' raw convs Hec _ IH]; [contradiction|].
    destruct Hc as [<-|Hc]; [now exists e|now apply IH]. }
  destruct He as [e He]. apply entry_conversation_not_blank in He.
  rewrite Forall_forall in *. intros x Hx. specialize (He x Hx).
  split; [exact He|]. rewrite strip_nonempty. unfold blank in He. now rewrite He.
Qed.

Lemma collection_messages_not_blank_witness :
  Forall (fun c =>
            messages c <> []
            /\ Forall (fun x => blank (text x) = false
                                /\ nonempty (strip (text x)) = true)
                 (messages c)) tie_collection.
Proof.
  apply (collection_messages_not_blank 1 tie_export tie_collection).
  exact tie_export_parsed.
Defined.

(* ===================================================================== *)
(** * Whitespace around a string *)

Lemma lstrip_app_spaces ws s :
  forallb is_space ws = true -> lstrip (ws ++ s) = lstrip s.
Proof.
  induction ws as [|c ws IH]; simpl; [reflexivity|].
  destruct (is_space c); simpl; [exact IH|discriminate].
Qed.

Lemma lstrip_no_space c s : is_space c = false -> lstrip (c :: s) = c :: s.
Proof. intros H. simpl. now rewrite H. Qed.

Lemma strip_surrounded before body after :
  forallb is_space before = true ->
  forallb is_space after = true ->
  forallb (fun c => negb (is_space c)) body = true ->
  strip (before ++ body ++ after) = body.
Proof.
  intros Hb Ha Hbody. unfold strip. rewrite lstrip_app_spaces by assumption.
  destruct body as [|x body].
  - simpl. apply lstrip_nil_iff in Ha. rewrite Ha. reflexivity.
  - simpl in Hbody. apply andb_true_iff in Hbody as [Hx Hbody].
    apply negb_true_iff in Hx.
    change ((x :: body) ++ after) with (x :: body ++ after).
    rewrite lstrip_no_space by assumption.
    change (x :: body ++ after) with ((x :: body) ++ after).
    rewrite rev_app_distr, lstrip_app_spaces by now rewrite forallb_rev.
    destruct (rev (x :: body)) as [|z r] eqn:E.
    + apply (f_equal (@rev _)) in E. rewrite rev_involutive in E. discriminate.
    + assert (Hz : is_space z = false).
      { assert (Hin : In z (x :: body))
          by (apply in_rev; rewrite E; now left).
        destruct Hin as [<-|Hin]; [assumption|].
        rewrite forallb_forall in Hbody. apply negb_true_iff. now apply Hbody. }
      rewrite lstrip_no_space by assumption.
      rewrite <- E. apply rev_involutive.
Qed.

(* ===================================================================== *)
(** * Dates that parse *)

Lemma digit_in_range n : (n < 10)%N -> in_range 48%N 57%N (digit_char n) = true.
Proof.
  intros H. unfold in_range, digit_char.
  apply andb_true_iff. split; apply N.leb_le; lia.
Qed.

Lemma digit_no_space n : (n < 10)%N -> is_space (digit_char n) = false.
Proof.
  intros H. unfold is_space, digit_char.
  rewrite (proj2 (N.leb_gt _ 13)), (proj2 (N.leb_gt _ 32)),
    (proj2 (N.leb_gt 8192 _)) by lia.
  rewrite !(proj2 (N.eqb_neq _ _)) by lia.
  rewrite !andb_false_r. reflexivity.
Qed.

Section DatesThatParse.
Variable decimal : codepoint -> option N.
Hypothesis decimal_ascii :
  forall c, in_range 48%N 57%N c = true -> decimal c = Some (c - 48)%N.

Lemma decimal_digit n : (n < 10)%N -> decimal (digit_char n) = Some n.
Proof.
  intros H. rewrite decimal_ascii by now apply digit_in_range.
  unfold digit_char. f_equal. lia.
Qed.

Lemma match_year_four_digits y rest :
  (y <= 9999)%N ->
  match_year decimal (four_digits y ++ rest) = Some (y, rest).
Proof.
  intros Hy. unfold four_digits. cbn [app match_year].
  assert (H1 : (y / 1000 < 10)%N) by (apply N.Div0.div_lt_upper_bound; lia).
  assert (H2 : (y / 100 mod 10 < 10)%N) by (apply N.mod_lt; lia).
  assert (H3 : (y / 10 mod 10 < 10)%N) by (apply N.mod_lt; lia).
  assert (H4 : (y mod 10 < 10)%N) by (apply N.mod_lt; lia).
  rewrite !decimal_digit by assumption.
  do 2 f_equal. clear.
  zify. Z.to_euclidean_division_equations. lia.
Qed.

Lemma match_month_head pad m rest :
  (1 <= m <= 12)%N ->
  exists more,
    match_month (two_digits pad m ++ 45%N :: rest)
    = (m, 45%N :: rest) :: more.
Proof.
  intros H.
  assert (E : (m = 1 \/ m = 2 \/ m = 3 \/ m = 4 \/ m = 5 \/ m = 6 \/ m = 7
               \/ m = 8 \/ m = 9 \/ m = 10 \/ m = 11 \/ m = 12)%N) by lia.
  repeat (destruct E as [->|E]; [destruct pad; eexists; reflexivity|]).
  subst. destruct pad; eexists; reflexivity.
Qed.

Lemma match_day_head pad d :
  (1 <= d <= 31)%N ->
  exists more, match_day decimal (two_digits pad d) = (d, []) :: more.
Proof.
  intros H.
  assert (E : (d = 1 \/ d = 2 \/ d = 3 \/ d = 4 \/ d = 5 \/ d = 6 \/ d = 7
               \/ d = 8 \/ d = 9 \/ d = 10 \/ d = 11 \/ d = 12 \/ d = 13
               \/ d = 14 \/ d = 15 \/ d = 16 \/ d = 17 \/ d = 18 \/ d = 19
               \/ d = 20 \/ d = 21 \/ d = 22 \/ d = 23 \/ d = 24 \/ d = 25
               \/ d = 26 \/ d = 27 \/ d = 28 \/ d = 29 \/ d = 30
               \/ d = 31)%N) by lia.
  assert (D : forall c, in_range 48%N 57%N c = true -> decimal c = Some (c - 48)%N)
    by exact decimal_ascii.
  repeat (destruct E as [->|E];
          [destruct pad; cbv;
           rewrite ?(D 48%N eq_refl), ?(D 49%N eq_refl), ?(D 50%N eq_refl),
             ?(D 51%N eq_refl), ?(D 52%N eq_refl), ?(D 53%N eq_refl),
             ?(D 54%N eq_refl), ?(D 55%N eq_refl), ?(D 56%N eq_refl),
             ?(D 57%N eq_refl);
           eexists; reflexivity|]).
  subst. destruct pad; eexists; reflexivity.
Qed.

Lemma written_date_no_space pad_m pad_d y m d :
  (y <= 9999)%N -> (m <= 12)%N -> (d <= 31)%N ->
  forallb (fun c => negb (is_space c)) (written_date pad_m pad_d y m d) = true.
Proof.
  intros Hy Hm Hd.
  assert (Htwo : forall pad n, (n <= 31)%N ->
            forallb (fun c => negb (is_space c)) (two_digits pad n) = true).
  { intros pad n Hn. unfold two_digits.
    destruct ((n <? 10)%N && negb pad) eqn:E; cbn [forallb].
    - apply andb_true_iff in E as [E _]. apply N.ltb_lt in E.
      now rewrite digit_no_space.
    - rewrite !digit_no_space; [reflexivity| |].
      + apply N.mod_lt. lia.
      + apply N.Div0.div_lt_upper_bound. lia. }
  unfold written_date. rewrite !forallb_app, !Htwo by lia.
  unfold four_digits. cbn [forallb].
  rewrite !digit_no_space; [reflexivity| | | |].
  - apply N.mod_lt. lia.
  - apply N.mod_lt. lia.
  - apply N.mod_lt. lia.
  - apply N.Div0.div_lt_upper_bound. lia.
Qed.

Lemma valid_date_ranges y m d :
  valid_date (Z.of_N y) (Z.of_N m) (Z.of_N d) = true ->
  (y <= 9999 /\ 1 <= m <= 12 /\ 1 <= d <= 31)%N.
Proof.
  unfold valid_date. rewrite !andb_true_iff, !Z.leb_le.
  intros [[[[[H1 H2] H3] H4] H5] H6].
  assert (days_in_month (Z.of_N y) (Z.of_N m) <= 31)%Z.
  { unfold days_in_month.
    destruct (Z.of_N m =? 2)%Z; [destruct (is_leap _); lia|].
    destruct (_ || _); lia. }
  lia.
Qed.

(** X17: a valid date written as four digits of the year, [-], the month,
    [-] and the day, the month and the day each in two digits or, below
    ten, in one, with any whitespace in front and behind, parses to the
    midnight UTC of that date, for every digit table that gives the
    ASCII digits their values. *)
Theorem parse_date_accepts (y m d : N) (pad_m pad_d : bool)
    (before after : str) :
  valid_date (Z.of_N y) (Z.of_N m) (Z.of_N d) = true ->
  forallb is_space before = true ->
  forallb is_space after = true ->
  _parse_date decimal (before ++ written_date pad_m pad_d y m d ++ after)
  = Some (IZR (utc_midnight (Z.of_N y) (Z.of_N m) (Z.of_N d))).
Proof.
  intros Hv Hb Ha. destruct (valid_date_ranges _ _ _ Hv) as (Hy & Hm & Hd).
  unfold _parse_date.
  rewrite strip_surrounded
    by (try assumption; apply written_date_no_space; lia).
  unfold strptime_ymd, match_ymd, written_date.
  rewrite match_year_four_digits by assumption.
  cbn [app match_dash].
  destruct (match_month_head pad_m m (two_digits pad_d d) Hm) as [more ->].
  cbn [flat_map match_dash].
  destruct (match_day_head pad_d d Hd) as [more' ->].
  cbn [app hd_error]. now rewrite Hv.
Qed.
End DatesThatParse.

Lemma ascii_decimal_ascii c :
  in_range 48%N 57%N c = true -> ascii_decimal c = Some (c - 48)%N.
Proof. intros H. unfold ascii_decimal. now rewrite H. Qed.

Lemma parse_date_accepts_witness :
  _parse_date ascii_decimal
    (lit "  " ++ written_date true false 2024 2 29 ++ [10%N])
  = Some (IZR (utc_midnight 2024 2 29)).
Proof.
  apply (parse_date_accepts ascii_decimal ascii_decimal_ascii
           2024 2 29 true false (lit "  ") [10%N]).
  - reflexivity.
  - reflexivity.
  - reflexivity.
Defined.

(* ===================================================================== *)
(** * Parsed dates *)

Lemma days_before_year_step y :
  (days_before_year (y + 1)
   = days_before_year y + (if is_leap y then 366 else 365))%Z.
Proof.
  unfold days_before_year, is_leap. cbv zeta.
  replace (y + 1 - 1)%Z with y by lia.
  destruct (y mod 4 =? 0)%Z eqn:E4; destruct (y mod 100 =? 0)%Z eqn:E100;
    destruct (y mod 400 =? 0)%Z eqn:E400; simpl;
    rewrite ?Z.eqb_eq, ?Z.eqb_neq in *;
    Z.to_euclidean_division_equations; lia.
Qed.

Lemma days_before_year_mono y y' :
  (y <= y')%Z -> (days_before_year y <= days_before_year y')%Z.
Proof.
  intros H. unfold days_before_year. cbv zeta.
  Z.to_euclidean_division_equations. lia.
Qed.

Ltac month_case y :=
  unfold days_before_month, days_in_month;
  repeat match goal with
         | |- context [Z.to_nat ?e] =>
             let n := eval vm_compute in (Z.to_nat e) in
             change (Z.to_nat e) with n
         end;
  cbn [seq map fold_left Z.of_nat Pos.of_succ_nat Pos.succ Z.eqb Pos.eqb orb];
  destruct (is_leap y); lia.

(** The day of the year of a valid date lies within the year. *)
Lemma day_of_year_range y m d :
  valid_date y m d = true ->
  (1 <= days_before_month y m + d <= (if is_leap y then 366 else 365))%Z
  /\ (days_before_month y m + d = 1 -> m = 1 /\ d = 1)%Z.
Proof.
  unfold valid_date. rewrite !andb_true_iff, !Z.leb_le.
  intros [[[[[_ _] H3] H4] H5] H6].
  assert (E : (m = 1 \/ m = 2 \/ m = 3 \/ m = 4 \/ m = 5 \/ m = 6 \/ m = 7
               \/ m = 8 \/ m = 9 \/ m = 10 \/ m = 11 \/ m = 12)%Z) by lia.
  repeat (destruct E as [->|E]; [revert H6; month_case y|]).
  subst. revert H6. month_case y.
Qed.

Lemma utc_midnight_sign y m d :
  valid_date y m d = true ->
  ((utc_midnight y m d = 0 <-> (y = 1970 /\ m = 1 /\ d = 1))
   /\ (utc_midnight y m d < 0 <-> y < 1970))%Z.
Proof.
  intros Hv. destruct (day_of_year_range y m d Hv) as [Hr H1].
  unfold utc_midnight, ymd2ord in *.
  change (days_before_year 1970 + days_before_month 1970 1 + 1)%Z
    with 719163%Z.
  assert (E70 : days_before_year 1970 = 719162%Z) by reflexivity.
  assert (E71 : days_before_year 1971 = 719527%Z) by reflexivity.
  destruct (Z.lt_trichotomy y 1970) as [Hy|[->|Hy]].
  - pose proof (days_before_year_step y) as Hs.
    pose proof (days_before_year_mono (y + 1) 1970 ltac:(lia)) as Hm.
    destruct (is_leap y); lia.
  - rewrite E70. change (is_leap 1970) with false in Hr.
    split; [|lia]. split; [intros H; split; [reflexivity|apply H1; lia]|].
    intros (_ & -> & ->). reflexivity.
  - pose proof (days_before_year_mono 1971 y ltac:(lia)) as Hm. lia.
Qed.

(** X18: what [_parse_date] returns is the midnight UTC of a valid date of
    the years 1 to 9999: a whole number of days in seconds; it is zero,
    the value that the date filters of [search] take for no bound, for
    1970-01-01 and for no other date, and negative exactly for the dates
    of earlier years. *)
Theorem parse_date_midnight (decimal : codepoint -> option N) (s : str)
    (t : R) :
  _parse_date decimal s = Some t ->
  exists y m d,
    strptime_ymd decimal (strip s) = Some (y, m, d)
    /\ valid_date y m d = true
    /\ t = IZR ((ymd2ord y m d - 719163) * 86400)
    /\ (Rtruthy t = false <-> (y, m, d) = (1970, 1, 1)%Z)
    /\ ((t < 0)%R <-> (y < 1970)%Z).
Proof.
  unfold _parse_date.
  destruct (strptime_ymd decimal (strip s)) as [[[y m] d]|] eqn:E;
    [|discriminate].
  intros [= <-]. exists y, m, d. split; [reflexivity|].
  assert (Hv : valid_date y m d = true).
  { revert E. unfold strptime_ymd.
    destruct (match_ymd decimal (strip s)) as [[[[y0 m0] d0] [|? ?]]|];
      try discriminate.
    destruct (valid_date (Z.of_N y0) (Z.of_N m0) (Z.of_N d0)) eqn:V;
      [|discriminate].
    now intros [= <- <- <-]. }
  destruct (utc_midnight_sign y m d Hv) as [Hz Hn].
  split; [exact Hv|]. split; [reflexivity|]. split.
  - split.
    + intros H. destruct (Rtruthy (IZR (utc_midnight y m d))) eqn:T;
        [discriminate|].
      assert (Hz0 : IZR (utc_midnight y m d) = 0%R).
      { destruct (Req_dec_T (IZR (utc_midnight y m d)) 0) as [e|n];
          [exact e|].
        apply Rtruthy_true in n. congruence. }
      apply eq_IZR in Hz0. apply Hz in Hz0 as (-> & -> & ->). reflexivity.
    + intros [= -> -> ->]. change (utc_midnight 1970 1 1) with 0%Z.
      apply Rtruthy_zero.
  - rewrite <- Hn. split; intros H.
    + now apply lt_IZR.
    + now apply IZR_lt.
Qed.

Lemma parse_date_second_day :
  _parse_date ascii_decimal (lit "1970-01-02") = Some 86400%R.
Proof.
  unfold _parse_date.
  replace (strptime_ymd ascii_decimal (strip (lit "1970-01-02")))
    with (Some (1970, 1, 2)%Z) by (vm_compute; reflexivity).
  reflexivity.
Qed.

Lemma parse_date_midnight_witness :
  exists y m d,
    strptime_ymd ascii_decimal (strip (lit "1970-01-02")) = Some (y, m, d)
    /\ valid_date y m d = true
    /\ 86400%R = IZR ((ymd2ord y m d - 719163) * 86400)
    /\ (Rtruthy 86400%R = false <-> (y, m, d) = (1970, 1, 1)%Z)
    /\ ((86400 < 0)%R <-> (y < 1970)%Z).
Proof.
  apply (parse_date_midnight ascii_decimal (lit "1970-01-02") 86400%R).
  exact parse_date_second_day.
Defined.

(* ===================================================================== *)
(** * Model usage *)

Lemma model_counts_counter convs :
  model_counts convs = counter (map slug_or_unknown convs).
Proof.
  unfold model_counts, counter. generalize (@nil (str * nat)).
  induction convs as [|c convs IH]; intros d; simpl; [reflexivity|]. apply IH.
Qed.

Lemma occurrences_map_slug k convs :
  occurrences k (map slug_or_unknown convs) = conversations_with_model k convs.
Proof.
  unfold occurrences, conversations_with_model.
  induction convs as [|c convs IH]; simpl; [reflexivity|].
  destruct (str_eqb k (slug_or_unknown c)); simpl; now rewrite IH.
Qed.

Lemma list_sum_firstn n (l : list nat) : list_sum (firstn n l) <= list_sum l.
Proof.
  revert n. induction l as [|x l IH]; intros [|n]; simpl; try lia.
  specialize (IH n). lia.
Qed.

Lemma list_sum_perm (l l' : list nat) :
  Permutation l l' -> list_sum l = list_sum l'.
Proof. induction 1; simpl; lia. Qed.

Lemma slug_or_unknown_nonempty c : slug_or_unknown c <> [].
Proof.
  unfold slug_or_unknown. destruct (model_slug c); simpl; discriminate.
Qed.

(** X19: the statistics of a collection that is not empty give its length
    as the total of conversations and the number of all its messages as
    the total of messages; the model usage has at most ten lines, no
    model twice, in descending order of their counts; a line gives the
    number of conversations with that model, at least one, the
    conversations without a model counted together with those whose
    model is named [unknown]; the counts add up to at most the total, and
    to the total when there are no more than ten models. *)
Theorem stats_model_usage (convs : list Conversation) :
  match chatgpt_stats convs with
  | NoStatistics => convs = []
  | Statistics total_convs total_msgs _ _ usage =>
      total_convs = length convs
      /\ total_msgs = length (flat_map messages convs)
      /\ length usage <= 10
      /\ NoDup (map fst usage)
      /\ StronglySorted (fun a b => snd b <= snd a) usage
      /\ (forall k n, In (k, n) usage ->
            k <> [] /\ 1 <= n /\ n = conversations_with_model k convs)
      /\ list_sum (map snd usage) <= total_convs
      /\ (length (model_counts convs) <= 10 ->
          list_sum (map snd usage) = total_convs
          /\ forall c, In c convs ->
               In (slug_or_unknown c,
                   conversations_with_model (slug_or_unknown c) convs) usage)
  end.
Proof.
  destruct convs as [|c0 l]; [reflexivity|].
  unfold chatgpt_stats. generalize (c0 :: l). clear c0 l. intros convs.
  cbv zeta. unfold most_common.
  set (counts := model_counts convs).
  set (sorted := sorted_desc (fun kv : str * nat => INR (snd kv)) counts).
  assert (HP : Permutation sorted counts) by apply sorted_desc_perm.
  assert (Hnd : NoDup (map fst counts))
    by (unfold counts; rewrite model_counts_counter; apply counter_NoDup).
  assert (Hnds : NoDup (map fst sorted)).
  { eapply Permutation_NoDup; [|exact Hnd].
    apply Permutation_map. now symmetry. }
  assert (Hsum : list_sum (map snd counts) = length convs).
  { unfold counts. rewrite model_counts_counter.
    pose proof (counter_total (map slug_or_unknown convs)) as H.
    rewrite fold_left_add_sum, length_map in H. exact H. }
  assert (Hget : forall k n, In (k, n) counts ->
            k <> [] /\ 1 <= n /\ n = conversations_with_model k convs).
  { intros k n Hin. apply (dict_In_get str_eqb str_eqb_eq _ _ _ Hnd) in Hin.
    unfold counts in Hin. rewrite model_counts_counter, counter_count in Hin.
    rewrite occurrences_map_slug in Hin.
    destruct (conversations_with_model k convs =? 0) eqn:E; [discriminate|].
    apply Nat.eqb_neq in E. injection Hin as <-.
    split; [|split; [lia|reflexivity]].
    assert (Hk : In k (map slug_or_unknown convs)).
    { apply occurrences_pos. rewrite occurrences_map_slug. lia. }
    apply in_map_iff in Hk as (c & <- & _). apply slug_or_unknown_nonempty. }
  split; [reflexivity|]. split.
  { clear. induction convs as [|c convs IH]; simpl; [reflexivity|].
    rewrite length_app, IH. reflexivity. }
  split; [rewrite length_firstn; lia|]. split.
  { apply NoDup_map_firstn. exact Hnds. }
  split.
  { apply StronglySorted_firstn.
    pose proof (sorted_desc_sorted (fun kv : str * nat => INR (snd kv)) counts)
      as Hs.
    fold sorted in Hs. clearbody sorted. clear -Hs.
    induction Hs as [|x s Hs IH Hf]; constructor; [assumption|].
    rewrite Forall_forall in *. intros y Hy. apply INR_le. now apply Hf. }
  split.
  { intros k n Hin. apply Hget. apply (Permutation_in _ HP).
    now apply In_firstn in Hin. }
  split.
  { rewrite <- Hsum, <- (list_sum_perm _ _ (Permutation_map snd HP)).
    rewrite <- firstn_map. apply list_sum_firstn. }
  intros Hlen.
  assert (Hall : firstn 10 sorted = sorted).
  { apply firstn_all2. rewrite (Permutation_length HP). exact Hlen. }
  rewrite Hall. split.
  - now rewrite (list_sum_perm _ _ (Permutation_map snd HP)).
  - intros c Hc. apply (Permutation_in _ (Permutation_sym HP)).
    assert (Hk : In (slug_or_unknown c) (map fst counts)).
    { unfold counts. rewrite model_counts_counter. apply counter_keys.
      now apply in_map. }
    apply in_map_iff in Hk as ([k n] & Hk & Hin). simpl in Hk. subst k.
    destruct (Hget _ _ Hin) as (_ & _ & ->). exact Hin.
Qed.

(* ===================================================================== *)
(** * Date range *)

Lemma fold_min_spec l : forall x,
  let r := fold_left (fun cur item => if Rltb item cur then item else cur) l x in
  (r <= x)%R /\ Forall (fun t => (r <= t)%R) l /\ (r = x \/ In r l).
Proof.
  induction l as [|y l IH]; intros x; simpl.
  - split; [lra|]. split; [constructor|now left].
  - destruct (Rltb y x) eqn:E.
    + apply Rltb_true in E. destruct (IH y) as (H1 & H2 & H3).
      split; [lra|]. split; [constructor; assumption|].
      destruct H3 as [H3|H3]; [right; left; now symmetry|right; now right].
    + assert (x <= y)%R.
      { destruct (Rle_dec x y); [assumption|].
        assert (Hlt : (y < x)%R) by lra. apply Rltb_true in Hlt. congruence. }
      destruct (IH x) as (H1 & H2 & H3).
      split; [assumption|]. split; [constructor; [lra|assumption]|].
      destruct H3 as [H3|H3]; [now left|right; now right].
Qed.

Lemma fold_max_spec l : forall x,
  let r := fold_left (fun cur item => if Rltb cur item then item else cur) l x in
  (x <= r)%R /\ Forall (fun t => (t <= r)%R) l /\ (r = x \/ In r l).
Proof.
  induction l as [|y l IH]; intros x; simpl.
  - split; [lra|]. split; [constructor|now left].
  - destruct (Rltb x y) eqn:E.
    + apply Rltb_true in E. destruct (IH y) as (H1 & H2 & H3).
      split; [lra|]. split; [constructor; assumption|].
      destruct H3 as [H3|H3]; [right; left; now symmetry|right; now right].
    + assert (y <= x)%R.
      { destruct (Rle_dec y x); [assumption|].
        assert (Hlt : (x < y)%R) by lra. apply Rltb_true in Hlt. congruence. }
      destruct (IH x) as (H1 & H2 & H3).
      split; [assumption|]. split; [constructor; [lra|assumption]|].
      destruct H3 as [H3|H3]; [now left|right; now right].
Qed.

Lemma truthy_create_times_In convs t :
  In t (truthy_create_times convs)
  <-> exists c, In c convs /\ create_time c = Some t /\ t <> 0%R.
Proof.
  unfold truthy_create_times. rewrite in_flat_map. split.
  - intros (c & Hc & Ht). exists c. split; [assumption|].
    destruct (create_time c) as [t'|]; [|contradiction].
    destruct (Rtruthy t') eqn:E; [|contradiction].
    destruct Ht as [->|[]]. split; [reflexivity|now apply Rtruthy_true].
  - intros (c & Hc & Ht & Hz). exists c. split; [assumption|].
    rewrite Ht. apply Rtruthy_true in Hz. rewrite Hz. now left.
Qed.

(** X20: the date range of the statistics is taken over the creation times
    that are present and not zero: both ends are the creation time of a
    conversation of the collection, every such creation time lies
    between them, and both ends are absent, printed as [unknown],
    exactly when no conversation has one; a creation time of zero, that
    of 1970-01-01, is never an end of the range. *)
Theorem stats_date_range (convs : list Conversation) :
  match chatgpt_stats convs with
  | NoStatistics => convs = []
  | Statistics _ _ earliest latest _ =>
      match earliest, latest with
      | Some e, Some l =>
          (exists c, In c convs /\ create_time c = Some e)
          /\ (exists c, In c convs /\ create_time c = Some l)
          /\ e <> 0%R /\ l <> 0%R
          /\ forall c t, In c convs -> create_time c = Some t -> t <> 0%R ->
               (e <= t <= l)%R
      | None, None =>
          forall c, In c convs ->
            create_time c = None \/ create_time c = Some 0%R
      | _, _ => False
      end
  end.
Proof.
  destruct convs as [|c0 l0]; [reflexivity|].
  unfold chatgpt_stats. generalize (c0 :: l0). clear c0 l0. intros convs.
  cbv zeta.
  pose proof (truthy_create_times_In convs) as Hin.
  destruct (truthy_create_times convs) as [|x dates]; simpl.
  - intros c Hc. destruct (create_time c) as [t|] eqn:E; [|now left].
    right. f_equal. destruct (Req_dec_T t 0) as [e|n]; [exact e|].
    exfalso. apply (proj2 (Hin t)). now exists c.
  - destruct (fold_min_spec dates x) as (Hm1 & Hm2 & Hm3).
    destruct (fold_max_spec dates x) as (HM1 & HM2 & HM3).
    cbv zeta in *.
    set (e := fold_left (fun cur item => if Rltb item cur then item else cur)
                dates x) in *.
    set (l := fold_left (fun cur item => if Rltb cur item then item else cur)
                dates x) in *.
    assert (He : In e (x :: dates)) by (destruct Hm3 as [->|H]; [now left|now right]).
    assert (Hl : In l (x :: dates)) by (destruct HM3 as [->|H]; [now left|now right]).
    apply Hin in He as (ce & Hce & Hte & Hze).
    apply Hin in Hl as (cl & Hcl & Htl & Hzl).
    split; [now exists ce|]. split; [now exists cl|].
    split; [assumption|]. split; [assumption|].
    intros c t Hc Ht Hz.
    assert (Ht' : In t (x :: dates)) by (apply Hin; now exists c).
    rewrite Forall_forall in Hm2, HM2.
    destruct Ht' as [<-|Ht']; [lra|].
    split; [now apply Hm2|now apply HM2].
Qed.

(* ===================================================================== *)
(** * Installer: the configuration of Claude Desktop *)

Lemma dict_set_same_keys {V} (d : dict str V) k v v' :
  dict_set str_eqb (dict_set str_eqb d k v) k v' = dict_set str_eqb d k v'.
Proof.
  induction d as [|[k0 v0] d IH]; simpl.
  - now rewrite str_eqb_refl.
  - destruct (str_eqb k k0) eqn:E; simpl; rewrite E; [reflexivity|].
    now rewrite IH.
Qed.

(** X21: the installer fails on a config that is not an object or whose
    ["mcpServers"] is not one, and otherwise writes an object in which
    every other member of the config and every other server is as
    before, in its place, and the server's entry gives the command and
    the arguments with the path of the stored export; installing again
    with the same paths writes the same config. *)
Theorem write_config_merges (existing : option json)
    (stored_path uvx_path : str) :
  match write_config existing stored_path uvx_path with
  | None =>
      config_members existing = None
      \/ exists members,
           config_members existing = Some members
           /\ config_servers members = None
  | Some written =>
      exists members servers members' servers',
        config_members existing = Some members
        /\ config_servers members = Some servers
        /\ written = JObject members'
        /\ dict_get str_eqb members' (lit "mcpServers")
           = Some (JObject servers')
        /\ dict_get str_eqb servers' SERVER_NAME
           = Some (server_entry stored_path uvx_path)
        /\ (forall k, k <> lit "mcpServers" ->
              dict_get str_eqb members' k = dict_get str_eqb members k)
        /\ (forall name, name <> SERVER_NAME ->
              dict_get str_eqb servers' name = dict_get str_eqb servers name)
        /\ (exists rest, map fst members' = map fst members ++ rest)
        /\ (exists rest, map fst servers' = map fst servers ++ rest)
        /\ write_config (Some written) stored_path uvx_path = Some written
  end.
Proof.
  assert (Hkeys : forall (V : Type) (d : dict str V) k v,
            exists rest, map fst (dict_set str_eqb d k v) = map fst d ++ rest).
  { intros V d k v. rewrite (dict_set_keys str_eqb).
    destruct (dict_mem str_eqb d k); [exists []; now rewrite app_nil_r|].
    now exists [k]. }
  unfold write_config.
  destruct existing as [[| | | | |members]|]; simpl config_members;
    try (left; reflexivity).
  - (* the config file holds an object *)
    unfold dict_mem.
    destruct (dict_get str_eqb members (lit "mcpServers")) as [v|] eqn:E.
    + cbv zeta. cbv iota. rewrite E.
      destruct v as [| | | | |servers];
        try (right; exists members; split;
             [reflexivity|unfold config_servers; now rewrite E]).
      exists members, servers. eexists. eexists.
      split; [reflexivity|].
      split; [unfold config_servers; now rewrite E|].
      split; [reflexivity|].
      split; [apply (dict_get_set_eq str_eqb str_eqb_eq)|].
      split; [apply (dict_get_set_eq str_eqb str_eqb_eq)|].
      split; [intros k Hk; apply (dict_get_set_neq str_eqb str_eqb_eq);
              congruence|].
      split; [intros k Hk; apply (dict_get_set_neq str_eqb str_eqb_eq);
              congruence|].
      split; [apply Hkeys|]. split; [apply Hkeys|].
      unfold dict_mem.
      rewrite (dict_get_set_eq str_eqb str_eqb_eq).
      rewrite (dict_get_set_eq str_eqb str_eqb_eq).
      now rewrite !dict_set_same_keys.
    + cbv zeta. cbv iota. rewrite (dict_get_set_eq str_eqb str_eqb_eq).
      exists members, []. eexists. eexists.
      split; [reflexivity|].
      split; [unfold config_servers; now rewrite E|].
      split; [reflexivity|].
      split; [apply (dict_get_set_eq str_eqb str_eqb_eq)|].
      split; [reflexivity|].
      split.
      { intros k Hk.
        rewrite !(dict_get_set_neq str_eqb str_eqb_eq) by congruence.
        reflexivity. }
      split.
      { intros k Hk. simpl.
        destruct (str_eqb k SERVER_NAME) eqn:Ek; [|reflexivity].
        apply str_eqb_eq in Ek. contradiction. }
      split.
      { rewrite dict_set_same_keys. apply Hkeys. }
      split; [now exists [SERVER_NAME]|].
      unfold dict_mem.
      rewrite (dict_get_set_eq str_eqb str_eqb_eq).
      rewrite (dict_get_set_eq str_eqb str_eqb_eq).
      now rewrite !dict_set_same_keys.
  - (* no config file, or one that does not decode *)
    exists [], []. eexists. eexists.
    split; [reflexivity|]. split; [reflexivity|]. split; [reflexivity|].
    split; [reflexivity|]. split; [reflexivity|].
    split.
    { intros k Hk. simpl.
      destruct (str_eqb k (lit "mcpServers")) eqn:Ek; [|reflexivity].
      apply str_eqb_eq in Ek. contradiction. }
    split.
    { intros k Hk. simpl.
      destruct (str_eqb k SERVER_NAME) eqn:Ek; [|reflexivity].
      apply str_eqb_eq in Ek. contradiction. }
    split; [now eexists|]. split; [now eexists|]. reflexivity.
Qed.
